(** * crate-digger-mcp: the track resolution pipeline

    A shallow embedding of the TypeScript sources of the DJ mix track
    downloader and the properties of its resolution core:

    - [types/index.ts]: the data model;
    - [services/llm/llmService.ts]: [validateAndTransform],
      [parseTracklist], [callAnthropic];
    - [utils/rateLimiter.ts]: [RateLimiter.throttle], [getCurrentDelay],
      [reset], [resetAll];
    - [services/resolver/notsliderService.ts], [youtubeDlService.ts],
      and [class SoundCloudService], which stands after [YouTubeService]
      in [services/youtube/youtubeService.ts];
    - [handlers/analyzeYoutubeMix.ts]: the skip-LLM conversion,
      [searchTracksWithWaterfall], [searchSingleTrack], [calculateSummary].

    JavaScript numbers that hold arbitrary values are binary64 floats
    ([float]); millisecond clocks, delays and loop counters, which the
    code only ever fills with integers, are [Z]; array lengths and tallies
    are [nat].  Strings are byte strings.  [undefined] is [None]. *)

From Stdlib Require Import ZArith String Ascii List Floats Lia.
From stdpp Require Import base option list strings gmap pretty.

Set Warnings "-inexact-float,-register-all".
Local Open Scope Z_scope.

(* ================================================================== *)
(** * JavaScript preliminaries *)
(* ================================================================== *)

(** Values that can be thrown.  [error instanceof Error ? error.message :
    'Unknown error'] only distinguishes [Error] instances (of which
    [ServiceError] is a subclass) from everything else. *)
Inductive ErrorCode :=
| INVALID_URL | YOUTUBE_FETCH_FAILED | NO_TRACKS_FOUND
| LLM_PARSE_FAILED | RATE_LIMIT_EXCEEDED | TIMEOUT.

Inductive Thrown :=
| JsError (message : string)
| ServiceError (code : ErrorCode) (message : string) (retryable : bool)
| NonError.

(** [error instanceof Error ? error.message : 'Unknown error'] *)
Definition error_message (e : Thrown) : string :=
  match e with
  | JsError m => m
  | ServiceError _ m _ => m
  | NonError => "Unknown error"
  end.

(** The result of running a piece of code that may throw. *)
Inductive Outcome (R : Type) :=
| Returned (r : R)
| Threw (e : Thrown).
Arguments Returned {R} r.
Arguments Threw {R} e.

(** [Math.min] and [Math.max] on two arguments: [NaN] is contagious and
    [-0] is smaller than [+0]. *)
Definition Math_min (a b : float) : float :=
  if (PrimFloat.is_nan a || PrimFloat.is_nan b)%bool then PrimFloat.nan
  else if PrimFloat.ltb a b then a
  else if PrimFloat.ltb b a then b
  else if PrimFloat.get_sign a then a else b.

Definition Math_max (a b : float) : float :=
  if (PrimFloat.is_nan a || PrimFloat.is_nan b)%bool then PrimFloat.nan
  else if PrimFloat.ltb a b then b
  else if PrimFloat.ltb b a then a
  else if PrimFloat.get_sign a then b else a.

(** [s || d] on strings: the empty string is falsy. *)
Definition str_or (s d : string) : string :=
  match s with
  | EmptyString => d
  | _ => s
  end.

(** Truthiness of a string. *)
Definition truthy (s : string) : bool :=
  match s with
  | EmptyString => false
  | _ => true
  end.

(** A value spliced into a template literal; [undefined] prints as such. *)
Definition template (v : option string) : string :=
  match v with
  | Some s => s
  | None => "undefined"
  end.

(** [s.split(sep)] for a non-empty separator: [cur] is the piece being
    read, [skip] the number of separator characters still to drop. *)
Fixpoint split_go (sep : string) (skip : nat) (cur s : string) : list string :=
  match s with
  | EmptyString => [cur]
  | String c s' =>
      match skip with
      | S n => split_go sep n cur s'
      | O =>
          if String.prefix sep s
          then cur :: split_go sep (String.length sep - 1) "" s'
          else split_go sep 0 (cur +:+ String c "") s'
      end
  end.

Definition split (sep s : string) : list string := split_go sep 0 "" s.

(** [parts.join(sep)] *)
Definition join (sep : string) (parts : list string) : string :=
  String.concat sep parts.

(** [haystack.includes(needle)] *)
Fixpoint includes (needle haystack : string) : bool :=
  (String.prefix needle haystack ||
   match haystack with
   | EmptyString => false
   | String _ rest => includes needle rest
   end)%bool.

(** What [encodeURIComponent] does with a string: it returns the escaped
    string, or throws a [URIError], as it does for a string with an
    unpaired surrogate. *)
Inductive Encoded :=
| Encoded_as (s : string)
| URIError (message : string).

(** Functions of the JavaScript runtime that the sources call and whose
    definition (Unicode white space, the regular expression engine, URI
    escaping) lies outside the repository. *)
Class JsRuntime := {
  (** [s.trim()] *)
  String_trim : string -> string;
  (** [s.replace(/pattern/flags, by)] *)
  String_replace : string -> string -> string -> string -> string;
  (** [s.toLowerCase()] *)
  String_toLowerCase : string -> string;
  (** [encodeURIComponent(s)] *)
  encodeURIComponent : string -> Encoded
}.

(** ** Parsed JSON *)

Inductive Json :=
| JNull
| JBool (b : bool)
| JNumber (x : float)
| JString (s : string)
| JArray (items : list Json)
| JObject (members : list (string * Json)).

(** The last member with a given name wins, as in [JSON.parse]. *)
Fixpoint member (key : string) (members : list (string * Json)) : option Json :=
  match members with
  | [] => None
  | (k, v) :: rest =>
      match member key rest with
      | Some v' => Some v'
      | None => if String.eqb k key then Some v else None
      end
  end.

(** [item.key] for the keys the sources read ([index], [artist], [title],
    [certainty], [remixInfo]): reading a property of [null] throws, and
    none of these keys exists on a boolean, number, string or array. *)
Definition property (item : Json) (key : string) : Outcome (option Json) :=
  match item with
  | JNull =>
      Threw (JsError ("Cannot read properties of null (reading '" +:+ key +:+ "')"))
  | JObject members => Returned (member key members)
  | _ => Returned None
  end.

(* ================================================================== *)
(** * The data model ([types/index.ts]) *)
(* ================================================================== *)

Module RawTrack.
Record t := {
  index : float;
  timestamp : option string;
  rawText : string
}.
End RawTrack.

Record CleanedTrack := {
  index : float;
  original : string;
  artist : string;
  title : string;
  remixInfo : option string;
  certainty : float;
  isValid : bool
}.

Inductive Source := Source_notslider | Source_soundcloud | Source_youtube.

Inductive Quality := Q320kbps | Q256kbps | Q192kbps | Q128kbps | Qunknown.

Inductive Format := Fmp3 | Fm4a | Fopus.

Record TrackSearchResult := {
  track : CleanedTrack;
  found : bool;
  source : option Source;
  downloadUrl : option string;
  quality : option Quality;
  format : option Format;
  duration : option float;
  fileSize : option float;
  error : option string
}.

Record SourcesUsed := {
  notslider : nat;
  soundcloud : nat;
  youtube : nat
}.

Record ProcessingSummary := {
  totalTracks : nat;
  foundTracks : nat;
  failedTracks : nat;
  processingTime : Z;
  sourcesUsed : SourcesUsed;
  averageQuality : Quality;
  estimatedCost : float;
  modelUsed : string
}.

(** The configuration, without the keys and preferences that the
    resolution core never reads. *)
Record WorkerConfig := {
  MAX_CONCURRENT_SEARCHES : Z;
  RATE_LIMIT_DELAY_MS : Z;
  REQUEST_TIMEOUT_MS : Z;
  NOTSLIDER_BASE_URL : string
}.

(** The string of a source, as the type
    ['notslider' | 'soundcloud' | 'youtube'] spells it. *)
Definition source_id (s : Source) : string :=
  match s with
  | Source_notslider => "notslider"
  | Source_soundcloud => "soundcloud"
  | Source_youtube => "youtube"
  end.

Definition Source_eqb (a b : Source) : bool :=
  match a, b with
  | Source_notslider, Source_notslider
  | Source_soundcloud, Source_soundcloud
  | Source_youtube, Source_youtube => true
  | _, _ => false
  end.

Definition Quality_eqb (a b : Quality) : bool :=
  match a, b with
  | Q320kbps, Q320kbps | Q256kbps, Q256kbps | Q192kbps, Q192kbps
  | Q128kbps, Q128kbps | Qunknown, Qunknown => true
  | _, _ => false
  end.

(** An object literal [{ track, found: false, error }]. *)
Definition not_found (t : CleanedTrack) (err : string) : TrackSearchResult :=
  {| track := t; found := false; source := None; downloadUrl := None;
     quality := None; format := None; duration := None; fileSize := None;
     error := Some err |}.

(* ================================================================== *)
(** * [LLMService.validateAndTransform] *)
(* ================================================================== *)

Section LLMService.
Context {runtime : JsRuntime}.

Definition cleanArtistName (a : string) : string :=
  String_trim
    (String_replace "\s+" "g" " "
       (String_replace "\s*featuring\s*" "gi" " "
          (String_replace "\s*ft\.?\s*" "gi" " "
             (String_replace "\s*feat\.?\s*" "gi" " "
                (String_trim a))))).

Definition cleanTitle (s : string) : string :=
  String_trim (String_replace "\s+" "g" " " (String_trim s)).

(** The body of the callback given to [rawResponse.map]. *)
Definition transformItem (item : Json) (position : nat) : Outcome CleanedTrack :=
  match property item "index" with
  | Threw e => Threw e
  | Returned item_index =>
  match property item "artist" with
  | Threw e => Threw e
  | Returned item_artist =>
  match property item "title" with
  | Threw e => Threw e
  | Returned item_title =>
  match property item "certainty" with
  | Threw e => Threw e
  | Returned item_certainty =>
  match property item "remixInfo" with
  | Threw e => Threw e
  | Returned item_remixInfo =>
    match item_index, item_artist, item_title with
    | Some (JNumber i), Some (JString a), Some (JString ti) =>
        let certainty :=
          match item_certainty with
          | Some (JNumber c) => Math_max 0 (Math_min 1 c)
          | _ => 0.5%float
          end in
        let remixInfo :=
          match item_remixInfo with
          | Some (JString r) => if truthy r then Some (String_trim r) else None
          | _ => None
          end in
        Returned
          {| index := i;
             original := a +:+ " - " +:+ ti;
             artist := cleanArtistName a;
             title := cleanTitle ti;
             remixInfo := remixInfo;
             certainty := certainty;
             isValid := PrimFloat.leb 0.5 certainty |}
    | _, _, _ =>
        Threw (ServiceError LLM_PARSE_FAILED
                 ("Invalid track data at index " +:+ pretty position
                  +:+ ": missing required fields") false)
    end
  end end end end end.

(** [items.map(callback)] from position [position] on; the first
    exception ends the traversal. *)
Fixpoint transformItems (items : list Json) (position : nat)
  : Outcome (list CleanedTrack) :=
  match items with
  | [] => Returned []
  | item :: rest =>
      match transformItem item position with
      | Threw e => Threw e
      | Returned t =>
          match transformItems rest (S position) with
          | Threw e => Threw e
          | Returned ts => Returned (t :: ts)
          end
      end
  end.

Definition validateAndTransform (rawResponse : Json) : Outcome (list CleanedTrack) :=
  match rawResponse with
  | JArray items => transformItems items 0
  | _ => Threw (ServiceError LLM_PARSE_FAILED "LLM response is not an array" false)
  end.

End LLMService.

(* ================================================================== *)
(** * The skip-LLM conversion of [AnalyzeYoutubeMixHandler.handle] *)
(* ================================================================== *)

(** The callback of [rawTracks.map(track => ({ ... }))] at step 6. *)
Definition rawToCleaned (raw : RawTrack.t) : CleanedTrack :=
  let parts := split " - " (RawTrack.rawText raw) in
  {| index := RawTrack.index raw;
     original := RawTrack.rawText raw;
     artist := str_or (nth 0 parts "") "Unknown Artist";
     title := str_or (join " - " (drop 1 parts)) "Unknown Title";
     remixInfo := None;
     certainty := 0.3%float;
     isValid := true |}.

Definition skipLLMCleanup (rawTracks : list RawTrack.t) : list CleanedTrack :=
  map rawToCleaned rawTracks.

(* ================================================================== *)
(** * [calculateSummary] *)
(* ================================================================== *)

(** [acc[quality] = (acc[quality] || 0) + 1] on an object whose keys keep
    their insertion order. *)
Fixpoint tally (acc : list (Quality * nat)) (q : Quality) : list (Quality * nat) :=
  match acc with
  | [] => [(q, 1%nat)]
  | (k, n) :: rest =>
      if Quality_eqb k q then (k, S n) :: rest else (k, n) :: tally rest q
  end.

(** [(a, b) => qualityCounts[a[0]] > qualityCounts[b[0]] ? a : b] *)
Definition more_frequent (a b : Quality * nat) : Quality * nat :=
  if (snd b <? snd a)%nat then a else b.

Definition has_source (s : Source) (r : TrackSearchResult) : bool :=
  match source r with
  | Some s' => Source_eqb s' s
  | None => false
  end.

Definition calculateSummary (results : list TrackSearchResult) (processingTime : Z)
  : ProcessingSummary :=
  let found_ := filter (fun r => found r = true) results in
  let failed := filter (fun r => found r = false) results in
  let sourcesUsed :=
    {| notslider := length (filter (fun r => has_source Source_notslider r = true) found_);
       soundcloud := length (filter (fun r => has_source Source_soundcloud r = true) found_);
       youtube := length (filter (fun r => has_source Source_youtube r = true) found_) |} in
  let qualityCounts := fold_left tally (omap quality found_) [] in
  let averageQuality :=
    match qualityCounts with
    | first :: others => fst (fold_left more_frequent others first)
    | [] => Qunknown
    end in
  {| totalTracks := length results;
     foundTracks := length found_;
     failedTracks := length failed;
     processingTime := processingTime;
     sourcesUsed := sourcesUsed;
     averageQuality := averageQuality;
     estimatedCost := 0.0008%float;
     modelUsed := "gpt-4o-mini" |}.

(* ================================================================== *)
(** * Asynchronous code *)
(* ================================================================== *)

(** An [async] function is a tree: it returns, throws, or performs an
    operation [ev] of its environment and goes on with the answer.  All
    loops of the sources are bounded, so the trees are finite. *)
Inductive Async (E : Type -> Type) (R : Type) : Type :=
| Ret (r : R)
| Throw (e : Thrown)
| Vis {X : Type} (ev : E X) (k : X -> Async E R).
Arguments Ret {E R} r.
Arguments Throw {E R} e.
Arguments Vis {E R X} ev k.

(** [const x = await p; f(x)] *)
Fixpoint bind {E A B} (p : Async E A) (f : A -> Async E B) : Async E B :=
  match p with
  | Ret r => f r
  | Throw e => Throw e
  | Vis ev k => Vis ev (fun x => bind (k x) f)
  end.

(** [try { p } catch (error) { h(error) }] *)
Fixpoint try_catch {E R} (p : Async E R) (h : Thrown -> Async E R) : Async E R :=
  match p with
  | Ret r => Ret r
  | Throw e => h e
  | Vis ev k => Vis ev (fun x => try_catch (k x) h)
  end.

#[global] Instance Async_ret {E} : MRet (Async E) := fun _ r => Ret r.
#[global] Instance Async_bind {E} : MBind (Async E) := fun _ _ f p => bind p f.

(** An operation whose answer is either a value or an exception, such as
    awaiting a promise that may reject. *)
Definition settle {E R} (ev : E (Outcome R)) : Async E R :=
  Vis ev (fun o => match o with Returned r => Ret r | Threw e => Throw e end).

Definition trigger {E X} (ev : E X) : Async E X := Vis ev Ret.

(* ================================================================== *)
(** * The operations of the worker's environment *)
(* ================================================================== *)

Inductive Method := GET | HEAD.

Record Request := {
  method : Method;
  href : string
}.

(** What the sources read of a [Response]: [ok], [status], [statusText],
    [url], and the outcome of [await response.text()]. *)
Record Response := {
  ok : bool;
  status : Z;
  statusText : string;
  url : string;
  text : Outcome string
}.

Inductive SysE : Type -> Type :=
| DateNow : SysE Z
    (** [Date.now()] *)
| SetTimeout (ms : Z) : SysE unit
    (** [await new Promise(r => setTimeout(r, ms))] *)
| LastRequest_get (service : string) : SysE (option Z)
    (** [this.lastRequest.get(service)] *)
| LastRequest_set (service : string) (t : Z) : SysE unit
    (** [this.lastRequest.set(service, t)] *)
| Fetch (rq : Request) : SysE (Outcome Response).
    (** [await fetch(url, { method })] *)

(* ================================================================== *)
(** * [RateLimiter] ([utils/rateLimiter.ts]) *)
(* ================================================================== *)

Record Limit := {
  rpm : Z;
  delayMs : Z
}.

Definition limits : gmap string Limit :=
  list_to_map
    [ ("notslider", {| rpm := 60; delayMs := 1000 |});
      ("soundcloud", {| rpm := 100; delayMs := 600 |});
      ("openai", {| rpm := 60; delayMs := 1000 |}) ].

(** The members that every object inherits from [Object.prototype]:
    [this.limits] is an object literal, and a property read on it finds
    them as well as its own three keys. *)
Definition Object_prototype : list string :=
  [ "constructor"; "hasOwnProperty"; "isPrototypeOf"; "propertyIsEnumerable";
    "toLocaleString"; "toString"; "valueOf"; "__proto__";
    "__defineGetter__"; "__defineSetter__"; "__lookupGetter__"; "__lookupSetter__" ].

(** What [this.limits[service]] evaluates to: an entry of the table; an
    inherited member, which is a function or, for [__proto__], the
    prototype itself, hence truthy and without [delayMs]; or
    [undefined]. *)
Inductive LimitsValue :=
| Entry (config : Limit)
| Inherited
| Undefined.

Definition limits_get (service : string) : LimitsValue :=
  match limits !! service with
  | Some config => Entry config
  | None =>
      if existsb (String.eqb service) Object_prototype then Inherited else Undefined
  end.

(** [config.delayMs], which is [undefined] on an inherited member. *)
Definition config_delayMs (config : LimitsValue) : option Z :=
  match config with
  | Entry c => Some (delayMs c)
  | _ => None
  end.

(** [throttle(service)].  The [console.warn] of the unknown-service branch
    is not modelled.  [elapsed < undefined] is false. *)
Definition throttle (service : string) : Async SysE unit :=
  match limits_get service with
  | Undefined => Ret tt
  | config =>
      stored ← trigger (LastRequest_get service);
      let last := default 0 stored in
      now ← trigger DateNow;
      let elapsed := now - last in
      match config_delayMs config with
      | Some delay_ms =>
          if elapsed <? delay_ms
          then trigger (SetTimeout (delay_ms - elapsed))
          else Ret tt
      | None => Ret tt
      end;;
      now' ← trigger DateNow;
      trigger (LastRequest_set service now')
  end.

(* ================================================================== *)
(** * [NotSliderService] ([services/resolver/notsliderService.ts]) *)
(* ================================================================== *)

(** An [<a>] element as cheerio presents it: its [href] attribute, if any,
    and its text content. *)
Record Anchor := {
  attr_href : option string;
  anchor_text : string
}.

(** The HTML parser [cheerio] is a dependency of the repository.
    [cheerio_anchors html] is the list of the [<a>] elements of the
    document in document order, or [None] when parsing throws. *)
Class Cheerio := {
  cheerio_anchors : string -> option (list Anchor)
}.

Definition retryAttempts : nat := 2.

Section NotSliderService.
Context {runtime : JsRuntime} {cheerio : Cheerio}.
Variable config : WorkerConfig.

(** The selector [a[href*="needle"]]. *)
Definition href_contains (needle : string) (a : Anchor) : bool :=
  match attr_href a with
  | Some h => includes needle h
  | None => false
  end.

(** The callback of [.filter((_, element) => ...)]. *)
Definition quality_link (a : Anchor) : bool :=
  let text := String_toLowerCase (anchor_text a) in
  let href := default "" (attr_href a) in
  (includes "320" text || includes "320kbps" text
   || includes "high quality" text || includes "download" text
   || includes ".mp3" href)%bool.

(** The loop over [downloadLinks]: the first link whose [href] starts
    with [http] or [/]. *)
Fixpoint first_valid (links : list Anchor) : option string :=
  match links with
  | [] => None
  | a :: rest =>
      match attr_href a with
      | Some h =>
          if (truthy h && (String.prefix "http" h || String.prefix "/" h))%bool
          then Some (if String.prefix "/" h
                     then NOTSLIDER_BASE_URL config +:+ h else h)
          else first_valid rest
      | None => first_valid rest
      end
  end.

(** [extractDownloadUrl(html, query)]: it has no [await] inside and its
    own [try]/[catch] turns a parser failure into [null]. *)
Definition extractDownloadUrl (html query : string) : option string :=
  match cheerio_anchors html with
  | None => None
  | Some anchors =>
      let downloadLinks :=
        List.filter quality_link
          (List.filter (fun a => href_contains ".mp3" a || href_contains "download" a)%bool
             anchors) in
      match first_valid downloadLinks with
      | Some u => Some u
      | None =>
          match List.filter (href_contains ".mp3") anchors with
          | first :: _ =>
              match attr_href first with
              | Some h =>
                  if truthy h
                  then Some (if String.prefix "http" h
                             then h else NOTSLIDER_BASE_URL config +:+ h)
                  else None
              | None => None
              end
          | [] => None
          end
      end
  end.

(** [followRedirect(url)] *)
Definition followRedirect (u : string) : Async SysE string :=
  try_catch
    (response ← settle (Fetch {| method := HEAD; href := u |});
     Ret (url response))
    (fun _ => Ret u).

(** [this.delay(ms)] *)
Definition delay (ms : Z) : Async SysE unit := trigger (SetTimeout ms).

(** The body of the [try] block of one attempt.  [Some r] stands for
    [return r]; [None] for reaching the end of the block. *)
Definition attempt_body (t : CleanedTrack) (query : string)
  : Async SysE (option TrackSearchResult) :=
  match encodeURIComponent query with
  | URIError message => Throw (JsError message)
  | Encoded_as encoded =>
  let searchUrl := NOTSLIDER_BASE_URL config +:+ "?q=" +:+ encoded in
  response ← settle (Fetch {| method := GET; href := searchUrl |});
  if negb (ok response)
  then Throw (JsError ("HTTP " +:+ pretty (status response) +:+ ": "
                       +:+ statusText response))
  else
    html ← match text response with
           | Returned s => Ret s
           | Threw e => Throw e
           end;
    match extractDownloadUrl html query with
    | Some downloadUrl_ =>
        if truthy downloadUrl_
        then
          finalUrl ← followRedirect downloadUrl_;
          Ret (Some {| track := t; found := true;
                       source := Some Source_notslider;
                       downloadUrl := Some finalUrl;
                       quality := Some Q320kbps; format := Some Fmp3;
                       duration := None; fileSize := None; error := None |})
        else Ret None
    | None => Ret None
    end
  end.

(** The [catch] block of one attempt; the [console.warn] is not
    modelled. *)
Definition attempt_catch (t : CleanedTrack) (attempt : nat) (e : Thrown)
  : Async SysE (option TrackSearchResult) :=
  if (attempt =? retryAttempts - 1)%nat
  then Ret (Some (not_found t ("Search failed after " +:+ pretty retryAttempts
                               +:+ " attempts: " +:+ error_message e)))
  else
    delay (1000 * 2 ^ Z.of_nat attempt);;
    Ret None.

(** [for (let attempt = ...; attempt < this.retryAttempts; attempt++)]
    with [remaining = retryAttempts - attempt] iterations to go, followed
    by the [return] after the loop. *)
Fixpoint search_from (remaining attempt : nat) (t : CleanedTrack) (query : string)
  : Async SysE TrackSearchResult :=
  match remaining with
  | O => Ret (not_found t "No 320kbps MP3 found")
  | S remaining' =>
      r ← try_catch (attempt_body t query) (attempt_catch t attempt);
      match r with
      | Some result => Ret result
      | None => search_from remaining' (S attempt) t query
      end
  end.

(** [NotSliderService.search(track)] *)
Definition NotSliderService_search (t : CleanedTrack) : Async SysE TrackSearchResult :=
  let query := artist t +:+ " - " +:+ title t in
  search_from retryAttempts 0 t query.

End NotSliderService.

(* ================================================================== *)
(** * The stub resolvers *)
(* ================================================================== *)

(** [YouTubeDlService.search(track)] *)
Definition YouTubeDlService_search {E} (t : CleanedTrack) : Async E TrackSearchResult :=
  Ret (not_found t "yt-dlp service not yet implemented").

(** [SoundCloudService.search(track)] *)
Definition SoundCloudService_search {E} (t : CleanedTrack) : Async E TrackSearchResult :=
  Ret (not_found t "SoundCloud integration not yet implemented").

(* ================================================================== *)
(** * [searchSingleTrack] *)
(* ================================================================== *)

Section Coordinator.
Context {E : Type -> Type}.
(** The collaborators held in the handler's fields:
    [this.rateLimiter.throttle], [this.notsliderService.search],
    [this.soundcloudService.search], [this.youtubeDlService.search]. *)
Variable rateLimiter_throttle : string -> Async E unit.
Variable notsliderService_search : CleanedTrack -> Async E TrackSearchResult.
Variable soundcloudService_search : CleanedTrack -> Async E TrackSearchResult.
Variable youtubeDlService_search : CleanedTrack -> Async E TrackSearchResult.

(** The message of the all-sources-failed result. *)
Definition all_failed_message (n s y : TrackSearchResult) : string :=
  "Not found on any source. NotSlider: " +:+ template (error n)
  +:+ ", SoundCloud: " +:+ template (error s)
  +:+ ", YouTube-dl: " +:+ template (error y).

(** [searchSingleTrack(track, logger)]; the logger calls are not
    modelled. *)
Definition searchSingleTrack (t : CleanedTrack) : Async E TrackSearchResult :=
  try_catch
    (rateLimiter_throttle "notslider";;
     notsliderResult ← notsliderService_search t;
     if found notsliderResult then Ret notsliderResult
     else
       rateLimiter_throttle "soundcloud";;
       soundcloudResult ← soundcloudService_search t;
       if found soundcloudResult then Ret soundcloudResult
       else
         youtubeDlResult ← youtubeDlService_search t;
         if found youtubeDlResult then Ret youtubeDlResult
         else
           Ret (not_found t
                  (all_failed_message notsliderResult soundcloudResult youtubeDlResult)))
    (fun e => Ret (not_found t ("Search failed: " +:+ error_message e))).

End Coordinator.

(* ================================================================== *)
(** * Fake collaborators *)
(* ================================================================== *)

(** The coordinator run against fakes: each call of a collaborator is an
    operation, recorded in a call log and answered by the fake. *)
Inductive Provider := NotSlider | SoundCloud | YouTubeDl.

Inductive CallE : Type -> Type :=
| Call_throttle (service : string) : CallE unit
| Call_search (p : Provider) (t : CleanedTrack) : CallE (Outcome TrackSearchResult).

Inductive Call :=
| Throttled (service : string)
| Searched (p : Provider) (t : CleanedTrack).

(** What a fake provider does when it is given a track. *)
Definition Fakes := Provider -> CleanedTrack -> Outcome TrackSearchResult.

Definition answer_call {X} (fakes : Fakes) (ev : CallE X) : Call * X :=
  match ev in CallE X return Call * X with
  | Call_throttle service => (Throttled service, tt)
  | Call_search p t => (Searched p t, fakes p t)
  end.

(** The call log and the outcome of a run against fakes. *)
Fixpoint run_fakes {R} (fakes : Fakes) (p : Async CallE R) : list Call * Outcome R :=
  match p with
  | Ret r => ([], Returned r)
  | Throw e => ([], Threw e)
  | Vis ev k =>
      let '(c, x) := answer_call fakes ev in
      let '(cs, o) := run_fakes fakes (k x) in
      (c :: cs, o)
  end.

Definition searchSingleTrack_fakes (t : CleanedTrack) : Async CallE TrackSearchResult :=
  searchSingleTrack
    (fun service => trigger (Call_throttle service))
    (fun t => settle (Call_search NotSlider t))
    (fun t => settle (Call_search SoundCloud t))
    (fun t => settle (Call_search YouTubeDl t))
    t.

(** The rank of a provider in the waterfall. *)
Definition priority (p : Provider) : nat :=
  match p with
  | NotSlider => 0
  | SoundCloud => 1
  | YouTubeDl => 2
  end.

(** The identifier under which a provider is known: the keys of
    [RateLimiter.limits] and the values of [TrackSearchResult.source]. *)
Definition provider_id (p : Provider) : string :=
  match p with
  | NotSlider => "notslider"
  | SoundCloud => "soundcloud"
  | YouTubeDl => "youtube"
  end.

(* ================================================================== *)
(** * The event loop *)
(* ================================================================== *)

(** What can be observed of a run, each entry stamped with the clock. *)
Inductive Obs :=
| ORequest (rq : Request)            (** a request is sent *)
| OTimer (ms : Z)                    (** [setTimeout(_, ms)] is armed *)
| ORecorded (service : string)       (** [lastRequest.set(service, now)] *)
| OSettled (i : nat).                (** promise [i] of a [Promise.all] settles *)

(** The state shared by all tasks of a handler: the clock, the rate
    limiter's [lastRequest] map, the number of requests sent so far, and
    the observations. *)
Record World := {
  clock : Z;
  lastRequest : gmap string Z;
  sent : nat;
  observed : list (Z * Obs)
}.

(** The network: the [n]-th request sent is answered after [latency]
    milliseconds by [outcome]. *)
Record NetAnswer := {
  latency : Z;
  outcome : Outcome Response
}.

Definition Net := nat -> NetAnswer.

Definition observe (w : World) (o : Obs) : World :=
  {| clock := clock w; lastRequest := lastRequest w; sent := sent w;
     observed := observed w ++ [(clock w, o)] |}.

Definition set_clock (w : World) (t : Z) : World :=
  {| clock := t; lastRequest := lastRequest w; sent := sent w;
     observed := observed w |}.

(** An operation is answered at once, or suspends its task until the
    clock reaches [wake]. *)
Inductive Reaction (X : Type) :=
| Now (x : X)
| Later (wake : Z) (x : X).
Arguments Now {X} x.
Arguments Later {X} wake x.

Definition perform {X} (net : Net) (ev : SysE X) (w : World) : World * Reaction X :=
  match ev in SysE X return World * Reaction X with
  | DateNow => (w, Now (clock w))
  | SetTimeout ms => (observe w (OTimer ms), Later (clock w + Z.max 0 ms) tt)
  | LastRequest_get service => (w, Now (lastRequest w !! service))
  | LastRequest_set service t =>
      ({| clock := clock w; lastRequest := <[service := t]> (lastRequest w);
          sent := sent w;
          observed := observed w ++ [(clock w, ORecorded service)] |},
       Now tt)
  | Fetch rq =>
      let a := net (sent w) in
      ({| clock := clock w; lastRequest := lastRequest w; sent := S (sent w);
          observed := observed w ++ [(clock w, ORequest rq)] |},
       Later (clock w + Z.max 0 (latency a)) (outcome a))
  end.

(** A promise: pending, to be resumed at [wake] with the rest of its
    function, or settled. *)
Inductive Task (R : Type) :=
| Pending (wake : Z) (resume : Async SysE R)
| Settled (o : Outcome R).
Arguments Pending {R} wake resume.
Arguments Settled {R} o.

(** Runs a task until it suspends or settles: JavaScript runs a function
    without interruption up to its next suspension. *)
Fixpoint run_sync {R} (net : Net) (w : World) (p : Async SysE R) : World * Task R :=
  match p with
  | Ret r => (w, Settled (Returned r))
  | Throw e => (w, Settled (Threw e))
  | Vis ev k =>
      match perform net ev w with
      | (w', Now x) => run_sync net w' (k x)
      | (w', Later wake x) => (w', Pending wake (k x))
      end
  end.

(** The pending task to resume next: the one with the earliest wake-up
    time, the first of them in the array when several are due together.
    JavaScript resumes tasks that are due together in the order in which
    their timers were armed; that is the array order for the tasks of
    one chunk that arm equal timers in the same tick, as the callers of
    [throttle] do. *)
Fixpoint earliest {R} (pool : list (Task R)) : option (nat * Z) :=
  match pool with
  | [] => None
  | t :: rest =>
      match t, earliest rest with
      | Pending wake _, Some (j, wake') =>
          if wake' <? wake then Some (S j, wake') else Some (O, wake)
      | Pending wake _, None => Some (O, wake)
      | Settled _, Some (j, wake') => Some (S j, wake')
      | Settled _, None => None
      end
  end.

(** A task that has just been run: its settling, if it settled, is
    observed. *)
Definition note_settled {R} (w : World) (i : nat) (t : Task R) : World :=
  match t with
  | Settled _ => observe w (OSettled i)
  | Pending _ _ => w
  end.

(** The event loop on an array of promises: while one is pending, move
    the clock to the earliest wake-up time, resume that task, and store
    what it becomes at its own index. *)
Fixpoint event_loop {R} (fuel : nat) (net : Net) (w : World) (pool : list (Task R))
  : option (World * list (Task R)) :=
  match fuel with
  | O => None
  | S fuel' =>
      match earliest pool with
      | None => Some (w, pool)
      | Some (i, wake) =>
          match pool !! i with
          | Some (Pending _ p) =>
              let '(w', t) := run_sync net (set_clock w (Z.max (clock w) wake)) p in
              event_loop fuel' net (note_settled w' i t) (<[i := t]> pool)
          | _ => None
          end
      end
  end.

(** [batch.map(track => f(track))] on [async] functions: each call runs
    at once, in array order, up to its first suspension; [i] is the index
    of the first of [ps] in the array. *)
Fixpoint start_all {R} (net : Net) (w : World) (i : nat) (ps : list (Async SysE R))
  : World * list (Task R) :=
  match ps with
  | [] => (w, [])
  | p :: rest =>
      let '(w1, t) := run_sync net w p in
      let '(w2, ts) := start_all net (note_settled w1 i t) (S i) rest in
      (w2, t :: ts)
  end.

(** The array of values [Promise.all] resolves with, read off the settled
    array by index.  When several promises reject, JavaScript reports the
    one that rejected first and does not wait for the others; this model
    waits and reports the one of lowest index.  The handler never gets
    there, see [searchSingleTrack_never_throws]. *)
Fixpoint values {R} (pool : list (Task R)) : Outcome (list R) :=
  match pool with
  | [] => Returned []
  | Settled (Returned r) :: rest =>
      match values rest with
      | Returned rs => Returned (r :: rs)
      | Threw e => Threw e
      end
  | Settled (Threw e) :: _ => Threw e
  | Pending _ _ :: _ => Threw NonError
  end.

(** [await Promise.all(promises)] where [promises] are the calls [ps]. *)
Definition Promise_all {R} (fuel : nat) (net : Net) (w : World) (ps : list (Async SysE R))
  : option (World * Outcome (list R)) :=
  let '(w1, pool) := start_all net w 0 ps in
  match event_loop fuel net w1 pool with
  | None => None
  | Some (w2, pool') => Some (w2, values pool')
  end.

(** One task run alone. *)
Fixpoint run_alone {R} (net : Net) (w : World) (p : Async SysE R) : World * Outcome R :=
  match p with
  | Ret r => (w, Returned r)
  | Throw e => (w, Threw e)
  | Vis ev k =>
      match perform net ev w with
      | (w', Now x) => run_alone net w' (k x)
      | (w', Later wake x) => run_alone net (set_clock w' (Z.max (clock w') wake)) (k x)
      end
  end.

(* ================================================================== *)
(** * [searchTracksWithWaterfall] *)
(* ================================================================== *)

(** [array.slice(start, end)] on integers. *)
Definition slice {A} (l : list A) (start end_ : Z) : list A :=
  let len := Z.of_nat (length l) in
  let k := if start <? 0 then Z.max (len + start) 0 else Z.min start len in
  let final := if end_ <? 0 then Z.max (len + end_) 0 else Z.min end_ len in
  take (Z.to_nat (final - k)) (drop (Z.to_nat k) l).

Section Handler.
Context {runtime : JsRuntime} {cheerio : Cheerio}.
Variable config : WorkerConfig.
Variable net : Net.

(** [this.searchSingleTrack] with the services of the constructor. *)
Definition this_searchSingleTrack (t : CleanedTrack) : Async SysE TrackSearchResult :=
  searchSingleTrack throttle
    (NotSliderService_search config)
    SoundCloudService_search
    YouTubeDlService_search
    t.

(** The [for] loop of [searchTracksWithWaterfall] from [i] on, with
    [results] collected so far.  [None]: the loop is still running when
    the fuel is spent. *)
Fixpoint waterfall_loop (fuel : nat) (w : World) (tracks : list CleanedTrack)
  (i : Z) (results : list TrackSearchResult)
  : option (World * Outcome (list TrackSearchResult)) :=
  match fuel with
  | O => None
  | S fuel' =>
      let maxConcurrent := MAX_CONCURRENT_SEARCHES config in
      if i <? Z.of_nat (length tracks) then
        let batch := slice tracks i (i + maxConcurrent) in
        let batchPromises := map this_searchSingleTrack batch in
        match Promise_all fuel net w batchPromises with
        | None => None
        | Some (w', Threw e) => Some (w', Threw e)
        | Some (w', Returned batchResults) =>
            waterfall_loop fuel' w' tracks (i + maxConcurrent)
              (results ++ batchResults)
        end
      else Some (w, Returned results)
  end.

Definition searchTracksWithWaterfall (fuel : nat) (w : World)
  (tracks : list CleanedTrack)
  : option (World * Outcome (list TrackSearchResult)) :=
  waterfall_loop fuel w tracks 0 [].

End Handler.

(* ================================================================== *)
(** * Vocabulary of the properties *)
(* ================================================================== *)

(** The validity flag of a track says that its certainty is at least
    one half. *)
Definition valid_iff_certain (t : CleanedTrack) : Prop :=
  isValid t = PrimFloat.leb 0.5 (certainty t).

(** In a call log, every provider attempt comes right after a call of
    [throttle] with that provider's identifier. *)
Definition throttled_before_each_attempt (log : list Call) : Prop :=
  forall (i : nat) p t,
    log !! i = Some (Searched p t) ->
    exists j : nat, i = S j /\ log !! j = Some (Throttled (provider_id p)).

(** The invariant of a search result: found exactly when there is a
    non-empty download URL, a source exactly when found, and the source
    is one of the configured providers. *)
Definition result_invariant (r : TrackSearchResult) : Prop :=
  (found r = true <-> exists u, downloadUrl r = Some u /\ u <> "") /\
  (is_Some (source r) <-> found r = true) /\
  (forall s, source r = Some s ->
     In (source_id s) ["notslider"; "soundcloud"; "youtube"]).

(** Answers of the environment that the properties range over: any at
    all, except that a network answer satisfies [good]. *)
Definition plausible {X} (good : Outcome Response -> Prop) (ev : SysE X) : X -> Prop :=
  match ev in SysE X return X -> Prop with
  | Fetch _ => fun o => good o
  | _ => fun _ => True
  end.

(** [ensures good P Q p]: whatever the environment answers, [p] returns
    only values in [P] and throws only values in [Q]. *)
Fixpoint ensures {R} (good : Outcome Response -> Prop)
  (P : R -> Prop) (Q : Thrown -> Prop) (p : Async SysE R) : Prop :=
  match p with
  | Ret r => P r
  | Throw e => Q e
  | Vis ev k => forall x, plausible good ev x -> ensures good P Q (k x)
  end.

(** [bounded n p]: whatever the environment answers, [p] performs at most
    [n] operations. *)
Fixpoint bounded {E R} (n : nat) (p : Async E R) {struct p} : Prop :=
  match p with
  | Ret _ => True
  | Throw _ => True
  | Vis ev k =>
      match n with
      | O => False
      | S n' => forall x, bounded n' (k x)
      end
  end.

(* ================================================================== *)
(** * Scenarios *)
(* ================================================================== *)

(** A runtime and a parser to run the model on examples: strings are left
    as they are, and a page that starts with [http] holds one download
    link, to itself. *)
Definition plain_runtime : JsRuntime :=
  {| String_trim := fun s => s;
     String_replace := fun _ _ _ s => s;
     String_toLowerCase := fun s => s;
     encodeURIComponent := fun s => Encoded_as s |}.

(** The first byte of the encoding of a surrogate. *)
Definition surrogate_lead : string := String (ascii_of_nat 237) "".

(** A runtime whose [encodeURIComponent] refuses the strings that hold
    the lead byte of a surrogate, and escapes nothing else. *)
Definition strict_runtime : JsRuntime :=
  {| String_trim := fun s => s;
     String_replace := fun _ _ _ s => s;
     String_toLowerCase := fun s => s;
     encodeURIComponent := fun s =>
       if includes surrogate_lead s then URIError "URI malformed" else Encoded_as s |}.

Definition plain_cheerio : Cheerio :=
  {| cheerio_anchors := fun html =>
       if String.prefix "http" html
       then Some [ {| attr_href := Some html; anchor_text := "Download 320kbps" |} ]
       else Some [] |}.

Definition default_config : WorkerConfig :=
  {| MAX_CONCURRENT_SEARCHES := 3;
     RATE_LIMIT_DELAY_MS := 1000;
     REQUEST_TIMEOUT_MS := 25000;
     NOTSLIDER_BASE_URL := "https://notslider.nl" |}.

Definition raw_one : RawTrack.t :=
  {| RawTrack.index := 1;
     RawTrack.timestamp := Some "0:00";
     RawTrack.rawText := "Bicep - Glue" |}.

Definition track_glue : CleanedTrack :=
  {| index := 1; original := "Bicep - Glue"; artist := "Bicep"; title := "Glue";
     remixInfo := None; certainty := 0.9; isValid := true |}.

(** A track whose title ends in half of a surrogate pair. *)
Definition track_lone_surrogate : CleanedTrack :=
  {| index := 7; original := "Bicep - Glue"; artist := "Bicep";
     title := "Glue " +:+ surrogate_lead;
     remixInfo := None; certainty := 0.9; isValid := true |}.

Definition track_opal : CleanedTrack :=
  {| index := 2; original := "Bicep - Opal"; artist := "Bicep"; title := "Opal";
     remixInfo := None; certainty := 0.8; isValid := true |}.

Definition track_atlas : CleanedTrack :=
  {| index := 3; original := "Bicep - Atlas"; artist := "Bicep"; title := "Atlas";
     remixInfo := None; certainty := 0.7; isValid := true |}.

(** A handler just created, at some time of day. *)
Definition fresh_world : World :=
  {| clock := 1700000000000; lastRequest := ∅; sent := 0; observed := [] |}.

Definition page (html : string) : Response :=
  {| ok := true; status := 200; statusText := "OK";
     url := "https://notslider.nl/"; text := Returned html |}.

(** A network on which every page comes back after 50 ms, without any
    download link. *)
Definition net_empty_pages : Net :=
  fun _ => {| latency := 50; outcome := Returned (page "<html></html>") |}.

(** A network whose first answer is slow and holds a link, whose second
    answer is a server error, and which then serves empty pages. *)
Definition net_mixed : Net :=
  fun n =>
    match n with
    | O => {| latency := 500; outcome := Returned (page "https://cdn.example/glue.mp3") |}
    | S O => {| latency := 20;
                outcome := Returned {| ok := false; status := 503;
                                       statusText := "Service Unavailable";
                                       url := "https://notslider.nl/";
                                       text := Returned "" |} |}
    | _ => {| latency := 50; outcome := Returned (page "<html></html>") |}
    end.

(** Fake providers that all answer not-found, each with its own error. *)
Definition fakes_all_fail : Fakes :=
  fun p t => Returned (not_found t (provider_id p +:+ " is down")).

(** Fake providers of which only the second finds the track. *)
Definition fakes_second_finds : Fakes :=
  fun p t =>
    match p with
    | SoundCloud =>
        Returned {| track := t; found := true; source := Some Source_soundcloud;
                    downloadUrl := Some "https://sc.example/glue.m4a";
                    quality := Some Q256kbps; format := Some Fm4a;
                    duration := None; fileSize := None; error := None |}
    | _ => Returned (not_found t (provider_id p +:+ " is down"))
    end.

(** A reply of the language model, parsed: one well-formed item. *)
Definition llm_reply : Json :=
  JArray
    [ JObject [ ("index", JNumber 1); ("artist", JString "Bicep");
                ("title", JString "Glue"); ("certainty", JNumber 0.9) ] ].

(** Three results none of which is found. *)
Definition results_all_failed : list TrackSearchResult :=
  [ not_found track_glue "No 320kbps MP3 found";
    not_found track_opal "Search failed: timeout";
    not_found track_atlas "No 320kbps MP3 found" ].

(** What [fakes_all_fail] answers for [track_glue]. *)
Definition fakes_all_fail_result (p : Provider) : TrackSearchResult :=
  not_found track_glue (provider_id p +:+ " is down").

(* ================================================================== *)
(** * Vocabulary of the retry policy *)
(* ================================================================== *)

(** How one attempt of [NotSliderService.search] ends, read off the
    answer to its search request: an exception was raised (by [fetch], by
    the status check or by [response.text()]), the page held no candidate,
    or it held the candidate [u]. *)
Inductive Attempt :=
| Raised (e : Thrown)
| Missed
| Hit (u : string).

Definition attempt_result {runtime : JsRuntime} {cheerio : Cheerio} (config : WorkerConfig)
  (query : string) (o : Outcome Response) : Attempt :=
  match o with
  | Threw e => Raised e
  | Returned response =>
      if negb (ok response)
      then Raised (JsError ("HTTP " +:+ pretty (status response) +:+ ": "
                            +:+ statusText response))
      else
        match text response with
        | Threw e => Raised e
        | Returned html =>
            match extractDownloadUrl config html query with
            | Some u => if truthy u then Hit u else Missed
            | None => Missed
            end
        end
  end.

(** The world when the answer to a request sent from [w] has arrived. *)
Definition answered (net : Net) (w : World) (rq : Request) : World :=
  {| clock := clock w + Z.max 0 (latency (net (sent w)));
     lastRequest := lastRequest w;
     sent := S (sent w);
     observed := observed w ++ [(clock w, ORequest rq)] |}.

(** The world when a timer of [ms] milliseconds armed in [w] has fired. *)
Definition waited (w : World) (ms : Z) : World :=
  {| clock := clock w + Z.max 0 ms;
     lastRequest := lastRequest w;
     sent := sent w;
     observed := observed w ++ [(clock w, OTimer ms)] |}.

(** The search request of [NotSliderService.search] for a query that
    [encodeURIComponent] has escaped to [encoded]. *)
Definition search_request (config : WorkerConfig) (encoded : string) : Request :=
  {| method := GET;
     href := NOTSLIDER_BASE_URL config +:+ "?q=" +:+ encoded |}.

(** What [followRedirect] returns for the answer to its probe. *)
Definition redirected (u : string) (o : Outcome Response) : string :=
  match o with
  | Returned response => url response
  | Threw _ => u
  end.

Definition found_on_notslider (t : CleanedTrack) (finalUrl : string) : TrackSearchResult :=
  {| track := t; found := true; source := Some Source_notslider;
     downloadUrl := Some finalUrl; quality := Some Q320kbps; format := Some Fmp3;
     duration := None; fileSize := None; error := None |}.

(** Between two search requests of a run there is a back-off timer. *)
Definition backs_off_between_attempts (obs : list (Z * Obs)) : Prop :=
  forall (i j : nat) ti tj ui uj,
    (i < j)%nat ->
    obs !! i = Some (ti, ORequest {| method := GET; href := ui |}) ->
    obs !! j = Some (tj, ORequest {| method := GET; href := uj |}) ->
    exists (k attempt : nat) tk,
      (i < k < j)%nat /\
      obs !! k = Some (tk, OTimer (1000 * 2 ^ Z.of_nat attempt)).

(** A network whose first answer is a server error and which then serves
    empty pages. *)
Definition net_error_first : Net :=
  fun n =>
    match n with
    | O => {| latency := 20;
              outcome := Returned {| ok := false; status := 503;
                                     statusText := "Service Unavailable";
                                     url := "https://notslider.nl/";
                                     text := Returned "" |} |}
    | _ => {| latency := 50; outcome := Returned (page "<html></html>") |}
    end.

(** [NotSliderService.search] for [track_glue], alone, on a network. *)
Definition glue_search_alone (net : Net) : World * Outcome TrackSearchResult :=
  run_alone net fresh_world
    (NotSliderService_search (runtime := plain_runtime) (cheerio := plain_cheerio)
       default_config track_glue).

Definition glue_request : Request :=
  search_request default_config "Bicep - Glue".

(* ================================================================== *)
(** * Vocabulary of the rate limit *)
(* ================================================================== *)

(** The times at which [throttle] let a caller through for a service:
    the clock at each [lastRequest.set(service, Date.now())]. *)
Fixpoint dispatches (service : string) (obs : list (Z * Obs)) : list Z :=
  match obs with
  | [] => []
  | (t, ORecorded s) :: rest =>
      if String.eqb s service then t :: dispatches service rest
      else dispatches service rest
  | _ :: rest => dispatches service rest
  end.

(** The times at which the search requests of a run were sent. *)
(** The indices of the promises of a run, in the order in which they
    settled. *)
Fixpoint settling_order (obs : list (Z * Obs)) : list nat :=
  match obs with
  | [] => []
  | (_, OSettled i) :: rest => i :: settling_order rest
  | _ :: rest => settling_order rest
  end.

Fixpoint search_requests (obs : list (Z * Obs)) : list Z :=
  match obs with
  | [] => []
  | (t, ORequest {| method := GET; href := _ |}) :: rest => t :: search_requests rest
  | _ :: rest => search_requests rest
  end.

(** Any two of the times, in order, are at least [delay] apart. *)
Definition spaced (delay : Z) (times : list Z) : Prop :=
  forall (i j : nat) ti tj,
    (i < j)%nat -> times !! i = Some ti -> times !! j = Some tj ->
    delay <= tj - ti.

(** The world when a caller of [throttle(service)], alone, has been let
    through, either at once or after the remainder of the delay. *)
Definition let_through (w : World) (service : string) (limit : Limit) : World :=
  let elapsed := clock w - default 0 (lastRequest w !! service) in
  let w1 := if elapsed <? delayMs limit
            then waited w (delayMs limit - elapsed) else w in
  {| clock := clock w1;
     lastRequest := <[service := clock w1]> (lastRequest w1);
     sent := sent w1;
     observed := observed w1 ++ [(clock w1, ORecorded service)] |}.

(** Three callers of [throttle('notslider')] at once, on a fresh handler:
    what the first chunk of a batch does with the default concurrency. *)
Definition three_throttles : option (World * Outcome (list unit)) :=
  Promise_all 10 net_empty_pages fresh_world
    [throttle "notslider"; throttle "notslider"; throttle "notslider"].

(** The handler of the scenarios. *)
Definition scenario_waterfall (config : WorkerConfig) (net : Net) (fuel : nat)
  (tracks : list CleanedTrack)
  : option (World * Outcome (list TrackSearchResult)) :=
  searchTracksWithWaterfall (runtime := plain_runtime) (cheerio := plain_cheerio)
    config net fuel fresh_world tracks.

Definition zero_concurrency_config : WorkerConfig :=
  {| MAX_CONCURRENT_SEARCHES := 0;
     RATE_LIMIT_DELAY_MS := 1000;
     REQUEST_TIMEOUT_MS := 25000;
     NOTSLIDER_BASE_URL := "https://notslider.nl" |}.

(* ================================================================== *)
(** * Vocabulary of the event loop *)
(* ================================================================== *)

(** Every answer of the network satisfies [good]. *)
Definition good_net (good : Outcome Response -> Prop) (net : Net) : Prop :=
  forall n, good (outcome (net n)).

(** A promise keeps to [P]: it has returned a value in [P], or the rest
    of its function returns only values in [P] and never throws. *)
Definition task_ensures {R} (good : Outcome Response -> Prop) (P : R -> Prop)
  (t : Task R) : Prop :=
  match t with
  | Pending _ p => ensures good P (fun _ => False) p
  | Settled (Returned r) => P r
  | Settled (Threw _) => False
  end.

(** A promise is resumed at most [n] more times. *)
Definition task_bounded {R} (n : nat) (t : Task R) : Prop :=
  match t with
  | Pending _ p =>
      match n with
      | O => False
      | S n' => bounded n' p
      end
  | Settled _ => True
  end.

(** A promise has returned a value in [P]. *)
Definition returned_in {R} (P : R -> Prop) (t : Task R) : Prop :=
  match t with
  | Settled (Returned r) => P r
  | _ => False
  end.

(** A bound on the operations of one [searchSingleTrack]: five for each
    of the two calls of [throttle] and three for each of the two attempts
    of [NotSliderService.search]. *)
Definition single_track_bound : nat := 16.

(** Fuel that is enough for [searchTracksWithWaterfall] on [n] tracks
    when the concurrency is positive. *)
Definition waterfall_fuel (n : nat) : nat := S (n + n * single_track_bound).

(** Network answers whose [url] is not empty, as the [url] of a response
    that [fetch] resolves with is. *)
Definition has_url (o : Outcome Response) : Prop :=
  match o with
  | Returned response => url response <> ""
  | Threw _ => True
  end.

(** The two shapes of a result of the handler for a track [t]: a
    not-found result with an error, or the found result of NotSlider for
    a non-empty candidate [u] and an answer [o] to the redirect probe. *)
Definition resolved_shape (good : Outcome Response -> Prop) (t : CleanedTrack)
  (r : TrackSearchResult) : Prop :=
  (exists message, r = not_found t message) \/
  (exists u o, truthy u = true /\ good o /\
               r = found_on_notslider t (redirected u o)).

(** A network whose first answer takes five seconds and holds a link;
    every other answer is an empty page after 50 ms. *)
Definition net_slow_first : Net :=
  fun n =>
    match n with
    | O => {| latency := 5000;
              outcome := Returned (page "https://cdn.example/glue.mp3") |}
    | _ => {| latency := 50; outcome := Returned (page "<html></html>") |}
    end.

Definition three_tracks : list CleanedTrack := [track_glue; track_opal; track_atlas].

(** The results of the handler for [three_tracks] on [net_slow_first]. *)
Definition slow_first_results : list TrackSearchResult :=
  match scenario_waterfall default_config net_slow_first
          (waterfall_fuel 3) three_tracks with
  | Some (_, Returned results) => results
  | _ => []
  end.

Definition slow_first_world : World :=
  match scenario_waterfall default_config net_slow_first
          (waterfall_fuel 3) three_tracks with
  | Some (w, _) => w
  | None => fresh_world
  end.

(* ================================================================== *)
(** * The other methods of [RateLimiter] *)
(* ================================================================== *)

(** A number of milliseconds, or [NaN]. *)
Inductive Millis :=
| Ms (d : Z)
| Ms_NaN.

(** [getCurrentDelay(service)].  [Math.max(0, undefined - elapsed)] is
    [NaN]. *)
Definition getCurrentDelay (service : string) : Async SysE Millis :=
  match limits_get service with
  | Undefined => Ret (Ms 0)
  | config =>
      stored ← trigger (LastRequest_get service);
      let last := default 0 stored in
      now ← trigger DateNow;
      let elapsed := now - last in
      match config_delayMs config with
      | Some delay_ms => Ret (Ms (Z.max 0 (delay_ms - elapsed)))
      | None => Ret Ms_NaN
      end
  end.

(** [reset(service)]: [this.lastRequest.delete(service)] *)
Definition reset (service : string) (w : World) : World :=
  {| clock := clock w; lastRequest := delete service (lastRequest w);
     sent := sent w; observed := observed w |}.

(** [resetAll()]: [this.lastRequest.clear()] *)
Definition resetAll (w : World) : World :=
  {| clock := clock w; lastRequest := ∅; sent := sent w; observed := observed w |}.

(** [n] calls of [throttle(service)], each awaited before the next. *)
Fixpoint throttle_times (n : nat) (service : string) : Async SysE unit :=
  match n with
  | O => Ret tt
  | S n' => throttle service;; throttle_times n' service
  end.

(** The times [start], [start + step], ..., [n] of them. *)
Fixpoint every (step : Z) (n : nat) (start : Z) : list Z :=
  match n with
  | O => []
  | S n' => start :: every step n' (start + step)
  end.

(** A world in which NotSlider was last called 400 ms ago and SoundCloud
    never. *)
Definition busy_world : World :=
  {| clock := 1700000000400;
     lastRequest := {[ "notslider" := 1700000000000 ]};
     sent := 1;
     observed := [(1700000000000, ORecorded "notslider")] |}.

(** A page with two links, the first of which is relative. *)
Definition two_links_cheerio : Cheerio :=
  {| cheerio_anchors := fun _ =>
       Some [ {| attr_href := Some "/files/glue.mp3"; anchor_text := "Glue 320kbps" |};
              {| attr_href := Some "https://cdn.example/glue.mp3";
                 anchor_text := "mirror" |} ] |}.

(** A page whose links lead elsewhere. *)
Definition no_links_cheerio : Cheerio :=
  {| cheerio_anchors := fun _ =>
       Some [ {| attr_href := Some "/about"; anchor_text := "About" |};
              {| attr_href := None; anchor_text := "download" |} ] |}.

(** The calls of [searchSingleTrack] when no provider finds the track. *)
Definition all_calls (t : CleanedTrack) : list Call :=
  [ Throttled "notslider"; Searched NotSlider t;
    Throttled "soundcloud"; Searched SoundCloud t;
    Searched YouTubeDl t ].

(** Fake providers of which the first throws. *)
Definition fakes_first_throws : Fakes :=
  fun p t =>
    match p with
    | NotSlider => Threw (JsError "socket hang up")
    | _ => fakes_second_finds p t
    end.

(* ================================================================== *)
(** * Vocabulary of the summary *)
(* ================================================================== *)

(** How often a quality occurs in a list. *)
Fixpoint occurrences (q : Quality) (qs : list Quality) : nat :=
  match qs with
  | [] => O
  | q' :: rest =>
      if Quality_eqb q' q then S (occurrences q rest) else occurrences q rest
  end.

(** The count that a tally holds for a quality: [acc[q] || 0]. *)
Fixpoint tally_count (acc : list (Quality * nat)) (q : Quality) : nat :=
  match acc with
  | [] => O
  | (k, n) :: rest => if Quality_eqb k q then n else tally_count rest q
  end.

(** The qualities of the found results, in the order of the results. *)
Definition found_qualities (results : list TrackSearchResult) : list Quality :=
  omap quality (filter (fun r => found r = true) results).

Definition found_with (t : CleanedTrack) (s : Source) (q : Quality) : TrackSearchResult :=
  {| track := t; found := true; source := Some s;
     downloadUrl := Some "https://cdn.example/file.mp3";
     quality := Some q; format := Some Fmp3;
     duration := None; fileSize := None; error := None |}.

(** Six results: three from NotSlider at 320 kbps, one at 256 kbps and
    two failures. *)
Definition six_results : list TrackSearchResult :=
  [ found_with track_glue Source_notslider Q320kbps;
    not_found track_opal "No 320kbps MP3 found";
    found_with track_atlas Source_notslider Q256kbps;
    found_with track_glue Source_notslider Q320kbps;
    not_found track_opal "Search failed: timeout";
    found_with track_atlas Source_notslider Q320kbps ].

(** Two found results whose qualities occur once each. *)
Definition tied_results : list TrackSearchResult :=
  [ found_with track_glue Source_notslider Q320kbps;
    found_with track_opal Source_soundcloud Q128kbps ].

(* ================================================================== *)
(** * Vocabulary of [validateAndTransform] *)
(* ================================================================== *)

(** The three required fields are there: [typeof item.index === 'number'],
    [typeof item.artist === 'string'] and [typeof item.title === 'string']. *)
Definition has_required_fields (item : Json) : bool :=
  match property item "index", property item "artist", property item "title" with
  | Returned (Some (JNumber _)), Returned (Some (JString _)),
    Returned (Some (JString _)) => true
  | _, _, _ => false
  end.

(** What [validateAndTransform] throws at an item that lacks a required
    field: reading [item.index] of [null] is a [TypeError]; every other
    item is reported with its position. *)
Definition item_error (item : Json) (position : nat) : Thrown :=
  match item with
  | JNull => JsError "Cannot read properties of null (reading 'index')"
  | _ => ServiceError LLM_PARSE_FAILED
           ("Invalid track data at index " +:+ pretty position
            +:+ ": missing required fields") false
  end.

(** A track that was made from an item: index and original text come from
    the item as they are, artist and title are cleaned. *)
Definition made_from {runtime : JsRuntime} (item : Json) (t : CleanedTrack) : Prop :=
  exists i a ti,
    property item "index" = Returned (Some (JNumber i)) /\
    property item "artist" = Returned (Some (JString a)) /\
    property item "title" = Returned (Some (JString ti)) /\
    index t = i /\
    original t = a +:+ " - " +:+ ti /\
    artist t = cleanArtistName a /\
    title t = cleanTitle ti.

(** A reply whose third item has no title. *)
Definition llm_reply_third_bad : list Json :=
  [ JObject [ ("index", JNumber 1); ("artist", JString "Bicep");
              ("title", JString "Glue"); ("certainty", JNumber 0.9) ];
    JObject [ ("index", JNumber 2); ("artist", JString "Bicep");
              ("title", JString "Opal") ];
    JObject [ ("index", JNumber 3); ("artist", JString "Bicep") ];
    JObject [ ("index", JNumber 4) ] ].

(** A reply whose only item claims a certainty of 7. *)
Definition llm_reply_overconfident : Json :=
  JArray
    [ JObject [ ("index", JNumber 1); ("artist", JString "Bicep");
                ("title", JString "Glue"); ("certainty", JNumber 7) ] ].

(** A raw line with two separators, and one without any. *)
Definition raw_two_separators : RawTrack.t :=
  {| RawTrack.index := 4;
     RawTrack.timestamp := Some "12:30";
     RawTrack.rawText := "Bicep - Glue - Original Mix" |}.

Definition raw_no_separator : RawTrack.t :=
  {| RawTrack.index := 5;
     RawTrack.timestamp := None;
     RawTrack.rawText := "ID" |}.

(* ================================================================== *)
(** * Vocabulary of the search for one track *)
(* ================================================================== *)

(** The message of a track that NotSlider did not find, [e] being what
    NotSlider said. *)
Definition only_notslider_failed (e : string) : string :=
  "Not found on any source. NotSlider: " +:+ e
  +:+ ", SoundCloud: SoundCloud integration not yet implemented"
  +:+ ", YouTube-dl: yt-dlp service not yet implemented".

(* ================================================================== *)
(** * Vocabulary of the chunks *)
(* ================================================================== *)

(** The number of promises of an array that are still pending. *)
Fixpoint pending {R} (pool : list (Task R)) : nat :=
  match pool with
  | [] => O
  | Pending _ _ :: rest => S (pending rest)
  | Settled _ :: rest => pending rest
  end.

Definition negative_concurrency_config : WorkerConfig :=
  {| MAX_CONCURRENT_SEARCHES := -2;
     RATE_LIMIT_DELAY_MS := 1000;
     REQUEST_TIMEOUT_MS := 25000;
     NOTSLIDER_BASE_URL := "https://notslider.nl" |}.

(* ================================================================== *)
(** * [LLMService.parseTracklist] and [callAnthropic] *)
(* ================================================================== *)

(** [JSON.parse] lies outside the repository: it returns a value or
    throws a [SyntaxError] with a message.  [ToString] is the string that
    it makes of an argument that is not a string. *)
Inductive Parsed :=
| Parsed_value (v : Json)
| SyntaxError (message : string).

Class JsonRuntime := {
  JSON_parse : string -> Parsed;
  ToString : Json -> string
}.

(** [!!v] for a value that may be [undefined]: [null], [false], [0],
    [-0], [NaN] and the empty string are falsy. *)
Definition Json_truthy (v : option Json) : bool :=
  match v with
  | None => false
  | Some JNull => false
  | Some (JBool b) => b
  | Some (JNumber x) => negb (PrimFloat.eqb x 0 || PrimFloat.is_nan x)
  | Some (JString s) => truthy s
  | Some (JArray _) => true
  | Some (JObject _) => true
  end.

(** [v[0]]: the first item of an array, the first character of a string,
    the member ["0"] of an object. *)
Definition first_element (v : Json) : option Json :=
  match v with
  | JArray items => head items
  | JString (String c _) => Some (JString (String c ""))
  | JObject members => member "0" members
  | _ => None
  end.

(** The body of the request to the Messages API. *)
Record AnthropicRequest := {
  request_model : string;
  request_content : string;
  request_max_tokens : Z;
  request_temperature : float
}.

Inductive LlmE : Type -> Type :=
| Anthropic_fetch (authorization : string) (body : AnthropicRequest)
  : LlmE (Outcome Response).
    (** [await fetch('https://api.anthropic.com/v1/messages', ...)] *)

Definition line_feed : string := String (ascii_of_nat 10) "".

Section ParseTracklist.
Context {runtime : JsRuntime} {json : JsonRuntime}.
(** [this.config.ANTHROPIC_API_KEY], [this.config.ANTHROPIC_MODEL] and
    the text of [this.prompt]. *)
Variable ANTHROPIC_API_KEY : string.
Variable ANTHROPIC_MODEL : option string.
Variable prompt : string.

(** [await response.json()]: the body is read and parsed. *)
Definition Response_json (response : Response) : Async LlmE Json :=
  match text response with
  | Threw e => Throw e
  | Returned body =>
      match JSON_parse body with
      | Parsed_value v => Ret v
      | SyntaxError m => Throw (JsError m)
      end
  end.

Definition invalid_response_format : Thrown :=
  ServiceError LLM_PARSE_FAILED "Invalid response format from Anthropic API" false.

(** [callAnthropic(requestBody)].  Its result is typed as a string, but
    it is whatever truthy value the reply holds at [content[0].text]. *)
Definition callAnthropic (requestBody : AnthropicRequest) : Async LlmE Json :=
  response ← settle (Anthropic_fetch ("Bearer " +:+ ANTHROPIC_API_KEY) requestBody);
  if negb (ok response)
  then
    errorText ← match text response with
                | Returned s => Ret s
                | Threw e => Throw e
                end;
    Throw (ServiceError LLM_PARSE_FAILED
             ("Anthropic API error: " +:+ pretty (status response) +:+ " "
              +:+ statusText response +:+ " - " +:+ errorText)
             (500 <=? status response))
  else
    data ← Response_json response;
    match property data "content" with
    | Threw e => Throw e
    | Returned data_content =>
        match data_content with
        | Some content =>
            if Json_truthy (Some content)
            then
              match first_element content with
              | Some first =>
                  if Json_truthy (Some first)
                  then
                    match property first "text" with
                    | Threw e => Throw e
                    | Returned (Some text_) =>
                        if Json_truthy (Some text_)
                        then Ret text_
                        else Throw invalid_response_format
                    | Returned None => Throw invalid_response_format
                    end
                  else Throw invalid_response_format
              | None => Throw invalid_response_format
              end
            else Throw invalid_response_format
        | None => Throw invalid_response_format
        end
    end.

(** The argument of [JSON.parse] as a string. *)
Definition as_string (v : Json) : string :=
  match v with
  | JString s => s
  | _ => ToString v
  end.

(** [parseTracklist(rawText)] *)
Definition parseTracklist (rawText : string) : Async LlmE (list CleanedTrack) :=
  try_catch
    (let model := str_or (default "" ANTHROPIC_MODEL) "claude-3-5-haiku" in
     response ← callAnthropic
                  {| request_model := model;
                     request_content := prompt +:+ line_feed +:+ line_feed +:+ rawText;
                     request_max_tokens := 2000;
                     request_temperature := 0.3 |};
     match JSON_parse (as_string response) with
     | SyntaxError m => Throw (JsError m)
     | Parsed_value v =>
         match validateAndTransform v with
         | Returned tracks => Ret tracks
         | Threw e => Throw e
         end
     end)
    (fun error =>
       match error with
       | ServiceError _ _ _ => Throw error
       | _ => Throw (ServiceError LLM_PARSE_FAILED
                       ("Failed to parse tracklist: " +:+ error_message error) true)
       end).

End ParseTracklist.

(** The Messages API as a function of the request. *)
Definition Api := string -> AnthropicRequest -> Outcome Response.

Definition answer_llm {X} (api : Api) (ev : LlmE X) : X :=
  match ev in LlmE X return X with
  | Anthropic_fetch authorization body => api authorization body
  end.

Fixpoint run_llm {R} (api : Api) (p : Async LlmE R) : Outcome R :=
  match p with
  | Ret r => Returned r
  | Throw e => Threw e
  | Vis ev k => run_llm api (k (answer_llm api ev))
  end.

(** What [fetch] and the reading of a body throw is not an error of the
    repository's own class. *)
Definition foreign (e : Thrown) : Prop :=
  match e with
  | ServiceError _ _ _ => False
  | _ => True
  end.

Definition foreign_failures (o : Outcome Response) : Prop :=
  match o with
  | Threw e => foreign e
  | Returned response =>
      match text response with
      | Threw e => foreign e
      | Returned _ => True
      end
  end.

(** A parser that knows two documents: the reply of the API and the
    track list inside it. *)
Definition two_documents : JsonRuntime :=
  {| JSON_parse := fun s =>
       if String.eqb s "reply"
       then Parsed_value
              (JObject [ ("content",
                          JArray [ JObject [ ("type", JString "text");
                                             ("text", JString "tracks") ] ]) ])
       else if String.eqb s "tracks" then Parsed_value llm_reply
       else SyntaxError "Unexpected token";
     ToString := fun _ => "[object Object]" |}.

Definition api_ok : Api :=
  fun _ _ => Returned {| ok := true; status := 200; statusText := "OK";
                         url := "https://api.anthropic.com/v1/messages";
                         text := Returned "reply" |}.

Definition api_overloaded : Api :=
  fun _ _ => Returned {| ok := false; status := 529; statusText := "Overloaded";
                         url := "https://api.anthropic.com/v1/messages";
                         text := Returned "try later" |}.

Definition api_unauthorized : Api :=
  fun _ _ => Returned {| ok := false; status := 401; statusText := "Unauthorized";
                         url := "https://api.anthropic.com/v1/messages";
                         text := Returned "invalid x-api-key" |}.

Definition api_unreachable : Api :=
  fun _ _ => Threw (JsError "fetch failed").

(** The request that [parseTracklist] sends for a raw text. *)
Definition tracklist_request (ANTHROPIC_MODEL : option string) (prompt rawText : string)
  : AnthropicRequest :=
  {| request_model := str_or (default "" ANTHROPIC_MODEL) "claude-3-5-haiku";
     request_content := prompt +:+ line_feed +:+ line_feed +:+ rawText;
     request_max_tokens := 2000;
     request_temperature := 0.3 |}.

(** An exception that is foreign or a parse failure of the repository. *)
Definition foreign_or_parse_failure (e : Thrown) : Prop :=
  match e with
  | ServiceError code _ _ => code = LLM_PARSE_FAILED
  | _ => True
  end.

(** The world when [throttle(service)] has recorded a request of
    [service] without waiting. *)
Definition stamped (w : World) (service : string) : World :=
  {| clock := clock w;
     lastRequest := <[service := clock w]> (lastRequest w);
     sent := sent w;
     observed := observed w ++ [(clock w, ORecorded service)] |}.

(* ================================================================== *)
(** * Validity flag of cleaned tracks *)
(* ================================================================== *)

Section ValidityFlag.
Context {runtime : JsRuntime}.

Lemma transformItem_valid item position t :
  transformItem item position = Returned t -> valid_iff_certain t.
Proof.
  unfold transformItem, valid_iff_certain.
  intros Ht. repeat case_match; simplify_eq; reflexivity.
Qed.

Lemma transformItems_valid items :
  forall position ts,
    transformItems items position = Returned ts ->
    Forall valid_iff_certain ts.
Proof.
  induction items as [|item rest IH]; intros position ts Hts; simpl in Hts.
  - simplify_eq. constructor.
  - destruct (transformItem item position) as [t|e] eqn:Ht; [|discriminate].
    destruct (transformItems rest (S position)) as [ts'|e] eqn:Hrest; [|discriminate].
    simplify_eq. constructor; eauto using transformItem_valid.
Qed.

End ValidityFlag.

Lemma skipLLMCleanup_flags rawTracks t :
  In t (skipLLMCleanup rawTracks) ->
  certainty t = 0.3%float /\ isValid t = true.
Proof.
  unfold skipLLMCleanup. rewrite in_map_iff.
  intros (raw & <- & _). split; reflexivity.
Qed.

(** C4, as the code has it: every track that
    [LLMService.validateAndTransform] returns has
    [isValid = (certainty >= 0.5)]; every track of the handler's skip-LLM
    conversion has certainty 0.3 and [isValid = true]. *)
Theorem validity_flag_by_path {runtime : JsRuntime} :
  (forall rawResponse ts t,
     validateAndTransform rawResponse = Returned ts ->
     In t ts -> valid_iff_certain t) /\
  (forall rawTracks t,
     In t (skipLLMCleanup rawTracks) ->
     certainty t = 0.3%float /\ isValid t = true).
Proof.
  split.
  - intros rawResponse ts t Hret Hin.
    destruct rawResponse; simpl in Hret; try discriminate.
    apply transformItems_valid in Hret.
    rewrite Forall_forall in Hret. apply Hret.
    by apply list_elem_of_In.
  - apply skipLLMCleanup_flags.
Qed.

Lemma validity_flag_by_path_witness :
  (exists t, validateAndTransform (runtime := plain_runtime) llm_reply = Returned [t]
             /\ valid_iff_certain t) /\
  (certainty (rawToCleaned raw_one) = 0.3%float /\
   isValid (rawToCleaned raw_one) = true).
Proof.
  destruct (validity_flag_by_path (runtime := plain_runtime)) as [Hllm Hskip].
  split.
  - eexists. split; [reflexivity|].
    eapply (Hllm llm_reply); [reflexivity | left; reflexivity].
  - apply (Hskip [raw_one]). left. reflexivity.
Defined.

(** C4 as stated fails on the skip-LLM path: the track made from a raw
    track is flagged valid although its certainty, 0.3, is below 0.5. *)
Lemma skipLLM_track_valid_but_uncertain :
  In (rawToCleaned raw_one) (skipLLMCleanup [raw_one]) /\
  ~ valid_iff_certain (rawToCleaned raw_one).
Proof.
  split; [left; reflexivity|].
  unfold valid_iff_certain. vm_compute. discriminate.
Qed.

(* ================================================================== *)
(** * [calculateSummary] without any found result *)
(* ================================================================== *)

Lemma filter_found_none (results : list TrackSearchResult) :
  (forall r, In r results -> found r = false) ->
  filter (fun r => found r = true) results = [].
Proof.
  induction results as [|r rest IH]; intros Hall; [reflexivity|].
  rewrite filter_cons. destruct (decide (found r = true)) as [Hf|_].
  - rewrite (Hall r) in Hf by (left; reflexivity). discriminate.
  - apply IH. intros r' Hr'. apply Hall. right. exact Hr'.
Qed.

(** C10: when no result is found, [calculateSummary] reports the average
    quality ['unknown'] and a count of 0 for each of notslider,
    soundcloud and youtube. *)
Theorem calculateSummary_nothing_found results processingTime :
  (forall r, In r results -> found r = false) ->
  averageQuality (calculateSummary results processingTime) = Qunknown /\
  notslider (sourcesUsed (calculateSummary results processingTime)) = 0%nat /\
  soundcloud (sourcesUsed (calculateSummary results processingTime)) = 0%nat /\
  youtube (sourcesUsed (calculateSummary results processingTime)) = 0%nat.
Proof.
  intros Hall. unfold calculateSummary.
  rewrite (filter_found_none results Hall). simpl. auto.
Qed.

Lemma calculateSummary_nothing_found_witness :
  averageQuality (calculateSummary results_all_failed 4200) = Qunknown /\
  notslider (sourcesUsed (calculateSummary results_all_failed 4200)) = 0%nat /\
  soundcloud (sourcesUsed (calculateSummary results_all_failed 4200)) = 0%nat /\
  youtube (sourcesUsed (calculateSummary results_all_failed 4200)) = 0%nat.
Proof.
  apply (calculateSummary_nothing_found results_all_failed 4200).
  intros r Hr. simpl in Hr.
  destruct Hr as [<-|[<-|[<-|[]]]]; reflexivity.
Defined.

(* ================================================================== *)
(** * The coordinator against fake collaborators *)
(* ================================================================== *)

(** What a run against fakes does, by the answers of the fakes. *)
Lemma run_fakes_searchSingleTrack (fakes : Fakes) t :
  run_fakes fakes (searchSingleTrack_fakes t) =
  match fakes NotSlider t with
  | Threw e =>
      ([Throttled "notslider"; Searched NotSlider t],
       Returned (not_found t ("Search failed: " +:+ error_message e)))
  | Returned n =>
      if found n
      then ([Throttled "notslider"; Searched NotSlider t], Returned n)
      else
        match fakes SoundCloud t with
        | Threw e =>
            ([Throttled "notslider"; Searched NotSlider t;
              Throttled "soundcloud"; Searched SoundCloud t],
             Returned (not_found t ("Search failed: " +:+ error_message e)))
        | Returned s =>
            if found s
            then ([Throttled "notslider"; Searched NotSlider t;
                   Throttled "soundcloud"; Searched SoundCloud t], Returned s)
            else
              match fakes YouTubeDl t with
              | Threw e =>
                  ([Throttled "notslider"; Searched NotSlider t;
                    Throttled "soundcloud"; Searched SoundCloud t;
                    Searched YouTubeDl t],
                   Returned (not_found t ("Search failed: " +:+ error_message e)))
              | Returned y =>
                  ([Throttled "notslider"; Searched NotSlider t;
                    Throttled "soundcloud"; Searched SoundCloud t;
                    Searched YouTubeDl t],
                   Returned (if found y then y
                             else not_found t (all_failed_message n s y)))
              end
        end
  end.
Proof.
  unfold searchSingleTrack_fakes, searchSingleTrack. simpl.
  destruct (fakes NotSlider t) as [n|e]; simpl; [|reflexivity].
  destruct (found n); simpl; [reflexivity|].
  destruct (fakes SoundCloud t) as [s|e]; simpl; [|reflexivity].
  destruct (found s); simpl; [reflexivity|].
  destruct (fakes YouTubeDl t) as [y|e]; simpl; [|reflexivity].
  destruct (found y); reflexivity.
Qed.

(** The logs that a run can leave are short; a position in one of them is
    found by cases. *)
Ltac log_cases i :=
  repeat (destruct i as [|i]; simpl in *; simplify_eq; eauto).

(** C2, as the code has it: in every run of [searchSingleTrack],
    [throttle('notslider')] is called right before the NotSlider attempt
    and [throttle('soundcloud')] right before the SoundCloud attempt; the
    YouTube-dl attempt comes right after the SoundCloud attempt, with no
    call of [throttle] in between, and [throttle] is called with no other
    identifier. *)
Theorem throttle_before_notslider_and_soundcloud (fakes : Fakes) t :
  (forall (i : nat) p t',
     fst (run_fakes fakes (searchSingleTrack_fakes t)) !! i = Some (Searched p t') ->
     exists j : nat,
       i = S j /\
       fst (run_fakes fakes (searchSingleTrack_fakes t)) !! j =
       Some (match p with
             | NotSlider => Throttled "notslider"
             | SoundCloud => Throttled "soundcloud"
             | YouTubeDl => Searched SoundCloud t
             end)) /\
  (forall (i : nat) service,
     fst (run_fakes fakes (searchSingleTrack_fakes t)) !! i = Some (Throttled service) ->
     service = "notslider" \/ service = "soundcloud").
Proof.
  rewrite run_fakes_searchSingleTrack.
  split.
  - intros i p t' Hi.
    destruct (fakes NotSlider t) as [n|e]; [destruct (found n)|];
      [| destruct (fakes SoundCloud t) as [s|e]; [destruct (found s)|] |];
      [| | destruct (fakes YouTubeDl t) as [y|e] | |];
      simpl in Hi; log_cases i.
  - intros i service Hi.
    destruct (fakes NotSlider t) as [n|e]; [destruct (found n)|];
      [| destruct (fakes SoundCloud t) as [s|e]; [destruct (found s)|] |];
      [| | destruct (fakes YouTubeDl t) as [y|e] | |];
      simpl in Hi; log_cases i.
Qed.

Lemma throttle_before_notslider_and_soundcloud_witness :
  exists j : nat,
    4%nat = S j /\
    fst (run_fakes fakes_all_fail (searchSingleTrack_fakes track_glue)) !! j =
    Some (Searched SoundCloud track_glue).
Proof.
  destruct (throttle_before_notslider_and_soundcloud fakes_all_fail track_glue)
    as [Hbefore _].
  apply (Hbefore 4%nat YouTubeDl track_glue). reflexivity.
Defined.

(** C2 as stated fails: when the first two providers do not find the
    track, the YouTube-dl attempt is made without a call of [throttle]
    before it. *)
Lemma youtubeDl_attempt_not_throttled :
  ~ throttled_before_each_attempt
      (fst (run_fakes fakes_all_fail (searchSingleTrack_fakes track_glue))).
Proof.
  intros Hclaim.
  destruct (Hclaim 4%nat YouTubeDl track_glue eq_refl) as (j & Hj & Hcall).
  injection Hj as <-. vm_compute in Hcall. discriminate.
Qed.

(** C8: if a provider that was tried returns a found result, the
    coordinator returns that very result, and no provider after it in the
    priority order is called. *)
Theorem first_found_wins (fakes : Fakes) t p r :
  In (Searched p t) (fst (run_fakes fakes (searchSingleTrack_fakes t))) ->
  fakes p t = Returned r ->
  found r = true ->
  snd (run_fakes fakes (searchSingleTrack_fakes t)) = Returned r /\
  forall q t', (priority p < priority q)%nat ->
    ~ In (Searched q t') (fst (run_fakes fakes (searchSingleTrack_fakes t))).
Proof.
  rewrite run_fakes_searchSingleTrack.
  intros Hin Hp Hfound.
  destruct (fakes NotSlider t) as [n|e] eqn:Hn.
  2:{ simpl in Hin. destruct Hin as [|[Hin|[]]]; simplify_eq; congruence. }
  destruct (found n) eqn:Hfn.
  { simpl in Hin. destruct Hin as [|[Hin|[]]]; simplify_eq.
    assert (r = n) as -> by congruence.
    split; [reflexivity|].
    intros q t' Hlt [|[Hq|[]]]; simplify_eq. simpl in Hlt. lia. }
  destruct (fakes SoundCloud t) as [s|e] eqn:Hs.
  2:{ simpl in Hin. destruct Hin as [|[Hin|[|[Hin|[]]]]]; simplify_eq; congruence. }
  destruct (found s) eqn:Hfs.
  { simpl in Hin. destruct Hin as [|[Hin|[|[Hin|[]]]]]; simplify_eq;
      [congruence|].
    assert (r = s) as -> by congruence.
    split; [reflexivity|].
    intros q t' Hlt [|[Hq|[|[Hq|[]]]]]; simplify_eq; simpl in Hlt; lia. }
  destruct (fakes YouTubeDl t) as [y|e] eqn:Hy;
    simpl in Hin; destruct Hin as [|[Hin|[|[Hin|[Hin|[]]]]]]; simplify_eq;
    try congruence.
  assert (r = y) as -> by congruence.
  simpl. rewrite Hfound. split; [reflexivity|].
  intros q t' Hlt. destruct q; simpl in Hlt; lia.
Qed.

Lemma first_found_wins_witness :
  snd (run_fakes fakes_second_finds (searchSingleTrack_fakes track_glue))
  = fakes_second_finds SoundCloud track_glue /\
  forall q t', (priority SoundCloud < priority q)%nat ->
    ~ In (Searched q t')
        (fst (run_fakes fakes_second_finds (searchSingleTrack_fakes track_glue))).
Proof.
  eapply (first_found_wins fakes_second_finds track_glue SoundCloud).
  - right. right. right. left. reflexivity.
  - reflexivity.
  - reflexivity.
Defined.

(** ** Substrings *)

Lemma append_cons x (a b : string) : String x a +:+ b = String x (a +:+ b).
Proof. reflexivity. Qed.

Lemma append_assoc (a b c : string) : (a +:+ b) +:+ c = a +:+ (b +:+ c).
Proof.
  induction a as [|x a IH]; [reflexivity|].
  rewrite !append_cons, IH. reflexivity.
Qed.

Lemma append_nil_r (a : string) : a +:+ "" = a.
Proof.
  induction a as [|x a IH]; [reflexivity|].
  rewrite append_cons, IH. reflexivity.
Qed.

Lemma prefix_append s rest : String.prefix s (s +:+ rest) = true.
Proof.
  induction s as [|c s IH].
  - destruct rest; reflexivity.
  - rewrite append_cons. simpl.
    destruct (ascii_dec c c); [exact IH | congruence].
Qed.

Lemma includes_unfold needle haystack :
  includes needle haystack =
  (String.prefix needle haystack ||
   match haystack with
   | EmptyString => false
   | String _ rest => includes needle rest
   end)%bool.
Proof. destruct haystack; reflexivity. Qed.

Lemma includes_append needle before after :
  includes needle (before +:+ needle +:+ after) = true.
Proof.
  induction before as [|c before IH].
  - rewrite includes_unfold.
    change ("" +:+ needle +:+ after) with (needle +:+ after).
    rewrite prefix_append. reflexivity.
  - rewrite append_cons, includes_unfold, IH. apply orb_true_r.
Qed.

Lemma all_failed_message_includes n s y r e :
  In r [n; s; y] -> error r = Some e ->
  includes e (all_failed_message n s y) = true.
Proof.
  unfold all_failed_message.
  intros [<-|[<-|[<-|[]]]] Herr.
  - rewrite Herr. simpl template.
    apply (includes_append e "Not found on any source. NotSlider: ").
  - rewrite Herr. simpl template.
    pose proof (includes_append e
      ("Not found on any source. NotSlider: " +:+ template (error n)
       +:+ ", SoundCloud: ")
      (", YouTube-dl: " +:+ template (error y))) as Hinc.
    rewrite !append_assoc in Hinc. exact Hinc.
  - rewrite Herr. simpl template.
    pose proof (includes_append e
      ("Not found on any source. NotSlider: " +:+ template (error n)
       +:+ ", SoundCloud: " +:+ template (error s) +:+ ", YouTube-dl: ") "")
      as Hinc.
    rewrite !append_assoc, append_nil_r in Hinc. exact Hinc.
Qed.

(** C9: if all three providers return a not-found result, the coordinator
    returns one not-found result for the track, and every provider's
    error string is a substring of its error. *)
Theorem all_failed_error_names_each_provider (fakes : Fakes) t n s y :
  fakes NotSlider t = Returned n ->
  fakes SoundCloud t = Returned s ->
  fakes YouTubeDl t = Returned y ->
  found n = false -> found s = false -> found y = false ->
  exists message,
    snd (run_fakes fakes (searchSingleTrack_fakes t))
    = Returned (not_found t message) /\
    forall r e, In r [n; s; y] -> error r = Some e ->
      includes e message = true.
Proof.
  intros Hn Hs Hy Hfn Hfs Hfy.
  rewrite run_fakes_searchSingleTrack, Hn, Hfn, Hs, Hfs, Hy, Hfy. simpl.
  exists (all_failed_message n s y). split; [reflexivity|].
  apply all_failed_message_includes.
Qed.

Lemma all_failed_error_names_each_provider_witness :
  exists message,
    snd (run_fakes fakes_all_fail (searchSingleTrack_fakes track_glue))
    = Returned (not_found track_glue message) /\
    forall r e,
      In r [fakes_all_fail_result NotSlider; fakes_all_fail_result SoundCloud;
            fakes_all_fail_result YouTubeDl] ->
      error r = Some e -> includes e message = true.
Proof.
  apply (all_failed_error_names_each_provider fakes_all_fail track_glue);
    reflexivity.
Defined.

(* ================================================================== *)
(** * Running one task alone *)
(* ================================================================== *)

Lemma run_alone_bind {A B} net w (p : Async SysE A) (f : A -> Async SysE B) :
  run_alone net w (bind p f) =
  match run_alone net w p with
  | (w', Returned r) => run_alone net w' (f r)
  | (w', Threw e) => (w', Threw e)
  end.
Proof.
  revert w. induction p as [r|e|X ev k IH]; intros w; simpl; try reflexivity.
  destruct (perform net ev w) as [w' [x|wake x]]; apply IH.
Qed.

Lemma run_alone_try_catch {R} net w (p : Async SysE R) h :
  run_alone net w (try_catch p h) =
  match run_alone net w p with
  | (w', Returned r) => (w', Returned r)
  | (w', Threw e) => run_alone net w' (h e)
  end.
Proof.
  revert w. induction p as [r|e|X ev k IH]; intros w; simpl; try reflexivity.
  destruct (perform net ev w) as [w' [x|wake x]]; apply IH.
Qed.

Lemma run_alone_fetch net w rq :
  run_alone net w (settle (Fetch rq)) =
  (answered net w rq, outcome (net (sent w))).
Proof.
  unfold settle, answered. simpl.
  replace (Z.max (clock w) (clock w + Z.max 0 (latency (net (sent w)))))
    with (clock w + Z.max 0 (latency (net (sent w)))) by lia.
  destruct (outcome (net (sent w))); reflexivity.
Qed.

Lemma run_alone_delay net w ms :
  run_alone net w (delay ms) = (waited w ms, Returned tt).
Proof.
  unfold delay, trigger, waited. simpl.
  replace (Z.max (clock w) (clock w + Z.max 0 ms))
    with (clock w + Z.max 0 ms) by lia.
  reflexivity.
Qed.

(* ================================================================== *)
(** * The retry loop of [NotSliderService.search] *)
(* ================================================================== *)

Section RetryPolicy.
Context {runtime : JsRuntime} {cheerio : Cheerio}.
Variable config : WorkerConfig.
Variable net : Net.

Lemma run_alone_followRedirect w u :
  run_alone net w (followRedirect u) =
  (answered net w {| method := HEAD; href := u |},
   Returned (redirected u (outcome (net (sent w))))).
Proof.
  unfold followRedirect, mbind, Async_bind.
  rewrite run_alone_try_catch, run_alone_bind, run_alone_fetch.
  destruct (outcome (net (sent w))); reflexivity.
Qed.

(** One attempt whose query [encodeURIComponent] refuses: the exception
    is raised before any request is sent. *)
Lemma run_alone_attempt_unescaped w t attempt message :
  encodeURIComponent (artist t +:+ " - " +:+ title t) = URIError message ->
  run_alone net w
    (try_catch (attempt_body config t (artist t +:+ " - " +:+ title t))
       (attempt_catch t attempt)) =
  if (attempt =? retryAttempts - 1)%nat
  then (w, Returned (Some (not_found t ("Search failed after 2 attempts: "
                                        +:+ message))))
  else (waited w (1000 * 2 ^ Z.of_nat attempt), Returned None).
Proof.
  intros Hquery. unfold attempt_body, attempt_catch, mbind, Async_bind.
  rewrite Hquery. change (retryAttempts - 1)%nat with 1%nat.
  cbn [try_catch].
  destruct (attempt =? 1)%nat; [reflexivity|].
  rewrite run_alone_bind, run_alone_delay. reflexivity.
Qed.

(** One attempt, by the way it ends. *)
Lemma run_alone_attempt w t attempt encoded :
  encodeURIComponent (artist t +:+ " - " +:+ title t) = Encoded_as encoded ->
  run_alone net w
    (try_catch (attempt_body config t (artist t +:+ " - " +:+ title t))
       (attempt_catch t attempt)) =
  match attempt_result config (artist t +:+ " - " +:+ title t)
          (outcome (net (sent w))) with
  | Raised e =>
      if (attempt =? retryAttempts - 1)%nat
      then (answered net w (search_request config encoded),
            Returned (Some (not_found t
                              ("Search failed after 2 attempts: "
                               +:+ error_message e))))
      else (waited (answered net w (search_request config encoded))
              (1000 * 2 ^ Z.of_nat attempt),
            Returned None)
  | Missed => (answered net w (search_request config encoded), Returned None)
  | Hit u =>
      (answered net (answered net w (search_request config encoded))
         {| method := HEAD; href := u |},
       Returned (Some (found_on_notslider t
                         (redirected u (outcome (net (S (sent w))))))))
  end.
Proof.
  intros Hquery.
  unfold attempt_body, attempt_catch, attempt_result, mbind, Async_bind.
  rewrite Hquery.
  change (retryAttempts - 1)%nat with 1%nat.
  rewrite run_alone_try_catch, run_alone_bind, run_alone_fetch.
  fold (search_request config encoded).
  destruct (outcome (net (sent w))) as [response|e].
  2:{ destruct (attempt =? 1)%nat; [reflexivity|].
      rewrite run_alone_bind, run_alone_delay. reflexivity. }
  destruct (ok response); cbn [negb run_alone].
  2:{
      destruct (attempt =? 1)%nat; [reflexivity|].
      rewrite run_alone_bind, run_alone_delay. reflexivity. }
  rewrite run_alone_bind.
  destruct (text response) as [html|e]; cbn [run_alone].
  2:{ destruct (attempt =? 1)%nat; [reflexivity|].
      rewrite run_alone_bind, run_alone_delay. reflexivity. }
  destruct (extractDownloadUrl config html _) as [u|]; [|reflexivity].
  destruct (truthy u); [|reflexivity].
  rewrite run_alone_bind, run_alone_followRedirect. reflexivity.
Qed.

(** One turn of the loop: a hit returns, a miss goes on to the next
    attempt at once, an exception goes on after [1000 * 2^attempt]
    milliseconds unless the attempt was the last. *)
Lemma run_alone_search_from w t remaining attempt encoded :
  encodeURIComponent (artist t +:+ " - " +:+ title t) = Encoded_as encoded ->
  run_alone net w
    (search_from config (S remaining) attempt t (artist t +:+ " - " +:+ title t)) =
  match attempt_result config (artist t +:+ " - " +:+ title t)
          (outcome (net (sent w))) with
  | Raised e =>
      if (attempt =? retryAttempts - 1)%nat
      then (answered net w (search_request config encoded),
            Returned (not_found t ("Search failed after 2 attempts: "
                                   +:+ error_message e)))
      else run_alone net
             (waited (answered net w (search_request config encoded))
                (1000 * 2 ^ Z.of_nat attempt))
             (search_from config remaining (S attempt) t
                (artist t +:+ " - " +:+ title t))
  | Missed =>
      run_alone net (answered net w (search_request config encoded))
        (search_from config remaining (S attempt) t
           (artist t +:+ " - " +:+ title t))
  | Hit u =>
      (answered net (answered net w (search_request config encoded))
         {| method := HEAD; href := u |},
       Returned (found_on_notslider t
                   (redirected u (outcome (net (S (sent w)))))))
  end.
Proof.
  intros Hquery.
  cbn [search_from]. unfold mbind, Async_bind.
  rewrite run_alone_bind, (run_alone_attempt w t attempt encoded Hquery).
  destruct (attempt_result _ _ _) as [e| |u]; try reflexivity.
  destruct (attempt =? retryAttempts - 1)%nat; reflexivity.
Qed.

(** The whole search for a query that [encodeURIComponent] refuses: one
    timer, no request. *)
Lemma run_alone_search_unescaped w t message :
  encodeURIComponent (artist t +:+ " - " +:+ title t) = URIError message ->
  run_alone net w (NotSliderService_search config t) =
  (waited w (1000 * 2 ^ 0),
   Returned (not_found t ("Search failed after 2 attempts: " +:+ message))).
Proof.
  intros Hquery. unfold NotSliderService_search. change retryAttempts with 2%nat.
  cbn [search_from]. unfold mbind, Async_bind.
  rewrite run_alone_bind, (run_alone_attempt_unescaped w t 0 message Hquery).
  change (0 =? retryAttempts - 1)%nat with false. cbv iota.
  rewrite run_alone_bind, (run_alone_attempt_unescaped _ t 1 message Hquery).
  reflexivity.
Qed.

End RetryPolicy.

Section RetryTheorem.
Context {runtime : JsRuntime} {cheerio : Cheerio}.
Variable config : WorkerConfig.
Variable net : Net.

(** C5, as the code has it.  In [NotSliderService.search], with its two
    attempts, an attempt raises an error when [encodeURIComponent]
    refuses the query, before any request is sent, or when [fetch], the
    status check or the reading of the body fails.

    When [encodeURIComponent] refuses the query, both attempts raise
    that error: the search sends no request, waits [1000 * 2^0] ms once,
    and the result is not-found with the error
    ["Search failed after 2 attempts: "] and the message of the error.

    Otherwise: when the first attempt raises an error, the resolver waits
    [1000 * 2^0] ms and then sends the second search request; when the
    first attempt ends without a candidate and without an error, the
    second search request is sent at once and no timer is armed in the
    whole search.  When neither attempt finds a candidate, the result is
    not-found: with the error ["Search failed after 2 attempts: "] and
    the message of the exception if the second attempt raised one, and
    with the error ["No 320kbps MP3 found"] if it did not. *)
Theorem search_backs_off_after_errors_only w t :
  let query := artist t +:+ " - " +:+ title t in
  let run := run_alone net w (NotSliderService_search config t) in
  (forall message,
     encodeURIComponent query = URIError message ->
     observed (fst run) = observed w ++ [(clock w, OTimer (1000 * 2 ^ 0))] /\
     sent (fst run) = sent w /\
     snd run = Returned (not_found t ("Search failed after 2 attempts: "
                                      +:+ message))) /\
  (forall encoded,
     encodeURIComponent query = Encoded_as encoded ->
     let rq := ORequest (search_request config encoded) in
     let arrival := clock w + Z.max 0 (latency (net (sent w))) in
     let first := attempt_result config query (outcome (net (sent w))) in
     let second := attempt_result config query (outcome (net (S (sent w)))) in
     (forall e, first = Raised e ->
        exists rest,
          observed (fst run) =
          observed w ++ (clock w, rq) :: (arrival, OTimer (1000 * 2 ^ 0))
                     :: (arrival + 1000, rq) :: rest) /\
     (first = Missed ->
        exists rest,
          observed (fst run) = observed w ++ (clock w, rq) :: (arrival, rq) :: rest /\
          forall tm ms, ~ In (tm, OTimer ms) rest) /\
     ((forall u, first <> Hit u) ->
      forall e, second = Raised e ->
        snd run = Returned (not_found t ("Search failed after 2 attempts: "
                                         +:+ error_message e))) /\
     ((forall u, first <> Hit u) ->
      second = Missed ->
      snd run = Returned (not_found t "No 320kbps MP3 found"))).
Proof.
  intros query run. split.
  { intros message Hquery. subst run.
    rewrite (run_alone_search_unescaped config net w t message Hquery).
    repeat split. }
  intros encoded Hquery rq arrival first second.
  subst run. unfold NotSliderService_search.
  change retryAttempts with 2%nat.
  rewrite (run_alone_search_from config net w t 1 0 encoded Hquery).
  fold query. fold first.
  change (0 =? retryAttempts - 1)%nat with false. cbv iota.
  change (1000 * 2 ^ Z.of_nat 0) with 1000.
  repeat split.
  - intros e ->.
    rewrite (run_alone_search_from config net _ t 0 1 encoded Hquery). fold query.
    change (sent (waited (answered net w (search_request config encoded)) 1000))
      with (S (sent w)).
    fold second.
    change (1 =? retryAttempts - 1)%nat with true. cbv iota.
    destruct second as [e'| |u]; cbn [fst run_alone search_from];
      eexists; cbn [observed answered waited clock];
      rewrite <- !app_assoc; cbn [app];
      change (Z.max 0 1000) with 1000; reflexivity.
  - intros ->.
    rewrite (run_alone_search_from config net _ t 0 1 encoded Hquery). fold query.
    change (sent (answered net w (search_request config encoded))) with (S (sent w)).
    fold second.
    change (1 =? retryAttempts - 1)%nat with true. cbv iota.
    destruct second as [e'| |u]; cbn [fst run_alone search_from];
      eexists; cbn [observed answered waited clock];
      (split; [rewrite <- !app_assoc; cbn [app]; reflexivity|]);
      intros tm ms; simpl; intuition discriminate.
  - intros Hnohit e Hsecond.
    destruct first as [e0| |u]; [| |destruct (Hnohit u eq_refl)];
      rewrite (run_alone_search_from config net _ t 0 1 encoded Hquery); fold query;
      cbn [sent waited answered]; fold second; rewrite Hsecond;
      reflexivity.
  - intros Hnohit Hsecond.
    destruct first as [e0| |u]; [| |destruct (Hnohit u eq_refl)];
      rewrite (run_alone_search_from config net _ t 0 1 encoded Hquery); fold query;
      cbn [sent waited answered]; fold second; rewrite Hsecond;
      reflexivity.
Qed.

End RetryTheorem.

Lemma search_backs_off_after_errors_only_witness :
  (exists rest,
     observed (fst (glue_search_alone net_error_first)) =
     [] ++ (1700000000000, ORequest glue_request)
        :: (1700000000020, OTimer (1000 * 2 ^ 0))
        :: (1700000001020, ORequest glue_request) :: rest) /\
  snd (glue_search_alone net_empty_pages)
  = Returned (not_found track_glue "No 320kbps MP3 found") /\
  observed (fst (run_alone net_empty_pages fresh_world
                   (NotSliderService_search
                      (runtime := strict_runtime) (cheerio := plain_cheerio)
                      default_config track_lone_surrogate)))
  = [] ++ [(1700000000000, OTimer (1000 * 2 ^ 0))].
Proof.
  destruct (search_backs_off_after_errors_only
              (runtime := plain_runtime) (cheerio := plain_cheerio)
              default_config net_error_first fresh_world track_glue)
    as (_ & Hsent).
  destruct (Hsent "Bicep - Glue" eq_refl) as (Herror & _).
  destruct (search_backs_off_after_errors_only
              (runtime := plain_runtime) (cheerio := plain_cheerio)
              default_config net_empty_pages fresh_world track_glue)
    as (_ & Hsent').
  destruct (Hsent' "Bicep - Glue" eq_refl) as (_ & _ & _ & Hmissed).
  destruct (search_backs_off_after_errors_only
              (runtime := strict_runtime) (cheerio := plain_cheerio)
              default_config net_empty_pages fresh_world track_lone_surrogate)
    as (Hrefused & _).
  destruct (Hrefused "URI malformed" eq_refl) as (Htimer & _).
  split; [|split].
  - apply (Herror (JsError "HTTP 503: Service Unavailable")). reflexivity.
  - apply Hmissed; [intros u; vm_compute; discriminate | reflexivity].
  - exact Htimer.
Defined.

(** C5 as stated fails: when the page of the first attempt holds no
    candidate, the second search request follows 50 ms after the first,
    when the page has arrived, and no timer is armed in between. *)
Lemma no_backoff_after_a_page_without_candidate :
  observed (fst (glue_search_alone net_empty_pages)) =
  [ (1700000000000, ORequest glue_request);
    (1700000000050, ORequest glue_request) ] /\
  ~ backs_off_between_attempts
      (observed (fst (glue_search_alone net_empty_pages))).
Proof.
  split; [vm_compute; reflexivity|].
  intros Hclaim.
  destruct (Hclaim 0%nat 1%nat 1700000000000 1700000000050
              (href glue_request) (href glue_request))
    as (k & attempt & tk & Hk & _);
    [lia | vm_compute; reflexivity | vm_compute; reflexivity | lia].
Qed.

(* ================================================================== *)
(** * [RateLimiter.throttle] under concurrent callers *)
(* ================================================================== *)

Lemma run_alone_throttle net w service limit :
  limits !! service = Some limit ->
  run_alone net w (throttle service) = (let_through w service limit, Returned tt).
Proof.
  intros Hlimit. unfold throttle, limits_get, let_through. rewrite Hlimit. simpl.
  destruct (clock w - default 0 (lastRequest w !! service) <? delayMs limit);
    simpl; [|reflexivity].
  replace (Z.max (clock w)
             (clock w + Z.max 0 (delayMs limit
                                 - (clock w - default 0 (lastRequest w !! service)))))
    with (clock w + Z.max 0 (delayMs limit
                             - (clock w - default 0 (lastRequest w !! service))))
    by lia.
  reflexivity.
Qed.

Lemma dispatches_app service obs obs' :
  dispatches service (obs ++ obs') =
  dispatches service obs ++ dispatches service obs'.
Proof.
  induction obs as [|[t o] obs IH]; [reflexivity|].
  simpl. destruct o; try exact IH.
  destruct (String.eqb service0 service); simpl; congruence.
Qed.

Lemma dispatches_let_through w service limit :
  dispatches service (observed (let_through w service limit)) =
  dispatches service (observed w) ++ [clock (let_through w service limit)].
Proof.
  unfold let_through.
  destruct (clock w - default 0 (lastRequest w !! service) <? delayMs limit);
    cbn [observed clock waited];
    rewrite !dispatches_app; simpl; rewrite String.eqb_refl;
    rewrite ?app_nil_r; reflexivity.
Qed.

(** One caller after the other is held back as intended: two calls of
    [throttle] for a service, the second made when the first has
    returned, are let through at least [delayMs] apart. *)
Lemma throttle_in_sequence_keeps_interval net w service limit :
  limits !! service = Some limit ->
  exists w1 w2 first second,
    run_alone net w (throttle service) = (w1, Returned tt) /\
    run_alone net w1 (throttle service) = (w2, Returned tt) /\
    dispatches service (observed w2) =
      dispatches service (observed w) ++ [first; second] /\
    delayMs limit <= second - first.
Proof.
  intros Hlimit.
  exists (let_through w service limit),
         (let_through (let_through w service limit) service limit),
         (clock (let_through w service limit)),
         (clock (let_through (let_through w service limit) service limit)).
  split; [apply run_alone_throttle, Hlimit|].
  split; [apply run_alone_throttle, Hlimit|].
  split.
  - rewrite !dispatches_let_through, <- app_assoc. reflexivity.
  - set (w1 := let_through w service limit).
    assert (lastRequest w1 !! service = Some (clock w1)) as Hlast.
    { unfold w1, let_through. cbn [lastRequest]. apply lookup_insert_eq. }
    unfold let_through at 1. rewrite Hlast.
    change (default 0 (Some (clock w1))) with (clock w1).
    destruct (Z.ltb_spec (clock w1 - clock w1) (delayMs limit));
      cbn [clock waited]; lia.
Qed.

(** C3 fails on the code.  Three callers of [throttle('notslider')] at
    once: the first passes at once; the second and the third both read
    the time stamp of the first, both sleep one second, and both pass at
    the same millisecond.  The read of [lastRequest] and its update are
    separated by the [await], and nothing serializes the callers. *)
Theorem throttle_lets_two_callers_through_together :
  exists w,
    three_throttles = Some (w, Returned [tt; tt; tt]) /\
    dispatches "notslider" (observed w) =
      [1700000000000; 1700000001000; 1700000001000] /\
    ~ spaced 1000 (dispatches "notslider" (observed w)).
Proof.
  eexists. split; [vm_compute; reflexivity|].
  split; [vm_compute; reflexivity|].
  intros Hspaced.
  specialize (Hspaced 1%nat 2%nat 1700000001000 1700000001000).
  vm_compute in Hspaced.
  apply Hspaced; reflexivity.
Qed.

(** The same in the handler: with three tracks and the default
    concurrency of 3, the search requests of the second and the third
    track leave together, one second after the first. *)
Example waterfall_sends_two_requests_together :
  exists w results,
    scenario_waterfall default_config net_mixed 40
      [track_glue; track_opal; track_atlas] = Some (w, Returned results) /\
    firstn 3 (search_requests (observed w)) =
      [1700000000000; 1700000001000; 1700000001000].
Proof.
  eexists. eexists. split; vm_compute; reflexivity.
Qed.

(* ================================================================== *)
(** * What every run of a function ensures *)
(* ================================================================== *)

Section Ensures.
Variable good : Outcome Response -> Prop.

Lemma ensures_weaken {R} (P P' : R -> Prop) (Q Q' : Thrown -> Prop) p :
  (forall r, P r -> P' r) -> (forall e, Q e -> Q' e) ->
  ensures good P Q p -> ensures good P' Q' p.
Proof.
  intros HP HQ. induction p as [r|e|X ev k IH]; simpl; eauto.
Qed.

Lemma ensures_bind {A B} (P' : A -> Prop) (P : B -> Prop) Q p f :
  ensures good P' Q p ->
  (forall r, P' r -> ensures good P Q (f r)) ->
  ensures good P Q (bind p f).
Proof.
  intros Hp Hf. induction p as [r|e|X ev k IH]; simpl in *; eauto.
Qed.

Lemma ensures_try_catch {R} (P : R -> Prop) Q' Q p h :
  ensures good P Q' p ->
  (forall e, Q' e -> ensures good P Q (h e)) ->
  ensures good P Q (try_catch p h).
Proof.
  intros Hp Hh. induction p as [r|e|X ev k IH]; simpl in *; eauto.
Qed.

Lemma ensures_any_throw {R} (P : R -> Prop) Q p :
  ensures good P (fun _ => False) p -> ensures good P Q p.
Proof. apply ensures_weaken; [auto | intros e []]. Qed.

Lemma bounded_mono {E R} n m (p : Async E R) :
  (n <= m)%nat -> bounded n p -> bounded m p.
Proof.
  revert n m. induction p as [r|e|X ev k IH]; intros n m Hle Hb; simpl in *; auto.
  destruct n as [|n]; [destruct Hb|].
  destruct m as [|m]; [lia|].
  intros x. apply (IH x n m); [lia | apply Hb].
Qed.

Lemma bounded_bind {E A B} n m (p : Async E A) (f : A -> Async E B) :
  bounded n p -> (forall r, bounded m (f r)) -> bounded (n + m) (bind p f).
Proof.
  revert n. induction p as [r|e|X ev k IH]; intros n Hp Hf; simpl in *; auto.
  - apply (bounded_mono m); [lia | apply Hf].
  - destruct n as [|n]; [destruct Hp|]. simpl. intros x. apply IH; auto.
Qed.

Lemma bounded_try_catch {E R} n m (p : Async E R) h :
  bounded n p -> (forall e, bounded m (h e)) -> bounded (n + m) (try_catch p h).
Proof.
  revert n. induction p as [r|e|X ev k IH]; intros n Hp Hh; simpl in *; auto.
  - apply (bounded_mono m); [lia | apply Hh].
  - destruct n as [|n]; [destruct Hp|]. simpl. intros x. apply IH; auto.
Qed.

(** ** The rate limiter *)

Lemma throttle_ensures service :
  ensures good (fun _ => True) (fun _ => False) (throttle service).
Proof.
  unfold throttle.
  destruct (limits_get service) as [limit| |]; simpl; [| |exact I];
    intros stored _ now _; [|simpl; auto].
  destruct (now - default 0 stored <? delayMs limit); simpl; auto.
Qed.

Lemma throttle_bounded service : bounded 5 (throttle service).
Proof.
  unfold throttle.
  destruct (limits_get service) as [limit| |]; simpl; [| |exact I];
    intros stored now; [|simpl; auto].
  destruct (now - default 0 stored <? delayMs limit); simpl; auto.
Qed.

End Ensures.

Section HandlerEnsures.
Context {runtime : JsRuntime} {cheerio : Cheerio}.
Variable config : WorkerConfig.
Variable good : Outcome Response -> Prop.

(** ** The resolver *)

Lemma not_found_shape t message : resolved_shape good t (not_found t message).
Proof. left. eexists. reflexivity. Qed.

Lemma attempt_ensures t query attempt :
  ensures good
    (fun r => match r with
              | Some result => resolved_shape good t result
              | None => True
              end)
    (fun _ => False)
    (try_catch (attempt_body config t query) (attempt_catch t attempt)).
Proof.
  unfold attempt_body, attempt_catch, followRedirect, delay, settle, trigger.
  destruct (encodeURIComponent query) as [encoded|message].
  2:{ simpl. destruct (attempt =? _)%nat; simpl; [|auto].
      apply not_found_shape. }
  simpl. intros [response|e] _; simpl.
  2:{ destruct (attempt =? _)%nat; simpl; [|auto].
      apply not_found_shape. }
  destruct (ok response); simpl.
  2:{ destruct (attempt =? _)%nat; simpl; [|auto].
      apply not_found_shape. }
  destruct (text response) as [html|e]; simpl.
  2:{ destruct (attempt =? _)%nat; simpl; [|auto].
      apply not_found_shape. }
  destruct (extractDownloadUrl config html query) as [u|]; simpl; [|exact I].
  destruct (truthy u) eqn:Hu; simpl; [|exact I].
  intros o Ho. destruct o as [response'|e]; simpl; unfold resolved_shape; right.
  - exists u, (Returned response'). auto.
  - exists u, (Threw e). auto.
Qed.

Lemma attempt_bounded t query attempt :
  bounded 3 (try_catch (attempt_body config t query) (attempt_catch t attempt)).
Proof.
  unfold attempt_body, attempt_catch, followRedirect, delay, settle, trigger.
  destruct (encodeURIComponent query) as [encoded|message].
  2:{ simpl. destruct (attempt =? _)%nat; simpl; auto. }
  simpl. intros [response|e]; simpl.
  2:{ destruct (attempt =? _)%nat; simpl; auto. }
  destruct (ok response); simpl.
  2:{ destruct (attempt =? _)%nat; simpl; auto. }
  destruct (text response) as [html|e]; simpl.
  2:{ destruct (attempt =? _)%nat; simpl; auto. }
  destruct (extractDownloadUrl config html query) as [u|]; simpl; [|exact I].
  destruct (truthy u); simpl; [|exact I].
  intros [response'|e]; exact I.
Qed.

Lemma search_from_ensures t query remaining :
  forall attempt,
    ensures good (resolved_shape good t) (fun _ => False)
      (search_from config remaining attempt t query).
Proof.
  induction remaining as [|remaining IH]; intros attempt.
  - apply not_found_shape.
  - cbn [search_from]. unfold mbind, Async_bind.
    eapply ensures_bind; [apply attempt_ensures|].
    intros [result|] Hresult; [exact Hresult | apply IH].
Qed.

Lemma search_from_bounded t query remaining :
  forall attempt,
    bounded (3 * remaining) (search_from config remaining attempt t query).
Proof.
  induction remaining as [|remaining IH]; intros attempt; [exact I|].
  cbn [search_from]. unfold mbind, Async_bind.
  replace (3 * S remaining)%nat with (3 + 3 * remaining)%nat by lia.
  apply bounded_bind; [apply attempt_bounded|].
  intros [result|]; [exact I | apply IH].
Qed.

(** ** The coordinator with the services of the handler *)

Lemma searchSingleTrack_ensures t :
  ensures good (resolved_shape good t) (fun _ => False)
    (this_searchSingleTrack config t).
Proof.
  unfold this_searchSingleTrack, searchSingleTrack, mbind, Async_bind.
  apply (ensures_try_catch good _ (fun _ => True)).
  2:{ intros e _. apply not_found_shape. }
  apply (ensures_bind good (fun _ => True)).
  { apply ensures_any_throw, throttle_ensures. }
  intros _ _.
  apply (ensures_bind good (resolved_shape good t)).
  { apply ensures_any_throw, search_from_ensures. }
  intros n Hn. destruct (found n); [exact Hn|].
  apply (ensures_bind good (fun _ => True)).
  { apply ensures_any_throw, throttle_ensures. }
  intros _ _. apply not_found_shape.
Qed.

Lemma searchSingleTrack_bounded t :
  bounded single_track_bound (this_searchSingleTrack config t).
Proof.
  unfold this_searchSingleTrack, searchSingleTrack, mbind, Async_bind.
  apply (bounded_try_catch 16 0); [|intros e; exact I].
  apply (bounded_bind 5 11); [apply throttle_bounded|].
  intros _.
  apply (bounded_bind 6 5); [apply (search_from_bounded t _ 2)|].
  intros n. destruct (found n); [exact I|].
  apply (bounded_bind 5 0); [apply throttle_bounded|].
  intros _. exact I.
Qed.

(** The handler's [searchSingleTrack] never throws. *)
Lemma searchSingleTrack_never_throws t :
  ensures good (fun _ => True) (fun _ => False)
    (this_searchSingleTrack config t).
Proof.
  eapply ensures_weaken; [| |apply searchSingleTrack_ensures]; auto.
Qed.

End HandlerEnsures.

(** ** What the shape of a result gives *)

Lemma resolved_shape_track good t r : resolved_shape good t r -> track r = t.
Proof. intros [(message & ->)|(u & o & _ & _ & ->)]; reflexivity. Qed.

Lemma resolved_shape_invariant t r :
  resolved_shape has_url t r -> result_invariant r.
Proof.
  intros [(message & ->)|(u & o & Hu & Ho & ->)]; unfold result_invariant; simpl.
  - repeat split.
    + discriminate.
    + intros (u & Hu & _). discriminate.
    + intros [s Hs]. discriminate.
    + discriminate.
    + discriminate.
  - repeat split; auto.
    + intros _. eexists. split; [reflexivity|].
      destruct o as [response|e]; simpl; [exact Ho|].
      destruct u; [discriminate|discriminate].
    + intros s [= <-]. simpl. auto.
Qed.

(* ================================================================== *)
(** * The event loop keeps what the tasks ensure *)
(* ================================================================== *)

Section EventLoop.
Variable good : Outcome Response -> Prop.
Variable net : Net.
Hypothesis Hnet : good_net good net.

Lemma perform_plausible {X} (ev : SysE X) w :
  match perform net ev w with
  | (_, Now x) => plausible good ev x
  | (_, Later _ x) => plausible good ev x
  end.
Proof. destruct ev; simpl; auto. Qed.

Lemma run_sync_ensures {R} (P : R -> Prop) (p : Async SysE R) :
  forall w,
    ensures good P (fun _ => False) p ->
    task_ensures good P (snd (run_sync net w p)).
Proof.
  induction p as [r|e|X ev k IH]; intros w Hp; simpl in *; auto.
  pose proof (perform_plausible ev w) as Hx.
  destruct (perform net ev w) as [w' [x|wake x]]; simpl; auto.
Qed.

Lemma task_bounded_mono {R} n m (t : Task R) :
  (n <= m)%nat -> task_bounded n t -> task_bounded m t.
Proof.
  destruct t as [wake p|o]; simpl; auto.
  intros Hle Hn. destruct n as [|n]; [destruct Hn|].
  destruct m as [|m]; [lia|].
  apply (bounded_mono n); [lia | exact Hn].
Qed.

Lemma run_sync_bounded {R} (p : Async SysE R) :
  forall n w, bounded n p -> task_bounded n (snd (run_sync net w p)).
Proof.
  induction p as [r|e|X ev k IH]; intros n w Hp; simpl in *; auto.
  destruct n as [|n]; [destruct Hp|].
  destruct (perform net ev w) as [w' [x|wake x]]; simpl.
  - apply (task_bounded_mono n); [lia | apply IH, Hp].
  - apply Hp.
Qed.

(** ** The next task *)

Lemma earliest_Some {R} (pool : list (Task R)) i wake :
  earliest pool = Some (i, wake) ->
  exists p, pool !! i = Some (Pending wake p).
Proof.
  revert i wake. induction pool as [|t rest IH]; intros i wake He; [discriminate|].
  simpl in He.
  destruct t as [wake0 p0|o], (earliest rest) as [[j wake']|] eqn:Hrest.
  - destruct (wake' <? wake0); simplify_eq.
    + apply (IH j wake). reflexivity.
    + exists p0. reflexivity.
  - simplify_eq. exists p0. reflexivity.
  - simplify_eq. apply (IH j wake). reflexivity.
  - discriminate.
Qed.

Lemma earliest_None {R} {A} (P : A -> R -> Prop) xs (pool : list (Task R)) :
  earliest pool = None ->
  Forall2 (fun x t => task_ensures good (P x) t) xs pool ->
  Forall2 (fun x t => returned_in (P x) t) xs pool.
Proof.
  intros He Hpool. induction Hpool as [|x t xs pool Ht Hrest IH]; [constructor|].
  simpl in He.
  destruct t as [wake p|o], (earliest pool) as [[j wake']|];
    try discriminate; try (destruct (wake' <? wake); discriminate).
  constructor; [|apply IH; reflexivity].
  destruct o; [exact Ht | destruct Ht].
Qed.

(** ** The loop *)

Lemma event_loop_ensures {A R} (P : A -> R -> Prop) fuel :
  forall w (pool : list (Task R)) xs w' pool',
    Forall2 (fun x t => task_ensures good (P x) t) xs pool ->
    event_loop fuel net w pool = Some (w', pool') ->
    Forall2 (fun x t => returned_in (P x) t) xs pool'.
Proof.
  induction fuel as [|fuel IH]; intros w pool xs w' pool' Hpool Hrun; [discriminate|].
  simpl in Hrun.
  destruct (earliest pool) as [[i wake]|] eqn:He.
  2:{ simplify_eq. eapply earliest_None; eauto. }
  destruct (earliest_Some _ _ _ He) as [p Hi]. rewrite Hi in Hrun.
  destruct (run_sync net (set_clock w (Z.max (clock w) wake)) p) as [w1 t] eqn:Hsync.
  destruct (Forall2_lookup_r _ _ _ _ _ Hpool Hi) as (x & Hx & Hens).
  eapply IH; [|exact Hrun].
  rewrite <- (list_insert_id xs i x Hx).
  apply Forall2_insert; [exact Hpool|].
  pose proof (run_sync_ensures (P x) p (set_clock w (Z.max (clock w) wake)) Hens) as Ht.
  rewrite Hsync in Ht. exact Ht.
Qed.

Lemma sum_list_insert_lt (ns : list nat) i n :
  ns !! i = Some (S n) -> (sum_list (<[i := n]> ns) < sum_list ns)%nat.
Proof.
  revert i. induction ns as [|m ns IH]; intros i Hi; [discriminate|].
  destruct i as [|i]; simpl in *.
  - simplify_eq. lia.
  - specialize (IH i Hi). lia.
Qed.

Lemma event_loop_terminates {R} fuel :
  forall w (pool : list (Task R)) ns,
    Forall2 task_bounded ns pool ->
    (sum_list ns < fuel)%nat ->
    exists w' pool', event_loop fuel net w pool = Some (w', pool').
Proof.
  induction fuel as [|fuel IH]; intros w pool ns Hpool Hfuel; [lia|].
  simpl.
  destruct (earliest pool) as [[i wake]|] eqn:He; [|eauto].
  destruct (earliest_Some _ _ _ He) as [p Hi]. rewrite Hi.
  destruct (run_sync net (set_clock w (Z.max (clock w) wake)) p) as [w1 t] eqn:Hsync.
  destruct (Forall2_lookup_r _ _ _ _ _ Hpool Hi) as (n & Hn & Hb).
  destruct n as [|n]; [destruct Hb|]. simpl in Hb.
  apply (IH _ _ (<[i := n]> ns)).
  - apply Forall2_insert; [exact Hpool|].
    pose proof (run_sync_bounded p n (set_clock w (Z.max (clock w) wake)) Hb) as Ht.
    rewrite Hsync in Ht. exact Ht.
  - pose proof (sum_list_insert_lt ns i n Hn). lia.
Qed.

(** ** [Promise.all] *)

Lemma start_all_ensures {A R} (P : A -> R -> Prop) xs (ps : list (Async SysE R)) :
  Forall2 (fun x p => ensures good (P x) (fun _ => False) p) xs ps ->
  forall w i,
    Forall2 (fun x t => task_ensures good (P x) t) xs (snd (start_all net w i ps)).
Proof.
  induction 1 as [|x p xs ps Hp Hrest IH]; intros w i; simpl; [constructor|].
  pose proof (run_sync_ensures (P x) p w Hp) as Ht.
  destruct (run_sync net w p) as [w1 t].
  specialize (IH (note_settled w1 i t) (S i)).
  destruct (start_all net (note_settled w1 i t) (S i) ps) as [w2 ts].
  constructor; assumption.
Qed.

Lemma start_all_bounded {R} n (ps : list (Async SysE R)) :
  Forall (bounded n) ps ->
  forall w i,
    Forall2 task_bounded (replicate (length ps) n) (snd (start_all net w i ps)).
Proof.
  induction 1 as [|p ps Hp Hrest IH]; intros w i; simpl; [constructor|].
  pose proof (run_sync_bounded p n w Hp) as Ht.
  destruct (run_sync net w p) as [w1 t].
  specialize (IH (note_settled w1 i t) (S i)).
  destruct (start_all net (note_settled w1 i t) (S i) ps) as [w2 ts].
  constructor; assumption.
Qed.

Lemma values_returned {A R} (P : A -> R -> Prop) xs (pool : list (Task R)) :
  Forall2 (fun x t => returned_in (P x) t) xs pool ->
  exists rs, values pool = Returned rs /\ Forall2 P xs rs.
Proof.
  induction 1 as [|x t xs pool Ht Hrest (rs & Hrs & HP)]; simpl.
  - exists []. split; [reflexivity | constructor].
  - destruct t as [wake p|[r|e]]; try destruct Ht.
    rewrite Hrs. exists (r :: rs). split; [reflexivity | constructor; assumption].
Qed.

Lemma Promise_all_ensures {A R} (P : A -> R -> Prop) xs (ps : list (Async SysE R))
  fuel w w' o :
  Forall2 (fun x p => ensures good (P x) (fun _ => False) p) xs ps ->
  Promise_all fuel net w ps = Some (w', o) ->
  exists rs, o = Returned rs /\ Forall2 P xs rs.
Proof.
  intros Hps Hrun. unfold Promise_all in Hrun.
  pose proof (start_all_ensures P xs ps Hps w 0%nat) as Hpool.
  destruct (start_all net w 0 ps) as [w1 pool].
  destruct (event_loop fuel net w1 pool) as [[w2 pool']|] eqn:Hloop; [|discriminate].
  simplify_eq.
  apply values_returned. eapply event_loop_ensures; eauto.
Qed.

Lemma Promise_all_terminates {R} n (ps : list (Async SysE R)) fuel w :
  Forall (bounded n) ps ->
  (length ps * n < fuel)%nat ->
  exists w' o, Promise_all fuel net w ps = Some (w', o).
Proof.
  intros Hps Hfuel. unfold Promise_all.
  pose proof (start_all_bounded n ps Hps w 0%nat) as Hpool.
  destruct (start_all net w 0 ps) as [w1 pool].
  destruct (event_loop_terminates fuel w1 pool _ Hpool) as (w2 & pool' & ->).
  - rewrite sum_list_replicate. exact Hfuel.
  - eauto.
Qed.

End EventLoop.

(* ================================================================== *)
(** * The chunks of [searchTracksWithWaterfall] *)
(* ================================================================== *)

Lemma slice_length {A} (l : list A) start end_ :
  (length (slice l start end_) <= length l)%nat.
Proof.
  unfold slice. rewrite length_take, length_drop. lia.
Qed.

(** The chunk that starts at [i] continues the first [i] elements. *)
Lemma slice_extends {A} (l : list A) i size :
  0 <= i -> 0 < size ->
  take (Z.to_nat i) l ++ slice l i (i + size) = take (Z.to_nat (i + size)) l.
Proof.
  intros Hi Hsize. unfold slice.
  destruct (i <? 0) eqn:Hneg; [lia|].
  destruct (i + size <? 0) eqn:Hneg'; [lia|].
  destruct (Z.le_gt_cases (Z.of_nat (length l)) i) as [Hout|Hin].
  - rewrite (Z.min_r i) by lia. rewrite (Z.min_r (i + size)) by lia.
    rewrite Z.sub_diag. simpl. rewrite app_nil_r.
    rewrite !take_ge by lia. reflexivity.
  - rewrite (Z.min_l i) by lia.
    destruct (Z.le_gt_cases (i + size) (Z.of_nat (length l))) as [Hfits|Hlast].
    + rewrite Z.min_l by lia.
      rewrite take_take_drop. f_equal. lia.
    + rewrite Z.min_r by lia.
      rewrite take_take_drop.
      rewrite !take_ge by lia. reflexivity.
Qed.

Section Waterfall.
Context {runtime : JsRuntime} {cheerio : Cheerio}.
Variable config : WorkerConfig.
Variable good : Outcome Response -> Prop.
Variable net : Net.
Hypothesis Hnet : good_net good net.

Lemma batch_ensures (P : CleanedTrack -> TrackSearchResult -> Prop) batch :
  (forall t, ensures good (P t) (fun _ => False)
               (this_searchSingleTrack config t)) ->
  Forall2 (fun t p => ensures good (P t) (fun _ => False) p) batch
    (map (this_searchSingleTrack config) batch).
Proof.
  intros HP. induction batch as [|t batch IH]; simpl; constructor; auto.
Qed.

(** The results of the loop are those of the tracks, in the order of the
    tracks, when the concurrency is positive. *)
Lemma waterfall_loop_aligned (P : CleanedTrack -> TrackSearchResult -> Prop) tracks :
  (forall t, ensures good (P t) (fun _ => False)
               (this_searchSingleTrack config t)) ->
  0 < MAX_CONCURRENT_SEARCHES config ->
  forall fuel w i results w' o,
    0 <= i ->
    Forall2 P (take (Z.to_nat i) tracks) results ->
    waterfall_loop config net fuel w tracks i results
    = Some (w', o) ->
    exists rs, o = Returned rs /\ Forall2 P tracks rs.
Proof.
  intros HP Hpos. induction fuel as [|fuel IH];
    intros w i results w' o Hi Hresults Hrun; [discriminate|].
  cbn [waterfall_loop] in Hrun.
  destruct (i <? Z.of_nat (length tracks)) eqn:Hmore.
  - destruct (Promise_all (S fuel) net w _) as [[w1 o1]|] eqn:Hall; [|discriminate].
    destruct (Promise_all_ensures good net Hnet P _ _ _ _ _ _
                (batch_ensures P _ HP) Hall) as (rs1 & -> & Hrs1).
    eapply (IH w1 (i + MAX_CONCURRENT_SEARCHES config)); [lia| |exact Hrun].
    rewrite <- slice_extends by lia.
    apply Forall2_app; assumption.
  - simplify_eq. exists results. split; [reflexivity|].
    rewrite take_ge in Hresults by lia. exact Hresults.
Qed.

(** Whatever the concurrency, every result that the loop returns is one
    that some [searchSingleTrack] has returned. *)
Lemma waterfall_loop_all (P : TrackSearchResult -> Prop) tracks :
  (forall t, ensures good P (fun _ => False)
               (this_searchSingleTrack config t)) ->
  forall fuel w i results w' o,
    Forall P results ->
    waterfall_loop config net fuel w tracks i results
    = Some (w', o) ->
    exists rs, o = Returned rs /\ Forall P rs.
Proof.
  intros HP. induction fuel as [|fuel IH];
    intros w i results w' o Hresults Hrun; [discriminate|].
  cbn [waterfall_loop] in Hrun.
  destruct (i <? Z.of_nat (length tracks)) eqn:Hmore.
  - destruct (Promise_all (S fuel) net w _) as [[w1 o1]|] eqn:Hall; [|discriminate].
    destruct (Promise_all_ensures good net Hnet (fun _ => P) _ _ _ _ _ _
                (batch_ensures (fun _ => P) _ HP) Hall) as (rs1 & -> & Hrs1).
    eapply IH; [|exact Hrun].
    apply Forall_app. split; [exact Hresults|].
    clear -Hrs1. induction Hrs1; constructor; auto.
  - simplify_eq. eauto.
Qed.

End Waterfall.

Section WaterfallTermination.
Context {runtime : JsRuntime} {cheerio : Cheerio}.
Variable config : WorkerConfig.
Variable net : Net.

(** With a positive concurrency the loop ends. *)
Lemma waterfall_loop_terminates tracks :
  0 < MAX_CONCURRENT_SEARCHES config ->
  forall fuel w i results,
    0 <= i ->
    (Z.to_nat (Z.of_nat (length tracks) - i)
     + length tracks * single_track_bound < fuel)%nat ->
    exists w' o,
      waterfall_loop config net fuel w tracks i results
      = Some (w', o).
Proof.
  intros Hpos. induction fuel as [|fuel IH]; intros w i results Hi Hfuel; [lia|].
  cbn [waterfall_loop].
  destruct (i <? Z.of_nat (length tracks)) eqn:Hmore; [|eauto].
  destruct (Promise_all_terminates net single_track_bound
              (map (this_searchSingleTrack config)
                 (slice tracks i (i + MAX_CONCURRENT_SEARCHES config)))
              (S fuel) w) as (w1 & o1 & ->).
  - apply Forall_forall. intros p Hp.
    apply list_elem_of_fmap in Hp as (t & -> & _).
    apply searchSingleTrack_bounded.
  - rewrite length_map.
    pose proof (slice_length tracks i (i + MAX_CONCURRENT_SEARCHES config)).
    unfold single_track_bound in *. nia.
  - destruct o1 as [rs1|e]; [|eauto].
    apply IH; lia.
Qed.

End WaterfallTermination.

(* ================================================================== *)
(** * Order and identity of the batch results *)
(* ================================================================== *)

(** C1: with a positive [MAX_CONCURRENT_SEARCHES], on every network
    (whatever the latencies, hence whatever the order in which the
    searches of a chunk complete) and from every state of the handler,
    [searchTracksWithWaterfall] returns, given [waterfall_fuel] fuel, a
    list of as many results as there are tracks, and the result at index
    [i] carries the track at index [i]. *)
Theorem waterfall_keeps_order {runtime : JsRuntime} {cheerio : Cheerio}
  config (net : Net) fuel w tracks :
  0 < MAX_CONCURRENT_SEARCHES config ->
  (waterfall_fuel (length tracks) <= fuel)%nat ->
  exists w' results,
    searchTracksWithWaterfall config net fuel w tracks
    = Some (w', Returned results) /\
    length results = length tracks /\
    forall (i : nat) t, tracks !! i = Some t -> track <$> results !! i = Some t.
Proof.
  intros Hpos Hfuel. unfold searchTracksWithWaterfall.
  destruct (waterfall_loop_terminates config net tracks Hpos
              fuel w 0 []) as (w' & o & Hrun); [lia| |].
  { unfold waterfall_fuel in Hfuel. lia. }
  destruct (waterfall_loop_aligned config (fun _ => True) net
              (fun _ => I) (fun t r => track r = t) tracks) with
    (fuel := fuel) (w := w) (i := 0) (results := @nil TrackSearchResult)
    (w' := w') (o := o) as (rs & -> & Hrs); auto; try lia.
  { intros t. eapply ensures_weaken; [| |apply searchSingleTrack_ensures]; auto.
    apply resolved_shape_track. }
  exists w', rs. split; [exact Hrun|]. split.
  - symmetry. eapply Forall2_length, Hrs.
  - intros i t Hi.
    destruct (Forall2_lookup_l _ _ _ _ _ Hrs Hi) as (r & -> & Hr).
    simpl. congruence.
Qed.

Lemma waterfall_keeps_order_witness :
  exists w' results,
    scenario_waterfall default_config net_slow_first (waterfall_fuel 3) three_tracks
    = Some (w', Returned results) /\
    length results = length three_tracks /\
    forall (i : nat) t, three_tracks !! i = Some t -> track <$> results !! i = Some t.
Proof.
  apply (waterfall_keeps_order (runtime := plain_runtime) (cheerio := plain_cheerio)
           default_config net_slow_first
           (waterfall_fuel 3) fresh_world three_tracks).
  - reflexivity.
  - simpl. lia.
Defined.

(** On [net_slow_first] the search of the first track is the last to
    complete; the results are in the order of the tracks all the same. *)
Example results_in_input_order_not_completion_order :
  settling_order (observed slow_first_world) = [1; 2; 0]%nat /\
  map track slow_first_results = three_tracks.
Proof. split; vm_compute; reflexivity. Qed.

(* ================================================================== *)
(** * The invariant of search results *)
(* ================================================================== *)

(** C7: on a network whose responses carry a non-empty [url], every
    result that [searchTracksWithWaterfall] returns satisfies the
    invariant: it is found exactly when it has a non-empty download URL,
    it has a source exactly when it is found, and its source is one of
    the configured providers. *)
Theorem every_result_keeps_invariant {runtime : JsRuntime} {cheerio : Cheerio}
  config (net : Net) fuel w tracks w' results :
  good_net has_url net ->
  searchTracksWithWaterfall config net fuel w tracks
  = Some (w', Returned results) ->
  Forall result_invariant results.
Proof.
  intros Hnet Hrun. unfold searchTracksWithWaterfall in Hrun.
  destruct (waterfall_loop_all config has_url net Hnet
              result_invariant tracks) with
    (fuel := fuel) (w := w) (i := 0) (results := @nil TrackSearchResult)
    (w' := w') (o := Returned results) as (rs & Heq & Hrs); auto.
  - intros t. eapply ensures_weaken; [| |apply searchSingleTrack_ensures]; auto.
    apply resolved_shape_invariant.
  - simplify_eq. exact Hrs.
Qed.

Lemma net_slow_first_has_url : good_net has_url net_slow_first.
Proof. intros [|n]; simpl; discriminate. Qed.

Lemma every_result_keeps_invariant_witness :
  Forall result_invariant slow_first_results.
Proof.
  apply (every_result_keeps_invariant
           (runtime := plain_runtime) (cheerio := plain_cheerio)
           default_config net_slow_first
           (waterfall_fuel 3) fresh_world three_tracks slow_first_world).
  - exact net_slow_first_has_url.
  - vm_compute. reflexivity.
Defined.

(* ================================================================== *)
(** * Misuse: an empty track list, a concurrency that is not positive *)
(* ================================================================== *)

(** C6, as the code has it: on an empty track list the batch resolution
    returns the empty result list at once, whatever the concurrency value,
    and leaves the world as it was: no request, no timer, no call of the
    rate limiter.  And no call of the batch resolution raises an error:
    when it returns, it returns a list of results. *)
Theorem batch_resolution_raises_no_error {runtime : JsRuntime} {cheerio : Cheerio}
  config (net : Net) :
  (forall fuel w,
     searchTracksWithWaterfall config net (S fuel) w []
     = Some (w, Returned [])) /\
  (forall fuel w tracks w' o,
     searchTracksWithWaterfall config net fuel w tracks
     = Some (w', o) ->
     exists results, o = Returned results).
Proof.
  split; [reflexivity|].
  intros fuel w tracks w' o Hrun. unfold searchTracksWithWaterfall in Hrun.
  destruct (waterfall_loop_all config (fun _ => True) net
              (fun _ => I) (fun _ => True) tracks
              (searchSingleTrack_never_throws config _)
              fuel w 0 [] w' o (List.Forall_nil _) Hrun) as (rs & -> & _).
  eauto.
Qed.

Lemma batch_resolution_raises_no_error_witness :
  scenario_waterfall default_config net_slow_first 1 [] = Some (fresh_world, Returned [])
  /\ exists results,
       Returned slow_first_results = Returned (R := list TrackSearchResult) results.
Proof.
  destruct (batch_resolution_raises_no_error
              (runtime := plain_runtime) (cheerio := plain_cheerio)
              default_config net_slow_first)
    as [Hempty Hreturns].
  split.
  - apply (Hempty 0%nat fresh_world).
  - apply (Hreturns (waterfall_fuel 3) fresh_world three_tracks slow_first_world).
    vm_compute. reflexivity.
Defined.

(* ================================================================== *)
(** * Without a positive concurrency the loop does not end *)
(* ================================================================== *)

(** With a concurrency of 0 or less, [i] never reaches the length of a
    non-empty track list: no fuel is enough.  (With a negative value the
    first chunk, [tracks.slice(0, maxConcurrent)], may even hold tracks,
    which are searched before the loop goes on for ever.) *)
Lemma nonpositive_concurrency_never_ends {runtime : JsRuntime} {cheerio : Cheerio}
  config (net : Net) t tracks :
  MAX_CONCURRENT_SEARCHES config <= 0 ->
  forall fuel w,
    searchTracksWithWaterfall config net fuel w (t :: tracks)
    = None.
Proof.
  intros Hnonpos fuel w. unfold searchTracksWithWaterfall.
  assert (0 <= 0) as Hi by lia. revert Hi.
  generalize (@nil TrackSearchResult) as results.
  generalize 0 at 1 3 as i. revert w.
  induction fuel as [|fuel IH]; intros w i results Hi; [reflexivity|].
  cbn [waterfall_loop].
  replace (i <? Z.of_nat (length (t :: tracks))) with true
    by (symmetry; apply Z.ltb_lt; simpl length; lia).
  destruct (Promise_all (S fuel) net w _) as [[w1 o1]|] eqn:Hall; [|reflexivity].
  destruct (Promise_all_ensures (fun _ => True) net (fun _ => I)
              (fun (_ : CleanedTrack) (_ : TrackSearchResult) => True)
              _ _ _ _ _ _
              (batch_ensures config (fun _ => True)
                 (fun _ _ => True) _
                 (searchSingleTrack_never_throws config _))
              Hall) as (rs1 & -> & _).
  apply IH. lia.
Qed.

(** C6 as stated fails: an empty track list gives the empty result, not
    an error; and with a concurrency of 0 a call on one track gives
    nothing at all, however long it runs. *)
Lemma misuse_raises_no_error :
  (forall fuel w e,
     scenario_waterfall default_config net_empty_pages fuel [] <> Some (w, Threw e)) /\
  (forall fuel,
     scenario_waterfall zero_concurrency_config net_empty_pages fuel [track_glue]
     = None).
Proof.
  split.
  - intros [|fuel] w e; discriminate.
  - intros fuel. apply nonpositive_concurrency_never_ends. reflexivity.
Qed.

(* ================================================================== *)
(** * One task in the event loop runs as it runs alone *)
(* ================================================================== *)

Lemma run_sync_alone {R} net (p : Async SysE R) :
  forall w,
    run_alone net w p =
    match run_sync net w p with
    | (w1, Pending wake rest) =>
        run_alone net (set_clock w1 (Z.max (clock w1) wake)) rest
    | (w1, Settled o) => (w1, o)
    end.
Proof.
  induction p as [r|e|X ev k IH]; intros w; simpl; try reflexivity.
  destruct (perform net ev w) as [w1 [x|wake x]]; [apply IH | reflexivity].
Qed.

Lemma event_loop_alone {R} net fuel :
  forall n w wake (p : Async SysE R),
    bounded n p -> (S n < fuel)%nat ->
    event_loop fuel net w [Pending wake p] =
    Some (observe (fst (run_alone net (set_clock w (Z.max (clock w) wake)) p))
            (OSettled 0),
          [Settled (snd (run_alone net (set_clock w (Z.max (clock w) wake)) p))]).
Proof.
  induction fuel as [|fuel IH]; intros n w wake p Hp Hfuel; [lia|].
  cbn [event_loop earliest]. cbn [lookup list_lookup].
  rewrite (run_sync_alone net p).
  pose proof (run_sync_bounded net p n (set_clock w (Z.max (clock w) wake)) Hp) as Hb.
  destruct (run_sync net (set_clock w (Z.max (clock w) wake)) p) as [w1 [wake1 rest|o]].
  - cbn [note_settled insert list_insert]. simpl in Hb.
    destruct n as [|n]; [destruct Hb|].
    apply (IH n); [exact Hb | lia].
  - cbn [note_settled insert list_insert].
    destruct fuel as [|fuel]; [lia|]. reflexivity.
Qed.

(* ================================================================== *)
(** * More on [RateLimiter] *)
(* ================================================================== *)

Lemma limits_known service limit :
  limits !! service = Some limit ->
  (service = "notslider" /\ delayMs limit = 1000) \/
  (service = "soundcloud" /\ delayMs limit = 600) \/
  (service = "openai" /\ delayMs limit = 1000).
Proof.
  unfold limits. simpl.
  rewrite !lookup_insert_Some, lookup_empty.
  intros [[<- <-]|[_ [[<- <-]|[_ [[<- <-]|[_ ?]]]]]]; auto; discriminate.
Qed.

Lemma limits_positive service limit :
  limits !! service = Some limit -> 0 < delayMs limit.
Proof.
  intros Hl. destruct (limits_known _ _ Hl) as [[_ ->]|[[_ ->]|[_ ->]]]; lia.
Qed.

Lemma limits_get_Entry service limit :
  limits !! service = Some limit -> limits_get service = Entry limit.
Proof. intros Hl. unfold limits_get. rewrite Hl. reflexivity. Qed.

Lemma limits_get_inherited service :
  limits !! service = None ->
  limits_get service = if existsb (String.eqb service) Object_prototype
                       then Inherited else Undefined.
Proof. intros Hl. unfold limits_get. rewrite Hl. reflexivity. Qed.

Lemma inherited_In service :
  existsb (String.eqb service) Object_prototype = true <-> In service Object_prototype.
Proof.
  rewrite existsb_exists. split.
  - intros (x & Hin & Heq). apply String.eqb_eq in Heq. subst x. exact Hin.
  - intros Hin. exists service. split; [exact Hin | apply String.eqb_refl].
Qed.

Lemma run_alone_getCurrentDelay net w service :
  run_alone net w (getCurrentDelay service) =
  (w, Returned
        match limits_get service with
        | Undefined => Ms 0
        | Inherited => Ms_NaN
        | Entry limit =>
            Ms (Z.max 0 (delayMs limit
                         - (clock w - default 0 (lastRequest w !! service))))
        end).
Proof.
  unfold getCurrentDelay. destruct (limits_get service); reflexivity.
Qed.

Lemma run_alone_throttle_unknown net w service :
  limits_get service = Undefined ->
  run_alone net w (throttle service) = (w, Returned tt).
Proof. intros Hl. unfold throttle. rewrite Hl. reflexivity. Qed.

Lemma run_alone_throttle_inherited net w service :
  limits_get service = Inherited ->
  run_alone net w (throttle service) = (stamped w service, Returned tt).
Proof. intros Hl. unfold throttle. rewrite Hl. reflexivity. Qed.

Lemma let_through_clock w service limit :
  clock (let_through w service limit) =
  clock w + Z.max 0 (delayMs limit - (clock w - default 0 (lastRequest w !! service))).
Proof.
  unfold let_through.
  destruct (Z.ltb_spec (clock w - default 0 (lastRequest w !! service)) (delayMs limit));
    cbn [clock waited]; lia.
Qed.

Lemma let_through_lastRequest w service limit :
  lastRequest (let_through w service limit) =
  <[service := clock (let_through w service limit)]> (lastRequest w).
Proof.
  unfold let_through.
  destruct (clock w - default 0 (lastRequest w !! service) <? delayMs limit);
    reflexivity.
Qed.

(** X1: when [getCurrentDelay] is a number, a caller of [throttle],
    alone, is let through exactly that many milliseconds after its call,
    and for a service of the table that time is what [throttle] records.
    When [getCurrentDelay] is [NaN], which it is for the names that the
    table inherits, the caller is let through at once and the time of
    the call is recorded. *)
Theorem throttle_waits_for_current_delay net w service :
  (forall d,
     snd (run_alone net w (getCurrentDelay service)) = Returned (Ms d) ->
     exists w',
       run_alone net w (throttle service) = (w', Returned tt) /\
       clock w' = clock w + d /\
       (is_Some (limits !! service) ->
        lastRequest w' !! service = Some (clock w + d))) /\
  (snd (run_alone net w (getCurrentDelay service)) = Returned Ms_NaN ->
   exists w',
     run_alone net w (throttle service) = (w', Returned tt) /\
     clock w' = clock w /\
     lastRequest w' !! service = Some (clock w)).
Proof.
  rewrite run_alone_getCurrentDelay. cbn [snd].
  destruct (limits !! service) as [limit|] eqn:Hl.
  - rewrite (limits_get_Entry _ _ Hl). split; [|discriminate].
    intros d [= <-].
    exists (let_through w service limit).
    split; [apply run_alone_throttle, Hl|].
    split; [apply let_through_clock|].
    intros _. rewrite let_through_lastRequest, lookup_insert_eq.
    f_equal. apply let_through_clock.
  - rewrite (limits_get_inherited _ Hl).
    destruct (existsb (String.eqb service) Object_prototype) eqn:Hin.
    + split; [discriminate|]. intros _.
      exists (stamped w service).
      split; [apply run_alone_throttle_inherited; rewrite (limits_get_inherited _ Hl), Hin;
              reflexivity|].
      split; [reflexivity|]. cbn [stamped lastRequest]. apply lookup_insert_eq.
    + split; [|discriminate]. intros d [= <-].
      exists w.
      split; [apply run_alone_throttle_unknown; rewrite (limits_get_inherited _ Hl), Hin;
              reflexivity|].
      split; [lia|]. intros [? [=]].
Qed.

Lemma throttle_waits_for_current_delay_witness :
  (exists w',
     run_alone net_empty_pages busy_world (throttle "notslider") = (w', Returned tt) /\
     clock w' = clock busy_world + 600 /\
     (is_Some (limits !! "notslider") ->
      lastRequest w' !! "notslider" = Some (clock busy_world + 600))) /\
  (exists w',
     run_alone net_empty_pages busy_world (throttle "constructor") = (w', Returned tt) /\
     clock w' = clock busy_world /\
     lastRequest w' !! "constructor" = Some (clock busy_world)).
Proof.
  split.
  - destruct (throttle_waits_for_current_delay net_empty_pages busy_world "notslider")
      as [Hnumber _].
    apply (Hnumber 600). vm_compute. reflexivity.
  - destruct (throttle_waits_for_current_delay net_empty_pages busy_world "constructor")
      as [_ Hnan].
    apply Hnan. vm_compute. reflexivity.
Defined.

Lemma run_alone_throttle_times net service limit n :
  limits !! service = Some limit ->
  forall w,
    lastRequest w !! service = Some (clock w) ->
    exists w',
      run_alone net w (throttle_times n service) = (w', Returned tt) /\
      dispatches service (observed w') =
        dispatches service (observed w)
        ++ every (delayMs limit) n (clock w + delayMs limit) /\
      clock w' = clock w + Z.of_nat n * delayMs limit.
Proof.
  intros Hl. pose proof (limits_positive _ _ Hl) as Hpos.
  induction n as [|n IH]; intros w Hlast.
  - exists w. simpl. rewrite app_nil_r. split; [reflexivity|]. split; [reflexivity|lia].
  - cbn [throttle_times]. unfold mbind, Async_bind.
    rewrite run_alone_bind, (run_alone_throttle net w service limit Hl).
    assert (clock (let_through w service limit) = clock w + delayMs limit) as Hclock.
    { rewrite let_through_clock, Hlast. cbn [default from_option]. unfold id. lia. }
    destruct (IH (let_through w service limit)) as (w' & Hrun & Hd & Hc).
    { rewrite let_through_lastRequest. apply lookup_insert_eq. }
    exists w'. split; [exact Hrun|]. split.
    + rewrite Hd, dispatches_let_through, Hclock, <- app_assoc. reflexivity.
    + rewrite Hc, Hclock. lia.
Qed.

(** X2: [n + 1] calls of [throttle] for a service, one after the other
    with nothing in between, are let through at [first],
    [first + delayMs], ..., [first + n * delayMs]: they take [n] times
    the minimum delay from the first. *)
Theorem throttle_back_to_back net w service limit n :
  limits !! service = Some limit ->
  exists w' first,
    run_alone net w (throttle_times (S n) service) = (w', Returned tt) /\
    dispatches service (observed w') =
      dispatches service (observed w) ++ every (delayMs limit) (S n) first /\
    clock w' = first + Z.of_nat n * delayMs limit.
Proof.
  intros Hl. cbn [throttle_times]. unfold mbind, Async_bind.
  rewrite run_alone_bind, (run_alone_throttle net w service limit Hl).
  destruct (run_alone_throttle_times net service limit n Hl
              (let_through w service limit)) as (w' & Hrun & Hd & Hc).
  { rewrite let_through_lastRequest. apply lookup_insert_eq. }
  exists w', (clock (let_through w service limit)).
  split; [exact Hrun|]. split; [|exact Hc].
  rewrite Hd, dispatches_let_through, <- app_assoc. reflexivity.
Qed.

Lemma throttle_back_to_back_witness :
  exists w' first,
    run_alone net_empty_pages fresh_world (throttle_times 3 "soundcloud")
    = (w', Returned tt) /\
    dispatches "soundcloud" (observed w') =
      dispatches "soundcloud" (observed fresh_world) ++ every 600 3 first /\
    clock w' = first + Z.of_nat 2 * 600.
Proof.
  apply (throttle_back_to_back net_empty_pages fresh_world "soundcloud"
           {| rpm := 100; delayMs := 600 |} 2).
  vm_compute. reflexivity.
Defined.

(** X3: [throttle] for one service neither reads nor writes the time
    stamp of another: the other stamps are left as they were, and the
    time at which the caller is let through depends on the clock and on
    the service's own stamp only. *)
Theorem throttle_services_independent net w service :
  (forall other,
     other <> service ->
     lastRequest (fst (run_alone net w (throttle service))) !! other
     = lastRequest w !! other) /\
  (forall w2,
     clock w2 = clock w ->
     lastRequest w2 !! service = lastRequest w !! service ->
     clock (fst (run_alone net w2 (throttle service)))
     = clock (fst (run_alone net w (throttle service)))).
Proof.
  destruct (limits !! service) as [limit|] eqn:Hl.
  - split.
    + intros other Hne. rewrite (run_alone_throttle net w service limit Hl).
      cbn [fst]. rewrite let_through_lastRequest. apply lookup_insert_ne. congruence.
    + intros w2 Hc Hs. rewrite !(run_alone_throttle net _ service limit Hl).
      cbn [fst]. rewrite !let_through_clock, Hc, Hs. reflexivity.
  - pose proof (limits_get_inherited _ Hl) as Hget.
    destruct (existsb (String.eqb service) Object_prototype); split.
    + intros other Hne. rewrite run_alone_throttle_inherited by exact Hget.
      cbn [fst stamped lastRequest]. apply lookup_insert_ne. congruence.
    + intros w2 Hc _. rewrite !run_alone_throttle_inherited by exact Hget. exact Hc.
    + intros other _. rewrite run_alone_throttle_unknown by exact Hget. reflexivity.
    + intros w2 Hc _. rewrite !run_alone_throttle_unknown by exact Hget. exact Hc.
Qed.

Lemma throttle_services_independent_witness :
  lastRequest (fst (run_alone net_empty_pages busy_world (throttle "soundcloud")))
    !! "notslider" = Some 1700000000000.
Proof.
  destruct (throttle_services_independent net_empty_pages busy_world "soundcloud")
    as [Hother _].
  rewrite (Hother "notslider"); [reflexivity | discriminate].
Defined.

(** X4: a name that is neither a key of [limits] nor inherited from
    [Object.prototype], such as ['youtube'], is not limited: [throttle]
    returns at once and changes nothing, and [getCurrentDelay] is 0.  An
    inherited name, such as ['constructor'], is not limited either, but
    [throttle] records the time of the call for it and [getCurrentDelay]
    is [NaN]. *)
Theorem unknown_service_is_not_limited net w service :
  limits !! service = None ->
  (~ In service Object_prototype ->
   run_alone net w (throttle service) = (w, Returned tt) /\
   run_alone net w (getCurrentDelay service) = (w, Returned (Ms 0))) /\
  (In service Object_prototype ->
   run_alone net w (throttle service) = (stamped w service, Returned tt) /\
   run_alone net w (getCurrentDelay service) = (w, Returned Ms_NaN)).
Proof.
  intros Hl. pose proof (limits_get_inherited _ Hl) as Hget.
  pose proof (inherited_In service) as Hin.
  destruct (existsb (String.eqb service) Object_prototype); split.
  - intros Hout. destruct Hout. apply Hin. reflexivity.
  - intros _. split; [apply run_alone_throttle_inherited, Hget|].
    rewrite run_alone_getCurrentDelay, Hget. reflexivity.
  - intros _. split; [apply run_alone_throttle_unknown, Hget|].
    rewrite run_alone_getCurrentDelay, Hget. reflexivity.
  - intros Hyes. apply Hin in Hyes. discriminate.
Qed.

Lemma unknown_service_is_not_limited_witness :
  (run_alone net_empty_pages busy_world (throttle "youtube") = (busy_world, Returned tt) /\
   run_alone net_empty_pages busy_world (getCurrentDelay "youtube")
   = (busy_world, Returned (Ms 0))) /\
  (run_alone net_empty_pages busy_world (throttle "constructor")
   = (stamped busy_world "constructor", Returned tt) /\
   run_alone net_empty_pages busy_world (getCurrentDelay "constructor")
   = (busy_world, Returned Ms_NaN)).
Proof.
  split.
  - destruct (unknown_service_is_not_limited net_empty_pages busy_world "youtube" eq_refl)
      as [Hout _].
    apply Hout. vm_compute. intuition discriminate.
  - destruct (unknown_service_is_not_limited net_empty_pages busy_world "constructor" eq_refl)
      as [_ Hin].
    apply Hin. left. reflexivity.
Defined.

(** X5: right after [throttle] has let a caller through, the next caller
    is told to wait the full delay: [getCurrentDelay] is [delayMs]. *)
Theorem full_delay_after_throttle net w service limit w' :
  limits !! service = Some limit ->
  run_alone net w (throttle service) = (w', Returned tt) ->
  run_alone net w' (getCurrentDelay service) = (w', Returned (Ms (delayMs limit))).
Proof.
  intros Hl. rewrite (run_alone_throttle net w service limit Hl). intros [= <-].
  rewrite run_alone_getCurrentDelay, (limits_get_Entry _ _ Hl),
    let_through_lastRequest, lookup_insert_eq.
  pose proof (limits_positive _ _ Hl).
  cbn [default from_option]. unfold id. do 3 f_equal. lia.
Qed.

Lemma full_delay_after_throttle_witness :
  run_alone net_empty_pages
    (fst (run_alone net_empty_pages busy_world (throttle "notslider")))
    (getCurrentDelay "notslider")
  = (fst (run_alone net_empty_pages busy_world (throttle "notslider")),
     Returned (Ms 1000)).
Proof.
  apply (full_delay_after_throttle net_empty_pages busy_world "notslider"
           {| rpm := 60; delayMs := 1000 |}).
  - vm_compute. reflexivity.
  - vm_compute. reflexivity.
Defined.

(** X6: [reset(service)] forgets the last request of that service only:
    once the clock is past [delayMs] (as any real clock is), the next
    [throttle(service)] lets its caller through at once, and the stamps
    of the other services are as before.  [resetAll()] does so for every
    service. *)
Theorem reset_lets_next_caller_through net w service limit :
  limits !! service = Some limit ->
  delayMs limit <= clock w ->
  clock (fst (run_alone net (reset service w) (throttle service))) = clock w /\
  clock (fst (run_alone net (resetAll w) (throttle service))) = clock w /\
  (forall other, other <> service ->
     lastRequest (reset service w) !! other = lastRequest w !! other).
Proof.
  intros Hl Hclock. rewrite !(run_alone_throttle net _ service limit Hl).
  cbn [fst]. rewrite !let_through_clock.
  unfold reset, resetAll. cbn [clock lastRequest].
  rewrite lookup_delete_eq, lookup_empty. cbn [default from_option].
  repeat split; try lia.
  intros other Hne. apply lookup_delete_ne. congruence.
Qed.

Lemma reset_lets_next_caller_through_witness :
  clock (fst (run_alone net_empty_pages (reset "notslider" busy_world)
                (throttle "notslider"))) = clock busy_world /\
  clock (fst (run_alone net_empty_pages (resetAll busy_world)
                (throttle "notslider"))) = clock busy_world /\
  (forall other, other <> "notslider" ->
     lastRequest (reset "notslider" busy_world) !! other
     = lastRequest busy_world !! other).
Proof.
  apply (reset_lets_next_caller_through net_empty_pages busy_world "notslider"
           {| rpm := 60; delayMs := 1000 |}).
  - vm_compute. reflexivity.
  - vm_compute. discriminate.
Defined.

(* ================================================================== *)
(** * More on [NotSliderService] *)
(* ================================================================== *)

Lemma prefix_append_l p a b :
  String.prefix p a = true -> String.prefix p (a +:+ b) = true.
Proof.
  revert a. induction p as [|c p IH]; intros a Hp.
  - destruct (a +:+ b); reflexivity.
  - destruct a as [|c' a]; [discriminate|].
    rewrite append_cons. simpl in *.
    destruct (ascii_dec c c'); [apply IH, Hp | discriminate].
Qed.

Lemma includes_append_l needle before haystack :
  includes needle haystack = true ->
  includes needle (before +:+ haystack) = true.
Proof.
  intros Hinc. induction before as [|c before IH]; [exact Hinc|].
  rewrite append_cons, includes_unfold, IH. apply orb_true_r.
Qed.

Lemma append_truthy a b : truthy b = true -> truthy (a +:+ b) = true.
Proof. destruct a, b; try discriminate; reflexivity. Qed.

Section ExtractDownloadUrl.
Context {runtime : JsRuntime} {cheerio : Cheerio}.
Variable config : WorkerConfig.

Lemma slash_is_not_http h :
  String.prefix "/" h = true -> String.prefix "http" h = false.
Proof.
  destruct h as [|c h]; [discriminate|]. cbn [String.prefix].
  destruct (ascii_dec "/" c) as [<-|]; [|discriminate].
  intros _. reflexivity.
Qed.

Lemma first_valid_Some links u :
  first_valid config links = Some u ->
  exists a h,
    In a links /\ attr_href a = Some h /\ truthy h = true /\
    (u = h /\ String.prefix "http" h = true \/
     u = NOTSLIDER_BASE_URL config +:+ h /\ String.prefix "http" h = false).
Proof.
  induction links as [|a links IH]; [discriminate|]. simpl.
  destruct (attr_href a) as [h|] eqn:Hh.
  - destruct (truthy h) eqn:Ht; simpl.
    + destruct (String.prefix "/" h) eqn:Hslash.
      * rewrite orb_true_r. intros [= <-]. exists a, h.
        pose proof (slash_is_not_http h Hslash). auto 10.
      * rewrite orb_false_r. destruct (String.prefix "http" h) eqn:Hhttp.
        -- intros [= <-]. exists a, h. auto 10.
        -- intros Hrest. destruct (IH Hrest) as (a' & h' & ? & ?).
           exists a', h'. auto.
    + intros Hrest. destruct (IH Hrest) as (a' & h' & ? & ?). exists a', h'. auto.
  - intros Hrest. destruct (IH Hrest) as (a' & h' & ? & ?). exists a', h'. auto.
Qed.

(** X7: a URL that [extractDownloadUrl] returns comes from an anchor of
    the page whose [href] is not empty and contains [.mp3] or [download]:
    it is that [href] as it stands if the [href] starts with [http], and
    the [href] after [NOTSLIDER_BASE_URL] otherwise.  So the URL is never
    empty, and it starts with [http] or with [NOTSLIDER_BASE_URL]. *)
Theorem extractDownloadUrl_candidate html query u :
  extractDownloadUrl config html query = Some u ->
  (exists anchors a h,
     cheerio_anchors html = Some anchors /\
     In a anchors /\
     attr_href a = Some h /\
     truthy h = true /\
     (includes ".mp3" h = true \/ includes "download" h = true) /\
     (u = h /\ String.prefix "http" h = true \/
      u = NOTSLIDER_BASE_URL config +:+ h /\ String.prefix "http" h = false)) /\
  truthy u = true /\
  (String.prefix "http" u = true \/
   String.prefix (NOTSLIDER_BASE_URL config) u = true).
Proof.
  unfold extractDownloadUrl.
  destruct (cheerio_anchors html) as [anchors|]; [|discriminate].
  assert (Hshape : forall a h,
            In a anchors -> attr_href a = Some h -> truthy h = true ->
            (includes ".mp3" h = true \/ includes "download" h = true) ->
            (u = h /\ String.prefix "http" h = true \/
             u = NOTSLIDER_BASE_URL config +:+ h /\ String.prefix "http" h = false) ->
            (exists anchors' a' h',
               Some anchors = Some anchors' /\ In a' anchors' /\
               attr_href a' = Some h' /\ truthy h' = true /\
               (includes ".mp3" h' = true \/ includes "download" h' = true) /\
               (u = h' /\ String.prefix "http" h' = true \/
                u = NOTSLIDER_BASE_URL config +:+ h' /\
                String.prefix "http" h' = false)) /\
            truthy u = true /\
            (String.prefix "http" u = true \/
             String.prefix (NOTSLIDER_BASE_URL config) u = true)).
  { intros a h Hin Hh Ht Hinc Hu. split; [exists anchors, a, h; auto 10|].
    destruct Hu as [[-> Hhttp]|[-> _]]; [auto|].
    split; [apply append_truthy, Ht | right; apply prefix_append]. }
  destruct (first_valid config _) as [u1|] eqn:Hfirst.
  - intros [= <-].
    destruct (first_valid_Some _ _ Hfirst) as (a & h & Hin & Hh & Ht & Hu).
    apply filter_In in Hin as [Hin _]. apply filter_In in Hin as [Hin Hsel].
    unfold href_contains in Hsel. rewrite Hh in Hsel.
    apply orb_true_iff in Hsel.
    exact (Hshape a h Hin Hh Ht Hsel Hu).
  - destruct (List.filter (href_contains ".mp3") anchors) as [|first rest] eqn:Hmp3;
      [discriminate|].
    assert (In first (List.filter (href_contains ".mp3") anchors)) as Hin
      by (rewrite Hmp3; left; reflexivity).
    apply filter_In in Hin as [Hin Hsel]. unfold href_contains in Hsel.
    destruct (attr_href first) as [h|] eqn:Hh; [|discriminate].
    destruct (truthy h) eqn:Ht; [|discriminate].
    destruct (String.prefix "http" h) eqn:Hhttp; intros [= <-];
      apply (Hshape first h Hin Hh Ht); auto.
Qed.

(** X8: [extractDownloadUrl] returns [null] when the page cannot be
    parsed, and when no link of the page has an [href] that contains
    [.mp3] or [download]. *)
Theorem extractDownloadUrl_nothing html query :
  match cheerio_anchors html with
  | None => True
  | Some anchors =>
      forall a, In a anchors ->
        href_contains ".mp3" a = false /\ href_contains "download" a = false
  end ->
  extractDownloadUrl config html query = None.
Proof.
  unfold extractDownloadUrl.
  destruct (cheerio_anchors html) as [anchors|]; [|reflexivity].
  intros Hnone.
  assert (List.filter
            (fun a => (href_contains ".mp3" a || href_contains "download" a)%bool)
            anchors = []) as ->.
  { induction anchors as [|a anchors IH]; [reflexivity|]. simpl.
    destruct (Hnone a (or_introl eq_refl)) as [-> ->]. simpl.
    apply IH. intros a' Ha'. apply Hnone. right. exact Ha'. }
  assert (List.filter (href_contains ".mp3") anchors = []) as ->.
  { induction anchors as [|a anchors IH]; [reflexivity|]. simpl.
    destruct (Hnone a (or_introl eq_refl)) as [-> _].
    apply IH. intros a' Ha'. apply Hnone. right. exact Ha'. }
  reflexivity.
Qed.

End ExtractDownloadUrl.

Lemma extractDownloadUrl_candidate_witness :
  (exists anchors a h,
     cheerio_anchors (Cheerio := two_links_cheerio) "<html>" = Some anchors /\
     In a anchors /\
     attr_href a = Some h /\
     truthy h = true /\
     (includes ".mp3" h = true \/ includes "download" h = true) /\
     ("https://notslider.nl/files/glue.mp3" = h /\ String.prefix "http" h = true \/
      "https://notslider.nl/files/glue.mp3" = NOTSLIDER_BASE_URL default_config +:+ h /\
      String.prefix "http" h = false)) /\
  truthy "https://notslider.nl/files/glue.mp3" = true /\
  (String.prefix "http" "https://notslider.nl/files/glue.mp3" = true \/
   String.prefix (NOTSLIDER_BASE_URL default_config)
     "https://notslider.nl/files/glue.mp3" = true).
Proof.
  apply (extractDownloadUrl_candidate
           (runtime := plain_runtime) (cheerio := two_links_cheerio)
           default_config "<html>" "Bicep - Glue").
  vm_compute. reflexivity.
Defined.

Lemma extractDownloadUrl_nothing_witness :
  extractDownloadUrl (runtime := plain_runtime) (cheerio := no_links_cheerio)
    default_config "<html>" "Bicep - Glue" = None.
Proof.
  apply (extractDownloadUrl_nothing
           (runtime := plain_runtime) (cheerio := no_links_cheerio)).
  simpl. intros a [<-|[<-|[]]]; split; reflexivity.
Defined.

Lemma run_alone_ensures {R} good net (P : R -> Prop) Q (p : Async SysE R) :
  good_net good net ->
  forall w,
    ensures good P Q p ->
    match snd (run_alone net w p) with
    | Returned r => P r
    | Threw e => Q e
    end.
Proof.
  intros Hnet. induction p as [r|e|X ev k IH]; intros w Hp; simpl in *; auto.
  pose proof (perform_plausible good net Hnet ev w) as Hx.
  destruct (perform net ev w) as [w' [x|wake x]]; apply IH; auto.
Qed.

Lemma search_requests_app obs obs' :
  search_requests (obs ++ obs') = search_requests obs ++ search_requests obs'.
Proof.
  induction obs as [|[t o] obs IH]; [reflexivity|].
  simpl. destruct o as [[[] u]| | |]; simpl; congruence.
Qed.

Section SearchAlone.
Context {runtime : JsRuntime} {cheerio : Cheerio}.
Variable config : WorkerConfig.
Variable net : Net.

(** X9: [NotSliderService.search] never throws.  It returns a not-found
    result for the track it was given, with an error message, or a found
    result for that track with source [notslider], quality [320kbps],
    format [mp3] and a download URL. *)
Theorem NotSliderService_search_never_throws w t :
  exists r,
    snd (run_alone net w (NotSliderService_search config t)) = Returned r /\
    ((exists message, r = not_found t message) \/
     (exists finalUrl, r = found_on_notslider t finalUrl)).
Proof.
  pose proof (run_alone_ensures (fun _ => True) net
                (resolved_shape (fun _ => True) t) (fun _ => False)
                (NotSliderService_search config t) (fun _ => I) w
                (search_from_ensures config (fun _ => True) t _ retryAttempts 0%nat))
    as Hrun.
  destruct (snd (run_alone net w (NotSliderService_search config t))) as [r|e];
    [|destruct Hrun].
  exists r. split; [reflexivity|].
  destruct Hrun as [Hnot|(u & o & _ & _ & ->)]; [left; exact Hnot|].
  right. eexists. reflexivity.
Qed.


End SearchAlone.

(* ================================================================== *)
(** * More on [searchSingleTrack] *)
(* ================================================================== *)

(** X11: an exception thrown by a provider ends the waterfall for the
    track: the coordinator returns a not-found result whose error is
    ["Search failed: "] and the message of the exception, and it calls no
    provider after that one, even if one of them would have found the
    track. *)
Theorem provider_exception_ends_waterfall (fakes : Fakes) t p e :
  In (Searched p t) (fst (run_fakes fakes (searchSingleTrack_fakes t))) ->
  fakes p t = Threw e ->
  snd (run_fakes fakes (searchSingleTrack_fakes t))
  = Returned (not_found t ("Search failed: " +:+ error_message e)) /\
  forall q t', (priority p < priority q)%nat ->
    ~ In (Searched q t') (fst (run_fakes fakes (searchSingleTrack_fakes t))).
Proof.
  rewrite run_fakes_searchSingleTrack.
  intros Hin Hp.
  destruct (fakes NotSlider t) as [n|e1] eqn:Hn.
  2:{ simpl in Hin. destruct Hin as [|[Hin|[]]]; simplify_eq.
      assert (e = e1) as -> by congruence.
      split; [reflexivity|].
      intros q t' Hlt [|[Hq|[]]]; simplify_eq. simpl in Hlt. lia. }
  destruct (found n) eqn:Hfn.
  { simpl in Hin. destruct Hin as [|[Hin|[]]]; simplify_eq; congruence. }
  destruct (fakes SoundCloud t) as [s|e2] eqn:Hs.
  2:{ simpl in Hin. destruct Hin as [|[Hin|[|[Hin|[]]]]]; simplify_eq;
        [congruence|].
      assert (e = e2) as -> by congruence.
      split; [reflexivity|].
      intros q t' Hlt [|[Hq|[|[Hq|[]]]]]; simplify_eq; simpl in Hlt; lia. }
  destruct (found s) eqn:Hfs.
  { simpl in Hin. destruct Hin as [|[Hin|[|[Hin|[]]]]]; simplify_eq; congruence. }
  destruct (fakes YouTubeDl t) as [y|e3] eqn:Hy;
    simpl in Hin; destruct Hin as [|[Hin|[|[Hin|[Hin|[]]]]]]; simplify_eq;
    try congruence.
  assert (e = e3) as -> by congruence.
  split; [reflexivity|].
  intros q t' Hlt. destruct q; simpl in Hlt; lia.
Qed.

Lemma provider_exception_ends_waterfall_witness :
  snd (run_fakes fakes_first_throws (searchSingleTrack_fakes track_glue))
  = Returned (not_found track_glue
                ("Search failed: " +:+ error_message (JsError "socket hang up"))) /\
  forall q t', (priority NotSlider < priority q)%nat ->
    ~ In (Searched q t')
        (fst (run_fakes fakes_first_throws (searchSingleTrack_fakes track_glue))).
Proof.
  apply (provider_exception_ends_waterfall fakes_first_throws track_glue NotSlider).
  - right. left. reflexivity.
  - reflexivity.
Defined.

(** X12: whatever the providers do, [searchSingleTrack] returns and does
    not throw.  A found result is the result of a provider that was
    called, as that provider returned it; a result that is not found is
    a not-found result for the given track, with an error message. *)
Theorem searchSingleTrack_result (fakes : Fakes) t :
  exists r,
    snd (run_fakes fakes (searchSingleTrack_fakes t)) = Returned r /\
    (found r = true ->
     exists p,
       In (Searched p t) (fst (run_fakes fakes (searchSingleTrack_fakes t))) /\
       fakes p t = Returned r) /\
    (found r = false -> exists message, r = not_found t message).
Proof.
  rewrite run_fakes_searchSingleTrack.
  destruct (fakes NotSlider t) as [n|e] eqn:Hn.
  2:{ eexists. split; [reflexivity|]. split; [discriminate|]. eauto. }
  destruct (found n) eqn:Hfn.
  { exists n. split; [reflexivity|]. split; [|congruence].
    intros _. exists NotSlider. simpl. auto. }
  destruct (fakes SoundCloud t) as [s|e] eqn:Hs.
  2:{ eexists. split; [reflexivity|]. split; [discriminate|]. eauto. }
  destruct (found s) eqn:Hfs.
  { exists s. split; [reflexivity|]. split; [|congruence].
    intros _. exists SoundCloud. simpl. auto 6. }
  destruct (fakes YouTubeDl t) as [y|e] eqn:Hy.
  2:{ eexists. split; [reflexivity|]. split; [discriminate|]. eauto. }
  destruct (found y) eqn:Hfy.
  - exists y. split; [reflexivity|]. split; [|congruence].
    intros _. exists YouTubeDl. simpl. auto 8.
  - eexists. split; [reflexivity|].
    split; [discriminate|]. eauto.
Qed.

(** X13: the calls of one [searchSingleTrack] are a beginning, of at
    least two calls, of the sequence: throttle notslider, NotSlider,
    throttle soundcloud, SoundCloud, YouTube-dl.  So each provider is
    called at most once, for the given track, and in priority order. *)
Theorem searchSingleTrack_calls_in_order (fakes : Fakes) t :
  exists k : nat,
    (2 <= k)%nat /\
    fst (run_fakes fakes (searchSingleTrack_fakes t)) = take k (all_calls t).
Proof.
  rewrite run_fakes_searchSingleTrack.
  destruct (fakes NotSlider t) as [n|e]; [destruct (found n)|];
    [| destruct (fakes SoundCloud t) as [s|e]; [destruct (found s)|] |];
    [| | destruct (fakes YouTubeDl t) as [y|e] | |];
    first [ exists 2%nat; split; [lia|reflexivity]
          | exists 4%nat; split; [lia|reflexivity]
          | exists 5%nat; split; [lia|reflexivity] ].
Qed.

(* ================================================================== *)
(** * More on [calculateSummary] *)
(* ================================================================== *)

Lemma filter_found_split (results : list TrackSearchResult) :
  (length (filter (fun r => found r = true) results)
   + length (filter (fun r => found r = false) results))%nat = length results.
Proof.
  induction results as [|r rest IH]; [reflexivity|].
  rewrite !filter_cons.
  destruct (decide (found r = true)) as [Ht|Ht], (decide (found r = false)) as [Hf|Hf];
    simpl; try lia.
  - congruence.
  - destruct (found r); congruence.
Qed.

(** X14: in the summary, [totalTracks] is the number of results and is
    the sum of [foundTracks] and [failedTracks]. *)
Theorem summary_totals results processingTime :
  totalTracks (calculateSummary results processingTime) = length results /\
  (foundTracks (calculateSummary results processingTime)
   + failedTracks (calculateSummary results processingTime))%nat
  = totalTracks (calculateSummary results processingTime).
Proof.
  unfold calculateSummary. cbn [totalTracks foundTracks failedTracks].
  split; [reflexivity | apply filter_found_split].
Qed.

Lemma filter_bool_length {A} (f : A -> bool) (r : A) (rs : list A) :
  length (filter (fun x => f x = true) (r :: rs))
  = ((if f r then 1 else 0) + length (filter (fun x => f x = true) rs))%nat.
Proof.
  rewrite filter_cons.
  destruct (decide (f r = true)) as [Ht|Ht].
  - rewrite Ht. reflexivity.
  - destruct (f r); [congruence | reflexivity].
Qed.

Lemma source_counts (rs : list TrackSearchResult) :
  (length (filter (fun r => has_source Source_notslider r = true) rs)
   + length (filter (fun r => has_source Source_soundcloud r = true) rs)
   + length (filter (fun r => has_source Source_youtube r = true) rs)
   <= length rs)%nat /\
  ((forall r, In r rs -> is_Some (source r)) ->
   (length (filter (fun r => has_source Source_notslider r = true) rs)
    + length (filter (fun r => has_source Source_soundcloud r = true) rs)
    + length (filter (fun r => has_source Source_youtube r = true) rs))%nat
   = length rs).
Proof.
  induction rs as [|r rs [IHle IHeq]]; [split; reflexivity|].
  rewrite !(filter_bool_length (has_source _)).
  remember (length (filter (fun r => has_source Source_notslider r = true) rs)) as a.
  remember (length (filter (fun r => has_source Source_soundcloud r = true) rs)) as b.
  remember (length (filter (fun r => has_source Source_youtube r = true) rs)) as c.
  unfold has_source. cbn [length].
  split.
  - destruct (source r) as [[]|]; cbn [Source_eqb]; lia.
  - intros Hall.
    specialize (IHeq (fun r' Hr' => Hall r' (or_intror Hr'))).
    destruct (Hall r (or_introl eq_refl)) as [s Hs]. rewrite Hs.
    destruct s; cbn [Source_eqb]; lia.
Qed.

(** X15: the per-source counts of the summary never add up to more than
    [foundTracks], and they add up to [foundTracks] when every found
    result has a source. *)
Theorem summary_sources results processingTime :
  (notslider (sourcesUsed (calculateSummary results processingTime))
   + soundcloud (sourcesUsed (calculateSummary results processingTime))
   + youtube (sourcesUsed (calculateSummary results processingTime))
   <= foundTracks (calculateSummary results processingTime))%nat /\
  ((forall r, In r results -> found r = true -> is_Some (source r)) ->
   (notslider (sourcesUsed (calculateSummary results processingTime))
    + soundcloud (sourcesUsed (calculateSummary results processingTime))
    + youtube (sourcesUsed (calculateSummary results processingTime)))%nat
   = foundTracks (calculateSummary results processingTime)).
Proof.
  unfold calculateSummary.
  cbn [sourcesUsed notslider soundcloud youtube foundTracks].
  destruct (source_counts (filter (fun r => found r = true) results)) as [Hle Heq].
  split; [exact Hle|].
  intros Hall. apply Heq. intros r Hr.
  apply list_elem_of_In, list_elem_of_filter in Hr as [Hf Hr].
  apply Hall; [apply list_elem_of_In, Hr | exact Hf].
Qed.

Lemma summary_sources_witness :
  (notslider (sourcesUsed (calculateSummary six_results 4200))
   + soundcloud (sourcesUsed (calculateSummary six_results 4200))
   + youtube (sourcesUsed (calculateSummary six_results 4200)))%nat
  = foundTracks (calculateSummary six_results 4200).
Proof.
  destruct (summary_sources six_results 4200) as [_ Heq].
  apply Heq. intros r Hr Hf. simpl in Hr.
  destruct Hr as [<-|[<-|[<-|[<-|[<-|[<-|[]]]]]]]; try discriminate; eexists; reflexivity.
Defined.

Lemma Quality_eqb_eq (a b : Quality) : Quality_eqb a b = true <-> a = b.
Proof. destruct a, b; simpl; split; intros H; congruence. Qed.

Lemma Quality_eqb_neq (a b : Quality) : Quality_eqb a b = false <-> a <> b.
Proof. destruct a, b; simpl; split; intros H; congruence. Qed.

Lemma tally_count_tally acc q q' :
  tally_count (tally acc q) q'
  = if Quality_eqb q q' then S (tally_count acc q') else tally_count acc q'.
Proof.
  induction acc as [|[k n] rest IH]; cbn [tally tally_count].
  - destruct (Quality_eqb q q'); reflexivity.
  - destruct (Quality_eqb k q) eqn:Hkq; cbn [tally_count].
    + apply Quality_eqb_eq in Hkq as ->.
      destruct (Quality_eqb q q'); reflexivity.
    + destruct (Quality_eqb k q') eqn:Hkq'; [|exact IH].
      apply Quality_eqb_eq in Hkq' as ->.
      destruct (Quality_eqb q q') eqn:Hqq; [|reflexivity].
      apply Quality_eqb_eq in Hqq as ->.
      destruct q'; discriminate.
Qed.

Lemma tally_count_fold qs : forall acc q,
  tally_count (fold_left tally qs acc) q
  = (tally_count acc q + occurrences q qs)%nat.
Proof.
  induction qs as [|q0 qs IH]; intros acc q; cbn [fold_left occurrences].
  - lia.
  - rewrite IH, tally_count_tally.
    destruct (Quality_eqb q0 q); lia.
Qed.

Lemma tally_count_in acc q :
  tally_count acc q = O \/ In (q, tally_count acc q) acc.
Proof.
  induction acc as [|[k n] rest IH]; cbn [tally_count]; [left; reflexivity|].
  destruct (Quality_eqb k q) eqn:Hkq.
  - apply Quality_eqb_eq in Hkq as ->. right. left. reflexivity.
  - destruct IH as [IH|IH]; [left; exact IH | right; right; exact IH].
Qed.

Lemma tally_count_nodup acc : forall q n,
  NoDup (map fst acc) -> In (q, n) acc -> tally_count acc q = n.
Proof.
  induction acc as [|[k m] rest IH]; intros q n Hnd Hin; [destruct Hin|].
  cbn [tally_count]. cbn [map fst] in Hnd.
  apply NoDup_cons in Hnd as [Hk Hnd].
  destruct Hin as [Heq|Hin].
  - injection Heq as -> ->.
    destruct (Quality_eqb q q) eqn:Hqq; [reflexivity|].
    apply Quality_eqb_neq in Hqq. congruence.
  - destruct (Quality_eqb k q) eqn:Hkq; [|apply IH; assumption].
    apply Quality_eqb_eq in Hkq as ->.
    exfalso. apply Hk. apply list_elem_of_In.
    apply (in_map fst) in Hin. exact Hin.
Qed.

(** The keys of a tally only grow at the end. *)
Lemma tally_keys acc q :
  (In q (map fst acc) /\ map fst (tally acc q) = map fst acc) \/
  (~ In q (map fst acc) /\ map fst (tally acc q) = map fst acc ++ [q]).
Proof.
  induction acc as [|[k n] rest IH]; cbn [tally map fst].
  - right. split; [intros [] | reflexivity].
  - destruct (Quality_eqb k q) eqn:Hkq; cbn [map fst].
    + apply Quality_eqb_eq in Hkq as ->.
      left. split; [left; reflexivity | reflexivity].
    + apply Quality_eqb_neq in Hkq.
      destruct IH as [[Hin ->]|[Hin ->]].
      * left. split; [right; exact Hin | reflexivity].
      * right. split; [|reflexivity].
        intros [Heq|Hin']; [congruence | contradiction].
Qed.

Lemma tally_keys_nodup acc q :
  NoDup (map fst acc) -> NoDup (map fst (tally acc q)).
Proof.
  intros Hnd. destruct (tally_keys acc q) as [[_ ->]|[Hin ->]]; [exact Hnd|].
  apply NoDup_app. split; [exact Hnd|]. split; [|apply NoDup_singleton].
  intros x Hx Hx'. apply list_elem_of_singleton in Hx' as ->.
  apply Hin, list_elem_of_In, Hx.
Qed.

Lemma tally_keys_fold qs : forall acc,
  NoDup (map fst acc) ->
  exists newer,
    map fst (fold_left tally qs acc) = map fst acc ++ newer /\
    NoDup (map fst acc ++ newer) /\
    (forall k, In k newer -> In k qs) /\
    (forall k, In k qs -> In k (map fst acc ++ newer)).
Proof.
  induction qs as [|q qs IH]; intros acc Hnd; cbn [fold_left].
  - exists []. rewrite app_nil_r. repeat split; [exact Hnd | intros k [] | intros k []].
  - destruct (IH _ (tally_keys_nodup acc q Hnd)) as (newer & Hk & Hn & Hsub & Hall).
    destruct (tally_keys acc q) as [[Hin Hq]|[Hin Hq]]; rewrite Hq in Hk, Hn, Hall.
    + exists newer. repeat split; [exact Hk | exact Hn | |].
      * intros k Hk'. right. apply Hsub, Hk'.
      * intros k [<-|Hk']; [apply in_or_app; left; exact Hin | apply Hall, Hk'].
    + exists (q :: newer). rewrite <- app_assoc in Hk, Hn, Hall. cbn [app] in Hk, Hn, Hall.
      repeat split; [exact Hk | exact Hn | |].
      * intros k [<-|Hk']; [left; reflexivity | right; apply Hsub, Hk'].
      * intros k [<-|Hk']; [apply in_or_app; right; left; reflexivity | apply Hall, Hk'].
Qed.

(** [reduce] with [more_frequent] returns the last of the entries with
    the largest count. *)
Lemma more_frequent_fold others : forall first,
  exists pre post,
    first :: others = pre ++ fold_left more_frequent others first :: post /\
    (forall x, In x pre -> (snd x <= snd (fold_left more_frequent others first))%nat) /\
    (forall x, In x post -> (snd x < snd (fold_left more_frequent others first))%nat).
Proof.
  induction others as [|b others IH] using rev_ind; intros first.
  - exists [], []. cbn [fold_left app]. repeat split; intros x [].
  - rewrite fold_left_app. cbn [fold_left].
    destruct (IH first) as (pre & post & Heq & Hpre & Hpost).
    set (m := fold_left more_frequent others first) in *.
    unfold more_frequent. destruct (snd b <? snd m)%nat eqn:Hlt.
    + apply Nat.ltb_lt in Hlt.
      exists pre, (post ++ [b]).
      rewrite app_comm_cons, Heq, <- app_assoc. cbn [app].
      repeat split; [exact Hpre|].
      intros x Hx. apply in_app_or in Hx as [Hx|[<-|[]]]; [apply Hpost, Hx | exact Hlt].
    + apply Nat.ltb_ge in Hlt.
      exists (first :: others), [].
      repeat split; [|intros x []].
      intros x Hx. rewrite Heq in Hx.
      apply in_app_or in Hx as [Hx|[<-|Hx]].
      * specialize (Hpre x Hx). lia.
      * exact Hlt.
      * specialize (Hpost x Hx). lia.
Qed.

Lemma split_at_unique {A} (x : A) : forall l1 l2 l3 l4,
  l1 ++ x :: l2 = l3 ++ x :: l4 -> NoDup (l1 ++ x :: l2) -> l2 = l4.
Proof.
  induction l1 as [|a l1 IH]; intros l2 l3 l4 Heq Hnd.
  - destruct l3 as [|b l3]; cbn [app] in *.
    + congruence.
    + injection Heq as <- ->.
      apply NoDup_cons in Hnd as [Hx _].
      exfalso. apply Hx. apply list_elem_of_In, in_or_app. right. left. reflexivity.
  - destruct l3 as [|b l3]; cbn [app] in *.
    + injection Heq as -> <-.
      apply NoDup_cons in Hnd as [Hx _].
      exfalso. apply Hx. apply list_elem_of_In, in_or_app. right. left. reflexivity.
    + injection Heq as <- Heq.
      apply NoDup_cons in Hnd as [_ Hnd].
      exact (IH _ _ _ Heq Hnd).
Qed.

Lemma averageQuality_unfold results processingTime :
  averageQuality (calculateSummary results processingTime)
  = match fold_left tally (found_qualities results) [] with
    | first :: others => fst (fold_left more_frequent others first)
    | [] => Qunknown
    end.
Proof. reflexivity. Qed.

(** X16: [averageQuality] is a most frequent quality of the found
    results: no quality occurs more often among them than the reported
    one, and the reported one does occur.  It is ['unknown'] when no found
    result has a quality. *)
Theorem averageQuality_is_a_mode results processingTime :
  (found_qualities results = [] ->
   averageQuality (calculateSummary results processingTime) = Qunknown) /\
  (found_qualities results <> [] ->
   In (averageQuality (calculateSummary results processingTime)) (found_qualities results) /\
   forall q,
     (occurrences q (found_qualities results)
      <= occurrences (averageQuality (calculateSummary results processingTime))
           (found_qualities results))%nat).
Proof.
  rewrite averageQuality_unfold.
  set (qs := found_qualities results).
  split; [intros ->; reflexivity|].
  intros Hne.
  destruct (tally_keys_fold qs [] (NoDup_nil_2)) as (newer & Hkeys & Hnd & Hsub & Hall).
  cbn [map app] in Hkeys, Hnd, Hall.
  assert (Hcount : forall q, tally_count (fold_left tally qs []) q = occurrences q qs).
  { intros q. rewrite tally_count_fold. reflexivity. }
  rewrite <- Hkeys in Hnd.
  destruct (fold_left tally qs []) as [|first others] eqn:HT.
  { destruct qs as [|q0 qs']; [congruence|].
    specialize (Hall q0 (or_introl eq_refl)). rewrite <- Hkeys in Hall. destruct Hall. }
  destruct (more_frequent_fold others first) as (pre & post & Heq & Hpre & Hpost).
  set (m := fold_left more_frequent others first) in *.
  assert (Hm : In m (first :: others)).
  { rewrite Heq. apply in_or_app. right. left. reflexivity. }
  assert (Hmc : occurrences (fst m) qs = snd m).
  { rewrite <- Hcount. apply tally_count_nodup; [exact Hnd|]. destruct m; exact Hm. }
  split.
  - apply Hsub. rewrite <- Hkeys. apply in_map, Hm.
  - intros q. rewrite Hmc, <- Hcount.
    destruct (tally_count_in (first :: others) q) as [->|Hin]; [lia|].
    remember (tally_count (first :: others) q) as c eqn:Hc. clear Hc.
    rewrite Heq in Hin.
    apply in_app_or in Hin as [Hin|[Hin|Hin]].
    + apply (Hpre _ Hin).
    + rewrite Hin. cbn [snd]. lia.
    + specialize (Hpost _ Hin). cbn [snd] in Hpost. lia.
Qed.

Lemma averageQuality_is_a_mode_witness :
  averageQuality (calculateSummary six_results 4200) = Q320kbps /\
  (occurrences Q256kbps (found_qualities six_results)
   <= occurrences (averageQuality (calculateSummary six_results 4200))
        (found_qualities six_results))%nat.
Proof.
  split; [reflexivity|].
  destruct (averageQuality_is_a_mode six_results 4200) as [_ Hmode].
  apply Hmode. discriminate.
Defined.

(** X17: of two qualities that occur equally often among the found
    results, the one that is seen first is never the reported
    [averageQuality]: the comparison of [reduce] is strict ([>]) and keeps
    the later entry on a tie. *)
Theorem averageQuality_tie_goes_to_later_quality
    results processingTime (q1 q2 : Quality) (before after : list Quality) :
  found_qualities results = before ++ q1 :: after ->
  ~ In q1 before -> ~ In q2 before -> q1 <> q2 -> In q2 after ->
  occurrences q1 (found_qualities results) = occurrences q2 (found_qualities results) ->
  averageQuality (calculateSummary results processingTime) <> q1.
Proof.
  intros Hqs Hq1 Hq2 Hne Hin2 Htie.
  rewrite averageQuality_unfold.
  assert (Hcount : forall q, tally_count (fold_left tally (found_qualities results) []) q
                             = occurrences q (found_qualities results)).
  { intros q. rewrite tally_count_fold. reflexivity. }
  rewrite Hqs in *. clear Hqs.
  rewrite fold_left_app in *. cbn [fold_left] in *.
  destruct (tally_keys_fold before [] (NoDup_nil_2)) as (ka & Hka & Hnda & Hsuba & _).
  cbn [map app] in Hka, Hnda.
  set (Ta := fold_left tally before []) in *.
  assert (Hq1a : ~ In q1 (map fst Ta)) by (rewrite Hka; intros H; apply Hq1, Hsuba, H).
  assert (Hq2a : ~ In q2 (map fst Ta)) by (rewrite Hka; intros H; apply Hq2, Hsuba, H).
  assert (Hk1 : map fst (tally Ta q1) = map fst Ta ++ [q1]).
  { destruct (tally_keys Ta q1) as [[Hin _]|[_ Hk]]; [contradiction | exact Hk]. }
  assert (Hnd1 : NoDup (map fst (tally Ta q1))).
  { apply tally_keys_nodup. rewrite Hka. exact Hnda. }
  destruct (tally_keys_fold after _ Hnd1) as (kb & Hkb & Hndb & _ & Hallb).
  rewrite Hk1, <- app_assoc in Hkb, Hndb, Hallb. cbn [app] in Hkb, Hndb, Hallb.
  assert (Hq2b : In q2 kb).
  { specialize (Hallb q2 Hin2).
    apply in_app_or in Hallb as [H|[H|H]]; [contradiction | congruence | exact H]. }
  set (T := fold_left tally after (tally Ta q1)) in *.
  destruct T as [|first others] eqn:HT.
  { destruct (map fst Ta); discriminate Hkb. }
  destruct (more_frequent_fold others first) as (pre & post & Heq & Hpre & Hpost).
  set (m := fold_left more_frequent others first) in *.
  intros Hm.
  assert (Hkeys : map fst pre ++ q1 :: map fst post = map fst Ta ++ q1 :: kb).
  { rewrite <- Hkb, Heq, map_app. cbn [map]. rewrite Hm. reflexivity. }
  assert (Hpostk : map fst post = kb).
  { apply (split_at_unique q1 _ _ _ _ Hkeys). rewrite Hkeys. exact Hndb. }
  rewrite <- Hpostk in Hq2b.
  apply in_map_iff in Hq2b as ([k n] & Hk & Hin). cbn [fst] in Hk. subst k.
  specialize (Hpost _ Hin). cbn [snd] in Hpost.
  assert (Hnd : NoDup (map fst (first :: others))) by (rewrite Hkb; exact Hndb).
  assert (Hc2 : tally_count (first :: others) q2 = n).
  { apply tally_count_nodup; [exact Hnd|]. rewrite Heq. apply in_or_app. right. right. exact Hin. }
  assert (Hc1 : tally_count (first :: others) q1 = snd m).
  { apply tally_count_nodup; [exact Hnd|]. rewrite Heq. apply in_or_app. right. left.
    destruct m as [k c]. cbn [fst] in Hm. subst k. reflexivity. }
  rewrite !Hcount in *. lia.
Qed.

Lemma averageQuality_tie_goes_to_later_quality_witness :
  averageQuality (calculateSummary tied_results 4200) <> Q320kbps.
Proof.
  apply (averageQuality_tie_goes_to_later_quality tied_results 4200
           Q320kbps Q128kbps [] [Q128kbps]).
  - reflexivity.
  - intros [].
  - intros [].
  - discriminate.
  - left. reflexivity.
  - reflexivity.
Defined.

(* ================================================================== *)
(** * More on [LLMService.validateAndTransform] *)
(* ================================================================== *)

Section ValidateAndTransform.
Context {runtime : JsRuntime}.

Lemma transformItem_made_from item position t :
  transformItem item position = Returned t -> made_from item t.
Proof.
  unfold transformItem, made_from. intros Ht.
  destruct (property item "index") as [[[| | i | | |]|]|] eqn:Hi; try discriminate;
    destruct (property item "artist") as [[[| | | a | |]|]|] eqn:Ha; try discriminate;
    destruct (property item "title") as [[[| | | ti | |]|]|] eqn:Hti; try discriminate;
    destruct (property item "certainty") as [c|]; try discriminate;
    destruct (property item "remixInfo") as [r|]; try discriminate.
  injection Ht as <-. exists i, a, ti. cbn. repeat split; reflexivity.
Qed.

Lemma transformItem_required item position :
  match transformItem item position with
  | Returned _ => has_required_fields item = true
  | Threw e => has_required_fields item = false /\ e = item_error item position
  end.
Proof.
  unfold transformItem, has_required_fields, item_error.
  destruct item as [| b | x | s | items | members]; cbn [property];
    try (split; reflexivity).
  destruct (member "index" members) as [[| | i | | |]|];
    destruct (member "artist" members) as [[| | | a | |]|];
    destruct (member "title" members) as [[| | | ti | |]|];
    try (split; reflexivity); reflexivity.
Qed.

Lemma transformItems_made_from items : forall position ts,
  transformItems items position = Returned ts ->
  Forall2 made_from items ts.
Proof.
  induction items as [|item rest IH]; intros position ts Hts; cbn [transformItems] in Hts.
  - injection Hts as <-. constructor.
  - destruct (transformItem item position) as [t|e] eqn:Ht; [|discriminate].
    destruct (transformItems rest (S position)) as [ts'|e] eqn:Hrest; [|discriminate].
    injection Hts as <-. constructor; [exact (transformItem_made_from _ _ _ Ht) | eauto].
Qed.

Lemma transformItems_all_required items : forall position,
  Forall (fun item => has_required_fields item = true) items ->
  exists ts, transformItems items position = Returned ts.
Proof.
  induction items as [|item rest IH]; intros position Hall; cbn [transformItems].
  - eexists. reflexivity.
  - apply Forall_cons in Hall as [Hitem Hrest].
    pose proof (transformItem_required item position) as Hr.
    destruct (transformItem item position) as [t|e]; [|destruct Hr; congruence].
    destruct (IH (S position) Hrest) as [ts ->]. eexists. reflexivity.
Qed.

Lemma transformItems_first_bad good : forall position bad rest,
  Forall (fun item => has_required_fields item = true) good ->
  has_required_fields bad = false ->
  transformItems (good ++ bad :: rest) position
  = Threw (item_error bad (position + length good)).
Proof.
  induction good as [|item good IH]; intros position bad rest Hgood Hbad;
    cbn [app transformItems length].
  - pose proof (transformItem_required bad position) as Hr.
    destruct (transformItem bad position) as [t|e]; [congruence|].
    destruct Hr as [_ ->]. rewrite Nat.add_0_r. reflexivity.
  - apply Forall_cons in Hgood as [Hitem Hgood].
    pose proof (transformItem_required item position) as Hr.
    destruct (transformItem item position) as [t|e]; [|destruct Hr; congruence].
    rewrite (IH (S position) bad rest Hgood Hbad).
    replace (S position + length good)%nat with (position + S (length good))%nat by lia.
    reflexivity.
Qed.

Lemma transformItems_required items : forall position ts,
  transformItems items position = Returned ts ->
  Forall (fun item => has_required_fields item = true) items.
Proof.
  induction items as [|item rest IH]; intros position ts Hts; cbn [transformItems] in Hts.
  - constructor.
  - pose proof (transformItem_required item position) as Hr.
    destruct (transformItem item position) as [t|e]; [|discriminate].
    destruct (transformItems rest (S position)) as [ts'|e] eqn:Hrest; [|discriminate].
    constructor; [exact Hr | eauto].
Qed.

(** X18: the tracks that [validateAndTransform] returns are the items of
    the reply, one track per item and in the order of the items; each
    track has the [index] of its item, [original] is the item's artist and
    title joined by [" - "], and artist and title are the cleaned
    fields. *)
Theorem validateAndTransform_keeps_items rawResponse ts :
  validateAndTransform rawResponse = Returned ts ->
  exists items,
    rawResponse = JArray items /\
    length ts = length items /\
    Forall2 made_from items ts.
Proof.
  intros Hts.
  destruct rawResponse as [| | | | items |]; try discriminate.
  cbn [validateAndTransform] in Hts.
  apply transformItems_made_from in Hts.
  exists items. split; [reflexivity|]. split; [|exact Hts].
  symmetry. exact (Forall2_length _ _ _ Hts).
Qed.

(** X19: [validateAndTransform] returns exactly for an array whose every
    item has a number as [index] and strings as [artist] and [title];
    [certainty] and [remixInfo] never make it fail. *)
Theorem validateAndTransform_returns_iff rawResponse :
  (exists ts, validateAndTransform rawResponse = Returned ts) <->
  (exists items,
     rawResponse = JArray items /\
     Forall (fun item => has_required_fields item = true) items).
Proof.
  split.
  - intros [ts Hts].
    destruct rawResponse as [| | | | items |]; try discriminate.
    exists items. split; [reflexivity|].
    exact (transformItems_required _ _ _ Hts).
  - intros (items & -> & Hall).
    exact (transformItems_all_required items 0 Hall).
Qed.

(** X20: when an item lacks a required field, the error is that of the
    first such item: a [ServiceError] with its position in the message,
    not retryable, or the [TypeError] of reading [index] of [null]. *)
Theorem validateAndTransform_reports_first_bad_item (good : list Json) bad rest :
  Forall (fun item => has_required_fields item = true) good ->
  has_required_fields bad = false ->
  validateAndTransform (JArray (good ++ bad :: rest))
  = Threw (item_error bad (length good)).
Proof.
  intros Hgood Hbad. cbn [validateAndTransform].
  exact (transformItems_first_bad good 0 bad rest Hgood Hbad).
Qed.

End ValidateAndTransform.

Lemma validateAndTransform_keeps_items_witness :
  exists ts items,
    validateAndTransform (runtime := plain_runtime) llm_reply = Returned ts /\
    llm_reply = JArray items /\
    length ts = length items /\
    Forall2 (made_from (runtime := plain_runtime)) items ts.
Proof.
  eexists.
  destruct (validateAndTransform_keeps_items (runtime := plain_runtime) llm_reply _ eq_refl)
    as (items & Heq & Hlen & Hall).
  exists items. split; [reflexivity|]. split; [exact Heq|]. split; [exact Hlen | exact Hall].
Defined.

Lemma validateAndTransform_reports_first_bad_item_witness :
  validateAndTransform (runtime := plain_runtime) (JArray llm_reply_third_bad)
  = Threw (ServiceError LLM_PARSE_FAILED
             "Invalid track data at index 2: missing required fields" false).
Proof.
  apply (validateAndTransform_reports_first_bad_item (runtime := plain_runtime)
           (take 2 llm_reply_third_bad)
           (JObject [ ("index", JNumber 3); ("artist", JString "Bicep") ])
           [ JObject [ ("index", JNumber 4) ] ]).
  - repeat constructor.
  - reflexivity.
Defined.

(* ------------------------------------------------------------------ *)
(** ** The range of the certainty *)

Lemma SFcompare_antisym (x y : SpecFloat.spec_float) :
  SpecFloat.SFcompare y x = option_map CompOpp (SpecFloat.SFcompare x y).
Proof.
  destruct x as [sx|sx| |sx mx ex], y as [sy|sy| |sy my ey]; cbn;
    try reflexivity;
    try (destruct sx; reflexivity); try (destruct sy; reflexivity);
    try (destruct sx, sy; reflexivity).
  destruct sx, sy; try reflexivity.
  - rewrite (Z.compare_antisym ey ex).
    destruct (ey ?= ex)%Z; cbn; try reflexivity.
    rewrite (Pos.compare_cont_antisym mx my Eq). reflexivity.
  - rewrite (Z.compare_antisym ey ex).
    destruct (ey ?= ex)%Z; cbn; try reflexivity.
    rewrite (Pos.compare_cont_antisym mx my Eq). cbn.
    destruct (Pos.compare_cont Eq mx my); reflexivity.
Qed.

Lemma ltb_asym (a b : float) :
  PrimFloat.ltb a b = true -> PrimFloat.ltb b a = false.
Proof.
  rewrite !ltb_spec. unfold SpecFloat.SFltb.
  rewrite (SFcompare_antisym (Prim2SF a) (Prim2SF b)).
  destruct (SpecFloat.SFcompare (Prim2SF a) (Prim2SF b)) as [[]|]; cbn; congruence.
Qed.

Lemma Math_min_at_most_1 (c : float) :
  PrimFloat.ltb 1 (Math_min 1 c) = false.
Proof.
  unfold Math_min.
  destruct (PrimFloat.is_nan 1 || PrimFloat.is_nan c)%bool; [reflexivity|].
  destruct (PrimFloat.ltb 1 c) eqn:H1; [reflexivity|].
  destruct (PrimFloat.ltb c 1) eqn:H2; [exact H1|].
  change (PrimFloat.get_sign 1) with false. cbv iota. exact H1.
Qed.

Lemma Math_max_at_least_0 (m : float) :
  PrimFloat.ltb 1 m = false ->
  PrimFloat.ltb (Math_max 0 m) 0 = false /\ PrimFloat.ltb 1 (Math_max 0 m) = false.
Proof.
  intros Hm. unfold Math_max.
  destruct (PrimFloat.is_nan 0 || PrimFloat.is_nan m)%bool; [split; reflexivity|].
  destruct (PrimFloat.ltb 0 m) eqn:H1; [split; [apply ltb_asym, H1 | exact Hm]|].
  destruct (PrimFloat.ltb m 0) eqn:H2; [split; reflexivity|].
  change (PrimFloat.get_sign 0) with false. cbv iota. split; reflexivity.
Qed.

Lemma transformItem_certainty {runtime : JsRuntime} item position t :
  transformItem item position = Returned t ->
  PrimFloat.ltb (certainty t) 0 = false /\ PrimFloat.ltb 1 (certainty t) = false.
Proof.
  unfold transformItem. intros Ht.
  destruct (property item "index") as [[[| | i | | |]|]|]; try discriminate;
    destruct (property item "artist") as [[[| | | a | |]|]|]; try discriminate;
    destruct (property item "title") as [[[| | | ti | |]|]|]; try discriminate;
    destruct (property item "certainty") as [c|]; try discriminate;
    destruct (property item "remixInfo") as [r|]; try discriminate.
  injection Ht as <-. cbn [certainty].
  destruct c as [[| | c | | |]|]; try (split; reflexivity).
  apply Math_max_at_least_0, Math_min_at_most_1.
Qed.

(** X21: no track that [validateAndTransform] returns has a certainty
    below 0 or above 1, whatever number the reply gives. *)
Theorem validateAndTransform_clamps_certainty {runtime : JsRuntime} rawResponse ts t :
  validateAndTransform rawResponse = Returned ts ->
  In t ts ->
  PrimFloat.ltb (certainty t) 0 = false /\ PrimFloat.ltb 1 (certainty t) = false.
Proof.
  intros Hts Hin.
  destruct rawResponse as [| | | | items |]; try discriminate.
  cbn [validateAndTransform] in Hts.
  revert ts Hts Hin. generalize 0%nat.
  induction items as [|item rest IH]; intros position ts Hts Hin; cbn [transformItems] in Hts.
  - injection Hts as <-. destruct Hin.
  - destruct (transformItem item position) as [t0|e] eqn:Ht; [|discriminate].
    destruct (transformItems rest (S position)) as [ts'|e] eqn:Hrest; [|discriminate].
    injection Hts as <-. destruct Hin as [<-|Hin].
    + exact (transformItem_certainty _ _ _ Ht).
    + exact (IH _ _ Hrest Hin).
Qed.

Lemma validateAndTransform_clamps_certainty_witness :
  exists t,
    validateAndTransform (runtime := plain_runtime) llm_reply_overconfident = Returned [t] /\
    certainty t = 1%float /\
    PrimFloat.ltb (certainty t) 0 = false /\ PrimFloat.ltb 1 (certainty t) = false.
Proof.
  eexists. split; [reflexivity|]. split; [reflexivity|].
  apply (validateAndTransform_clamps_certainty (runtime := plain_runtime)
           llm_reply_overconfident _ _ eq_refl).
  left. reflexivity.
Defined.

(* ================================================================== *)
(** * [split], [join] and the skip-LLM conversion *)
(* ================================================================== *)

Lemma prefix_split p : forall s,
  String.prefix p s = true -> exists rest, s = p +:+ rest.
Proof.
  induction p as [|c p IH]; intros s Hp.
  - exists s. reflexivity.
  - destruct s as [|c' s]; [discriminate|]. simpl in Hp.
    destruct (ascii_dec c c') as [<-|]; [|discriminate].
    destruct (IH s Hp) as [rest ->]. exists rest. reflexivity.
Qed.

Lemma length_append (a b : string) :
  String.length (a +:+ b) = (String.length a + String.length b)%nat.
Proof.
  induction a as [|c a IH]; [reflexivity|].
  rewrite append_cons. cbn [String.length]. rewrite IH. reflexivity.
Qed.

Lemma split_go_skip sep p : forall cur s,
  split_go sep (String.length p) cur (p +:+ s) = split_go sep 0 cur s.
Proof.
  induction p as [|c p IH]; intros cur s; [reflexivity|].
  rewrite append_cons. cbn [String.length split_go]. apply IH.
Qed.

Lemma split_go_cons sep c0 sep' cur c s :
  sep = String c0 sep' ->
  split_go sep 0 cur (String c s)
  = if String.prefix sep (String c s)
    then cur :: split_go sep (String.length sep') "" s
    else split_go sep 0 (cur +:+ String c "") s.
Proof.
  intros ->. cbn [split_go String.length].
  replace (S (String.length sep') - 1)%nat with (String.length sep') by lia.
  reflexivity.
Qed.

Lemma split_go_nonempty sep s : forall skip cur, split_go sep skip cur s <> [].
Proof.
  induction s as [|c s IH]; intros skip cur; cbn [split_go]; [discriminate|].
  destruct skip; [|apply IH].
  destruct (String.prefix sep (String c s)); [discriminate | apply IH].
Qed.

Lemma join_cons sep x (parts : list string) :
  parts <> [] -> join sep (x :: parts) = x +:+ sep +:+ join sep parts.
Proof. destruct parts; [congruence | reflexivity]. Qed.

Lemma join_split_go sep c0 sep' :
  sep = String c0 sep' ->
  forall n s, (String.length s <= n)%nat ->
  forall cur, join sep (split_go sep 0 cur s) = cur +:+ s.
Proof.
  intros Hsep. induction n as [|n IH]; intros s Hlen cur.
  - destruct s; [|cbn [String.length] in Hlen; lia].
    cbn [split_go]. rewrite append_nil_r. reflexivity.
  - destruct s as [|c s].
    { cbn [split_go]. rewrite append_nil_r. reflexivity. }
    cbn [String.length] in Hlen.
    rewrite (split_go_cons sep c0 sep' cur c s Hsep).
    destruct (String.prefix sep (String c s)) eqn:Hp.
    + destruct (prefix_split _ _ Hp) as [rest Hrest].
      rewrite Hsep, append_cons in Hrest. injection Hrest as -> ->.
      rewrite split_go_skip.
      rewrite join_cons by apply split_go_nonempty.
      rewrite IH by (rewrite length_append in Hlen; lia).
      rewrite Hsep, !append_cons. reflexivity.
    + rewrite IH by lia.
      rewrite append_assoc. reflexivity.
Qed.

(** X22: joining the pieces of [s.split(sep)] with [sep] gives [s] back,
    for every non-empty separator. *)
Theorem join_split (sep s : string) :
  sep <> "" -> join sep (split sep s) = s.
Proof.
  intros Hsep. destruct sep as [|c0 sep']; [congruence|].
  unfold split.
  exact (join_split_go _ c0 sep' eq_refl (String.length s) s (Nat.le_refl _) "").
Qed.

Lemma join_split_witness :
  join " - " (split " - " "Bicep - Glue - Original Mix") = "Bicep - Glue - Original Mix".
Proof. apply join_split. discriminate. Defined.

Lemma prefix_within sep : forall x y,
  (String.length sep <= String.length x)%nat ->
  String.prefix sep (x +:+ y) = String.prefix sep x.
Proof.
  induction sep as [|c sep IH]; intros x y Hlen.
  - generalize (x +:+ y). intros z. destruct x, z; reflexivity.
  - destruct x as [|c' x]; [cbn [String.length] in Hlen; lia|].
    rewrite append_cons. cbn [String.prefix String.length] in *.
    destruct (ascii_dec c c'); [apply IH; lia | reflexivity].
Qed.

Lemma split_go_no_separator sep c0 sep' :
  sep = String c0 sep' ->
  forall s cur, includes sep s = false -> split_go sep 0 cur s = [cur +:+ s].
Proof.
  intros Hsep. induction s as [|c s IH]; intros cur Hinc.
  - cbn [split_go]. rewrite append_nil_r. reflexivity.
  - rewrite includes_unfold in Hinc. apply orb_false_iff in Hinc as [Hp Hinc].
    rewrite (split_go_cons sep c0 sep' cur c s Hsep), Hp, (IH _ Hinc), append_assoc.
    reflexivity.
Qed.

Lemma split_go_first_separator sep c0 sep' init last_ tail_ :
  sep = String c0 sep' ->
  sep = init +:+ String last_ "" ->
  forall a cur,
    includes sep (a +:+ init) = false ->
    split_go sep 0 cur (a +:+ sep +:+ tail_) = (cur +:+ a) :: split_go sep 0 "" tail_.
Proof.
  intros Hsep Hinit. induction a as [|c a IH]; intros cur Hinc.
  - change ("" +:+ sep +:+ tail_) with (sep +:+ tail_).
    rewrite append_nil_r.
    assert (Hcons : sep +:+ tail_ = String c0 (sep' +:+ tail_))
      by (rewrite Hsep at 1; apply append_cons).
    rewrite Hcons, (split_go_cons sep c0 sep' cur c0 _ Hsep), <- Hcons.
    rewrite prefix_append, split_go_skip. reflexivity.
  - rewrite includes_unfold in Hinc. apply orb_false_iff in Hinc as [Hp Hinc].
    rewrite append_cons in Hinc.
    assert (Hp' : String.prefix sep (String c a +:+ sep +:+ tail_) = false).
    { rewrite <- Hp. rewrite Hinit at 2.
      rewrite (append_assoc init), <- (append_assoc (String c a) init).
      apply prefix_within.
      rewrite Hinit at 1. rewrite !length_append. cbn [String.length]. lia. }
    rewrite append_cons in Hp'. rewrite !append_cons.
    rewrite (split_go_cons sep c0 sep' cur c _ Hsep), Hp', (IH _ Hinc), append_assoc.
    reflexivity.
Qed.

(** X23: a raw line is cut at its first [" - "]: what stands before it
    is the artist, everything after it, further separators included, is
    the title; an empty side gets its placeholder. *)
Theorem rawToCleaned_cuts_at_first_separator (raw : RawTrack.t) (a b : string) :
  RawTrack.rawText raw = a +:+ " - " +:+ b ->
  includes " - " (a +:+ " -") = false ->
  artist (rawToCleaned raw) = str_or a "Unknown Artist" /\
  title (rawToCleaned raw) = str_or b "Unknown Title" /\
  original (rawToCleaned raw) = RawTrack.rawText raw /\
  index (rawToCleaned raw) = RawTrack.index raw.
Proof.
  intros Htext Hfirst. unfold rawToCleaned. cbn [artist title original index].
  rewrite Htext. unfold split at 1 2.
  rewrite (split_go_first_separator " - " " " "- " " -" " " b eq_refl eq_refl a "" Hfirst).
  change ("" +:+ a) with a. cbn [nth drop].
  change (split_go " - " 0 "" b) with (split " - " b).
  rewrite drop_0, (join_split " - " b) by discriminate.
  repeat split; reflexivity.
Qed.

Lemma rawToCleaned_cuts_at_first_separator_witness :
  artist (rawToCleaned raw_two_separators) = "Bicep" /\
  title (rawToCleaned raw_two_separators) = "Glue - Original Mix".
Proof.
  destruct (rawToCleaned_cuts_at_first_separator raw_two_separators
              "Bicep" "Glue - Original Mix" eq_refl eq_refl) as (Ha & Ht & _).
  split; [exact Ha | exact Ht].
Defined.

(** X24: a raw line without [" - "] becomes the artist as a whole, or
    ["Unknown Artist"] if it is empty, and the title is
    ["Unknown Title"]. *)
Theorem rawToCleaned_without_separator (raw : RawTrack.t) :
  includes " - " (RawTrack.rawText raw) = false ->
  artist (rawToCleaned raw) = str_or (RawTrack.rawText raw) "Unknown Artist" /\
  title (rawToCleaned raw) = "Unknown Title".
Proof.
  intros Hnone. unfold rawToCleaned. cbn [artist title]. unfold split.
  rewrite (split_go_no_separator " - " " " "- " eq_refl _ "" Hnone).
  split; reflexivity.
Qed.

Lemma rawToCleaned_without_separator_witness :
  artist (rawToCleaned raw_no_separator) = "ID" /\
  title (rawToCleaned raw_no_separator) = "Unknown Title".
Proof. apply (rawToCleaned_without_separator raw_no_separator). reflexivity. Defined.

(* ================================================================== *)
(** * One track through the services of the constructor *)
(* ================================================================== *)

Section OneTrack.
Context {runtime : JsRuntime} {cheerio : Cheerio}.
Variable config : WorkerConfig.
Variable net : Net.

Lemma run_alone_NotSliderService_search w t :
  exists w' r,
    run_alone net w (NotSliderService_search config t) = (w', Returned r) /\
    ((exists message, r = not_found t message) \/
     (exists finalUrl, r = found_on_notslider t finalUrl)).
Proof.
  pose proof (run_alone_ensures (fun _ => True) net
                (resolved_shape (fun _ => True) t) (fun _ => False)
                (NotSliderService_search config t) (fun _ => I) w
                (search_from_ensures config (fun _ => True) t _ retryAttempts 0%nat))
    as Hrun.
  destruct (run_alone net w (NotSliderService_search config t)) as [w' [r|e]];
    cbn [snd] in Hrun; [|destruct Hrun].
  exists w', r. split; [reflexivity|].
  destruct Hrun as [Hnot|(u & o & _ & _ & ->)]; [left; exact Hnot|].
  right. eexists. reflexivity.
Qed.

(** X25: with the services that the handler constructs, the search for
    one track never throws and never reports ["Search failed: ..."]: the
    result is the found result of NotSlider, or a not-found result whose
    error quotes what NotSlider said, followed by the fixed texts of the
    SoundCloud and yt-dlp stubs. *)
Theorem this_searchSingleTrack_alone w t :
  exists r,
    snd (run_alone net w (this_searchSingleTrack config t))
    = Returned r /\
    ((exists finalUrl, r = found_on_notslider t finalUrl) \/
     (exists e, r = not_found t (only_notslider_failed e))).
Proof.
  unfold this_searchSingleTrack, searchSingleTrack.
  rewrite run_alone_try_catch.
  unfold mbind, Async_bind.
  rewrite run_alone_bind.
  rewrite (run_alone_throttle net w "notslider" {| rpm := 60; delayMs := 1000 |} eq_refl).
  rewrite run_alone_bind.
  destruct (run_alone_NotSliderService_search (let_through w "notslider" {| rpm := 60; delayMs := 1000 |}) t)
    as (w1 & r1 & -> & [[message ->]|[finalUrl ->]]).
  - cbn [found not_found].
    rewrite run_alone_bind.
    rewrite (run_alone_throttle net w1 "soundcloud" {| rpm := 100; delayMs := 600 |} eq_refl).
    eexists. split; [reflexivity|].
    right. exists message. reflexivity.
  - eexists. split; [reflexivity|].
    left. exists finalUrl. reflexivity.
Qed.

End OneTrack.

(* ================================================================== *)
(** * The chunks of [searchTracksWithWaterfall] *)
(* ================================================================== *)

Lemma settling_order_app obs obs' :
  settling_order (obs ++ obs') = settling_order obs ++ settling_order obs'.
Proof.
  induction obs as [|[t o] obs IH]; [reflexivity|].
  cbn [app settling_order]. destruct o; cbn [app]; congruence.
Qed.

Section Chunks.
Variable net : Net.

Lemma perform_settles_nothing {X} (ev : SysE X) w :
  exists ext,
    observed (fst (perform net ev w)) = observed w ++ ext /\ settling_order ext = [].
Proof.
  destruct ev; cbn [perform fst observe observed];
    try (exists []; rewrite app_nil_r; split; reflexivity);
    eexists; split; reflexivity.
Qed.

Lemma run_sync_settles_nothing {R} (p : Async SysE R) : forall w,
  exists ext,
    observed (fst (run_sync net w p)) = observed w ++ ext /\ settling_order ext = [].
Proof.
  induction p as [r|e|X ev k IH]; intros w; cbn [run_sync];
    try (exists []; rewrite app_nil_r; split; reflexivity).
  destruct (perform_settles_nothing ev w) as (ext & Hobs & Hnone).
  destruct (perform net ev w) as [w' [x|wake x]]; cbn [fst] in *.
  - destruct (IH x w') as (ext' & Hobs' & Hnone').
    exists (ext ++ ext'). rewrite Hobs', Hobs, app_assoc.
    split; [reflexivity|]. rewrite settling_order_app, Hnone, Hnone'. reflexivity.
  - exists ext. split; assumption.
Qed.

Lemma start_all_settled {R} (ps : list (Async SysE R)) : forall w i,
  exists ext,
    observed (fst (start_all net w i ps)) = observed w ++ ext /\
    (length (settling_order ext) + pending (snd (start_all net w i ps)))%nat = length ps /\
    length (snd (start_all net w i ps)) = length ps /\
    Forall (fun j => (j < i + length ps)%nat) (settling_order ext).
Proof.
  induction ps as [|p ps IH]; intros w i; cbn [start_all].
  - exists []. rewrite app_nil_r. repeat split. constructor.
  - destruct (run_sync_settles_nothing p w) as (ext1 & Hobs1 & Hnone1).
    destruct (run_sync net w p) as [w1 t]. cbn [fst] in Hobs1.
    destruct (IH (note_settled w1 i t) (S i)) as (ext2 & Hobs2 & Hcount & Hlen & Hlt).
    destruct (start_all net (note_settled w1 i t) (S i) ps) as [w2 ts].
    cbn [fst snd] in *.
    destruct t as [wake p'|o]; cbn [note_settled observe observed pending length] in *.
    + exists (ext1 ++ ext2). rewrite Hobs2, Hobs1, app_assoc.
      rewrite settling_order_app, Hnone1. cbn [app].
      repeat split; [lia | lia |].
      eapply Forall_impl; [exact Hlt|]. intros j Hj. cbn beta in *. lia.
    + exists (ext1 ++ (clock w1, OSettled i) :: ext2).
      rewrite Hobs2, Hobs1, <- !app_assoc.
      rewrite settling_order_app, Hnone1. cbn [app settling_order length].
      repeat split; [lia | lia |].
      constructor; [lia|].
      eapply Forall_impl; [exact Hlt|]. intros j Hj. cbn beta in *. lia.
Qed.

Lemma earliest_None_pending {R} (pool : list (Task R)) :
  earliest pool = None -> pending pool = O.
Proof.
  induction pool as [|t rest IH]; [reflexivity|]. cbn [earliest pending].
  destruct t as [wake p|o], (earliest rest) as [[j wake']|];
    try discriminate; try (destruct (wake' <? wake); discriminate).
  exact IH.
Qed.

Lemma pending_insert {R} (pool : list (Task R)) : forall i wake p t,
  pool !! i = Some (Pending wake p) ->
  S (pending (<[i := t]> pool))
  = (pending pool + match t with Pending _ _ => 1 | Settled _ => 0 end)%nat.
Proof.
  induction pool as [|t0 rest IH]; intros i wake p t Hi; [discriminate|].
  destruct i as [|i].
  - cbn in Hi. injection Hi as ->. cbn [list_insert pending].
    change (<[0%nat := t]> (Pending wake p :: rest)) with (t :: rest).
    destruct t; cbn [pending]; lia.
  - change (<[S i := t]> (t0 :: rest)) with (t0 :: <[i := t]> rest).
    cbn in Hi. specialize (IH i wake p t Hi).
    destruct t0; cbn [pending]; lia.
Qed.

Lemma event_loop_settled {R} fuel : forall w (pool : list (Task R)) w' pool',
  event_loop fuel net w pool = Some (w', pool') ->
  exists ext,
    observed w' = observed w ++ ext /\
    length (settling_order ext) = pending pool /\
    Forall (fun j => (j < length pool)%nat) (settling_order ext).
Proof.
  induction fuel as [|fuel IH]; intros w pool w' pool' Hrun; [discriminate|].
  cbn [event_loop] in Hrun.
  destruct (earliest pool) as [[i wake]|] eqn:He.
  2:{ injection Hrun as <- <-. exists []. rewrite app_nil_r.
      rewrite (earliest_None_pending _ He). repeat split. constructor. }
  destruct (earliest_Some _ _ _ He) as [p Hi]. rewrite Hi in Hrun.
  destruct (run_sync_settles_nothing p (set_clock w (Z.max (clock w) wake)))
    as (ext1 & Hobs1 & Hnone1).
  destruct (run_sync net (set_clock w (Z.max (clock w) wake)) p) as [w1 t].
  cbn [fst set_clock observed] in Hobs1.
  destruct (IH _ _ _ _ Hrun) as (ext2 & Hobs2 & Hcount & Hlt).
  pose proof (pending_insert pool i wake p t Hi) as Hpend.
  pose proof (lookup_lt_Some _ _ _ Hi) as Hilt.
  rewrite length_insert in Hlt.
  destruct t as [wake' p'|o]; cbn [note_settled observe observed] in Hobs2.
  - exists (ext1 ++ ext2). rewrite Hobs2, Hobs1, app_assoc.
    rewrite settling_order_app, Hnone1. cbn [app].
    repeat split; [lia | exact Hlt].
  - exists (ext1 ++ (clock w1, OSettled i) :: ext2).
    rewrite Hobs2, Hobs1, <- !app_assoc.
    rewrite settling_order_app, Hnone1. cbn [app settling_order length].
    repeat split; [lia|].
    constructor; [exact Hilt | exact Hlt].
Qed.

Lemma Promise_all_settled {R} (ps : list (Async SysE R)) fuel w w' o :
  Promise_all fuel net w ps = Some (w', o) ->
  exists ext,
    observed w' = observed w ++ ext /\
    length (settling_order ext) = length ps /\
    Forall (fun j => (j < length ps)%nat) (settling_order ext).
Proof.
  unfold Promise_all. intros Hrun.
  destruct (start_all_settled ps w 0%nat) as (ext1 & Hobs1 & Hcount1 & Hlen1 & Hlt1).
  destruct (start_all net w 0 ps) as [w1 pool]. cbn [fst snd] in *.
  destruct (event_loop fuel net w1 pool) as [[w2 pool']|] eqn:Hloop; [|discriminate].
  injection Hrun as <- <-.
  destruct (event_loop_settled _ _ _ _ _ Hloop) as (ext2 & Hobs2 & Hcount2 & Hlt2).
  exists (ext1 ++ ext2). rewrite Hobs2, Hobs1, app_assoc.
  rewrite settling_order_app, length_app.
  repeat split; [lia|].
  apply Forall_app. split; [exact Hlt1 | rewrite <- Hlen1; exact Hlt2].
Qed.

End Chunks.

Lemma slice_chunk_length {A} (l : list A) i size :
  0 <= i -> 0 < size ->
  (length (take (Z.to_nat i) l) + length (slice l i (i + size)))%nat
  = length (take (Z.to_nat (i + size)) l) /\
  Z.of_nat (length (slice l i (i + size))) <= size.
Proof.
  intros Hi Hsize.
  pose proof (slice_extends l i size Hi Hsize) as Hext.
  apply (f_equal length) in Hext. rewrite length_app in Hext.
  split; [exact Hext|].
  rewrite !length_take in Hext. lia.
Qed.

Section ChunksOfTheWaterfall.
Context {runtime : JsRuntime} {cheerio : Cheerio}.
Variable config : WorkerConfig.
Variable net : Net.

Lemma waterfall_loop_settled tracks :
  0 < MAX_CONCURRENT_SEARCHES config ->
  forall fuel w i results w' o,
    0 <= i ->
    waterfall_loop config net fuel w tracks i results = Some (w', o) ->
    exists ext,
      observed w' = observed w ++ ext /\
      (length (take (Z.to_nat i) tracks) + length (settling_order ext))%nat
      = length tracks /\
      Forall (fun j => Z.of_nat j < MAX_CONCURRENT_SEARCHES config) (settling_order ext).
Proof.
  intros Hpos. induction fuel as [|fuel IH]; intros w i results w' o Hi Hrun;
    [discriminate|].
  cbn [waterfall_loop] in Hrun.
  destruct (i <? Z.of_nat (length tracks)) eqn:Hmore.
  - destruct (Promise_all (S fuel) net w _) as [[w1 o1]|] eqn:Hall; [|discriminate].
    destruct (Promise_all_ensures (fun _ => True) net (fun _ => I)
                (fun (_ : CleanedTrack) (_ : TrackSearchResult) => True)
                _ _ _ _ _ _
                (batch_ensures config (fun _ => True)
                   (fun _ _ => True) _
                   (searchSingleTrack_never_throws config _))
                Hall) as (rs1 & -> & _).
    destruct (Promise_all_settled net _ _ _ _ _ Hall) as (ext1 & Hobs1 & Hcount1 & Hlt1).
    rewrite length_map in Hcount1, Hlt1.
    destruct (IH _ _ _ _ _ (ltac:(lia) : 0 <= i + MAX_CONCURRENT_SEARCHES config) Hrun)
      as (ext2 & Hobs2 & Hcount2 & Hlt2).
    destruct (slice_chunk_length tracks i (MAX_CONCURRENT_SEARCHES config) Hi Hpos)
      as [Hsum Hchunk].
    exists (ext1 ++ ext2). rewrite Hobs2, Hobs1, app_assoc.
    rewrite settling_order_app, length_app.
    repeat split; [lia|].
    apply Forall_app. split; [|exact Hlt2].
    eapply Forall_impl; [exact Hlt1|]. intros j Hj. cbn beta in *. lia.
  - injection Hrun as <- <-. exists []. rewrite app_nil_r.
    apply Z.ltb_ge in Hmore.
    rewrite take_ge by lia. cbn [settling_order length].
    repeat split; [lia | constructor].
Qed.

(** X26: when [searchTracksWithWaterfall] returns, with a positive
    [MAX_CONCURRENT_SEARCHES], as many promises have settled as there are
    tracks, and each of them at a position below
    [MAX_CONCURRENT_SEARCHES] in the array that was given to its
    [Promise.all]: no chunk is larger than the configured concurrency. *)
Theorem waterfall_chunks_within_concurrency fuel w tracks w' o :
  0 < MAX_CONCURRENT_SEARCHES config ->
  searchTracksWithWaterfall config net fuel w tracks = Some (w', o) ->
  exists new,
    observed w' = observed w ++ new /\
    length (settling_order new) = length tracks /\
    Forall (fun j => Z.of_nat j < MAX_CONCURRENT_SEARCHES config) (settling_order new).
Proof.
  intros Hpos Hrun. unfold searchTracksWithWaterfall in Hrun.
  destruct (waterfall_loop_settled tracks Hpos _ _ _ _ _ _ (Z.le_refl 0) Hrun)
    as (ext & Hobs & Hcount & Hlt).
  exists ext. cbn [Z.to_nat take length] in Hcount.
  rewrite take_0 in Hcount.
  repeat split; [exact Hobs | exact Hcount | exact Hlt].
Qed.

(** X27: with a [MAX_CONCURRENT_SEARCHES] of zero or less and at least
    one track, [searchTracksWithWaterfall] never returns: the loop index
    does not advance past the length of the track list. *)
Theorem waterfall_needs_positive_concurrency t tracks :
  MAX_CONCURRENT_SEARCHES config <= 0 ->
  forall fuel w,
    searchTracksWithWaterfall config net fuel w (t :: tracks) = None.
Proof.
  intros Hnonpos fuel w.
  exact (nonpositive_concurrency_never_ends config net t tracks
           Hnonpos fuel w).
Qed.

End ChunksOfTheWaterfall.

Lemma waterfall_chunks_within_concurrency_witness :
  exists new,
    observed slow_first_world = observed fresh_world ++ new /\
    length (settling_order new) = length three_tracks /\
    Forall (fun j => Z.of_nat j < 3) (settling_order new).
Proof.
  apply (waterfall_chunks_within_concurrency
           (runtime := plain_runtime) (cheerio := plain_cheerio)
           default_config net_slow_first
           (waterfall_fuel 3) fresh_world three_tracks
           slow_first_world (Returned slow_first_results)).
  - reflexivity.
  - vm_compute. reflexivity.
Defined.

Lemma waterfall_needs_positive_concurrency_witness :
  scenario_waterfall negative_concurrency_config net_empty_pages 1000 three_tracks = None.
Proof.
  apply (waterfall_needs_positive_concurrency
           (runtime := plain_runtime) (cheerio := plain_cheerio)
           negative_concurrency_config
           net_empty_pages track_glue [track_opal; track_atlas]).
  vm_compute. discriminate.
Defined.

(* ================================================================== *)
(** * [LLMService.parseTracklist] *)
(* ================================================================== *)

Lemma run_llm_bind {A B} api (p : Async LlmE A) (f : A -> Async LlmE B) :
  run_llm api (bind p f) =
  match run_llm api p with
  | Returned r => run_llm api (f r)
  | Threw e => Threw e
  end.
Proof. induction p as [r|e|X ev k IH]; cbn [bind run_llm]; auto. Qed.

Lemma run_llm_try_catch {R} api (p : Async LlmE R) h :
  run_llm api (try_catch p h) =
  match run_llm api p with
  | Returned r => Returned r
  | Threw e => run_llm api (h e)
  end.
Proof. induction p as [r|e|X ev k IH]; cbn [try_catch run_llm]; auto. Qed.

Section ParseTracklistErrors.
Context {runtime : JsRuntime} {json : JsonRuntime}.
Variable ANTHROPIC_API_KEY : string.
Variable ANTHROPIC_MODEL : option string.
Variable prompt : string.
Variable api : Api.

Lemma validateAndTransform_throws v e :
  validateAndTransform v = Threw e -> foreign_or_parse_failure e.
Proof.
  destruct v as [| | | | items |]; cbn [validateAndTransform];
    try (intros [= <-]; reflexivity).
  generalize 0%nat. induction items as [|item rest IH]; intros position Hthrow;
    cbn [transformItems] in Hthrow; [discriminate|].
  pose proof (transformItem_required item position) as Hr.
  destruct (transformItem item position) as [t|e'].
  - destruct (transformItems rest (S position)) as [ts|e''] eqn:Hrest; [discriminate|].
    injection Hthrow as <-. exact (IH _ Hrest).
  - injection Hthrow as <-. destruct Hr as [_ ->].
    destruct item; exact I || reflexivity.
Qed.

Lemma property_throws item key e :
  property item key = Threw e -> foreign_or_parse_failure e.
Proof. destruct item; cbn [property]; intros [= <-]; exact I. Qed.

Lemma foreign_is_no_parse_failure e : foreign e -> foreign_or_parse_failure e.
Proof. destruct e; cbn; intros H; [exact I | destruct H | exact I]. Qed.

Lemma callAnthropic_throws rq e :
  (forall authorization body, foreign_failures (api authorization body)) ->
  run_llm api (callAnthropic ANTHROPIC_API_KEY rq) = Threw e ->
  foreign_or_parse_failure e.
Proof.
  intros Hapi. unfold callAnthropic, mbind, Async_bind.
  cbn [settle bind run_llm answer_llm].
  specialize (Hapi ("Bearer " +:+ ANTHROPIC_API_KEY) rq).
  destruct (api ("Bearer " +:+ ANTHROPIC_API_KEY) rq) as [response|e0];
    cbn [foreign_failures] in Hapi.
  2:{ cbn [bind run_llm]. intros [= <-]. apply foreign_is_no_parse_failure, Hapi. }
  cbn [bind]. destruct (ok response); cbn [negb].
  - unfold Response_json.
    destruct (text response) as [body|e0].
    2:{ cbn [bind run_llm]. intros [= <-]. apply foreign_is_no_parse_failure, Hapi. }
    destruct (JSON_parse body) as [data|m]; cbn [bind run_llm];
      [|intros [= <-]; exact I].
    destruct (property data "content") as [[content|]|e0] eqn:Hcontent; cbn [run_llm].
    + destruct (Json_truthy (Some content)); [|intros [= <-]; reflexivity].
      destruct (first_element content) as [first|]; [|intros [= <-]; reflexivity].
      destruct (Json_truthy (Some first)); [|intros [= <-]; reflexivity].
      destruct (property first "text") as [[text_|]|e0] eqn:Htext; cbn [run_llm].
      * destruct (Json_truthy (Some text_)); [discriminate | intros [= <-]; reflexivity].
      * intros [= <-]. reflexivity.
      * intros [= <-]. exact (property_throws _ _ _ Htext).
    + intros [= <-]. reflexivity.
    + intros [= <-]. exact (property_throws _ _ _ Hcontent).
  - destruct (text response) as [body|e0]; cbn [bind run_llm]; intros [= <-].
    + reflexivity.
    + apply foreign_is_no_parse_failure, Hapi.
Qed.

(** X28: whatever the API answers and whatever the reply holds, an
    exception that leaves [parseTracklist] is a [ServiceError] with the
    code [LLM_PARSE_FAILED]: failures of [fetch], of reading the body and
    of [JSON.parse], and the [TypeError] of a [null] item, are wrapped. *)
Theorem parseTracklist_throws_only_parse_failures rawText e :
  (forall authorization body, foreign_failures (api authorization body)) ->
  run_llm api (parseTracklist ANTHROPIC_API_KEY ANTHROPIC_MODEL prompt rawText) = Threw e ->
  exists message retryable, e = ServiceError LLM_PARSE_FAILED message retryable.
Proof.
  intros Hapi. unfold parseTracklist. rewrite run_llm_try_catch.
  unfold mbind, Async_bind. rewrite run_llm_bind.
  assert (Hhandler : forall e0,
            foreign_or_parse_failure e0 ->
            run_llm api
              (match e0 with
               | ServiceError _ _ _ => Throw e0
               | _ => Throw (ServiceError LLM_PARSE_FAILED
                               ("Failed to parse tracklist: " +:+ error_message e0) true)
               end : Async LlmE (list CleanedTrack)) = Threw e ->
            exists message retryable, e = ServiceError LLM_PARSE_FAILED message retryable).
  { intros e0 He0. destruct e0 as [m|code m r|]; cbn [run_llm]; intros [= <-].
    - eexists _, _. reflexivity.
    - cbn in He0. subst code. eexists _, _. reflexivity.
    - eexists _, _. reflexivity. }
  destruct (run_llm api (callAnthropic ANTHROPIC_API_KEY _)) as [response|e0] eqn:Hcall.
  2:{ apply Hhandler. exact (callAnthropic_throws _ _ Hapi Hcall). }
  destruct (JSON_parse (as_string response)) as [v|m]; cbn [run_llm].
  2:{ intros [= <-]. eexists _, _. reflexivity. }
  destruct (validateAndTransform v) as [ts|e0] eqn:Hv; cbn [run_llm]; [discriminate|].
  apply Hhandler. exact (validateAndTransform_throws _ _ Hv).
Qed.

(** X29: a failing [fetch] is reported as retryable, with the message of
    the failure after ["Failed to parse tracklist: "]; an HTTP error
    status is reported with the status, the status text and the body, and
    is retryable exactly when the status is 500 or more. *)
Theorem parseTracklist_retryable rawText :
  (forall e,
     api ("Bearer " +:+ ANTHROPIC_API_KEY)
         (tracklist_request ANTHROPIC_MODEL prompt rawText) = Threw e ->
     foreign e ->
     run_llm api (parseTracklist ANTHROPIC_API_KEY ANTHROPIC_MODEL prompt rawText)
     = Threw (ServiceError LLM_PARSE_FAILED
                ("Failed to parse tracklist: " +:+ error_message e) true)) /\
  (forall response body,
     api ("Bearer " +:+ ANTHROPIC_API_KEY)
         (tracklist_request ANTHROPIC_MODEL prompt rawText) = Returned response ->
     ok response = false ->
     text response = Returned body ->
     run_llm api (parseTracklist ANTHROPIC_API_KEY ANTHROPIC_MODEL prompt rawText)
     = Threw (ServiceError LLM_PARSE_FAILED
                ("Anthropic API error: " +:+ pretty (status response) +:+ " "
                 +:+ statusText response +:+ " - " +:+ body)
                (500 <=? status response))).
Proof.
  split.
  - intros e Hanswer Hforeign.
    unfold parseTracklist. rewrite run_llm_try_catch.
    unfold mbind, Async_bind. rewrite run_llm_bind.
    unfold callAnthropic, mbind, Async_bind.
    cbn [settle bind run_llm answer_llm].
    change {| request_model := _; request_content := _;
              request_max_tokens := _; request_temperature := _ |}
      with (tracklist_request ANTHROPIC_MODEL prompt rawText).
    rewrite Hanswer. cbn [bind run_llm].
    destruct e; [reflexivity | destruct Hforeign | reflexivity].
  - intros response body Hanswer Hok Htext.
    unfold parseTracklist. rewrite run_llm_try_catch.
    unfold mbind, Async_bind. rewrite run_llm_bind.
    unfold callAnthropic, mbind, Async_bind.
    cbn [settle bind run_llm answer_llm].
    change {| request_model := _; request_content := _;
              request_max_tokens := _; request_temperature := _ |}
      with (tracklist_request ANTHROPIC_MODEL prompt rawText).
    rewrite Hanswer. cbn [bind]. rewrite Hok, Htext. cbn [negb bind run_llm].
    reflexivity.
Qed.

End ParseTracklistErrors.

Lemma parseTracklist_throws_only_parse_failures_witness :
  exists message retryable,
    run_llm api_unauthorized
      (parseTracklist (runtime := plain_runtime) (json := two_documents)
         "sk-ant-key" None "Extract the tracks." "1. Bicep - Glue")
    = Threw (ServiceError LLM_PARSE_FAILED message retryable).
Proof.
  destruct (parseTracklist_throws_only_parse_failures
              (runtime := plain_runtime) (json := two_documents)
              "sk-ant-key" None "Extract the tracks." api_unauthorized "1. Bicep - Glue"
              (ServiceError LLM_PARSE_FAILED
                 "Anthropic API error: 401 Unauthorized - invalid x-api-key" false)
              (fun _ _ => I) eq_refl) as (message & retryable & Heq).
  exists message, retryable. rewrite <- Heq. reflexivity.
Defined.

Lemma parseTracklist_retryable_witness :
  run_llm api_unreachable
    (parseTracklist (runtime := plain_runtime) (json := two_documents)
       "sk-ant-key" None "Extract the tracks." "1. Bicep - Glue")
  = Threw (ServiceError LLM_PARSE_FAILED "Failed to parse tracklist: fetch failed" true) /\
  run_llm api_overloaded
    (parseTracklist (runtime := plain_runtime) (json := two_documents)
       "sk-ant-key" None "Extract the tracks." "1. Bicep - Glue")
  = Threw (ServiceError LLM_PARSE_FAILED
             "Anthropic API error: 529 Overloaded - try later" true).
Proof.
  split.
  - destruct (parseTracklist_retryable (runtime := plain_runtime) (json := two_documents)
                "sk-ant-key" None "Extract the tracks." api_unreachable "1. Bicep - Glue")
      as [Hfetch _].
    exact (Hfetch (JsError "fetch failed") eq_refl I).
  - destruct (parseTracklist_retryable (runtime := plain_runtime) (json := two_documents)
                "sk-ant-key" None "Extract the tracks." api_overloaded "1. Bicep - Glue")
      as [_ Hstatus].
    exact (Hstatus _ "try later" eq_refl eq_refl eq_refl).
Defined.

Lemma searchSingleTrack_result_witness :
  exists r p,
    snd (run_fakes fakes_second_finds (searchSingleTrack_fakes track_glue)) = Returned r /\
    In (Searched p track_glue)
       (fst (run_fakes fakes_second_finds (searchSingleTrack_fakes track_glue))) /\
    fakes_second_finds p track_glue = Returned r.
Proof.
  destruct (searchSingleTrack_result fakes_second_finds track_glue)
    as (r & Hr & Hfound & _).
  assert (Hf : found r = true).
  { vm_compute in Hr. injection Hr as <-. reflexivity. }
  destruct (Hfound Hf) as (p & Hin & Hp).
  exists r, p. split; [exact Hr|]. split; [exact Hin | exact Hp].
Defined.

Lemma validateAndTransform_returns_iff_witness :
  exists ts, validateAndTransform (runtime := plain_runtime) llm_reply = Returned ts.
Proof.
  apply (proj2 (validateAndTransform_returns_iff (runtime := plain_runtime) llm_reply)).
  eexists. split; [reflexivity|]. repeat constructor.
Defined.

(* ================================================================== *)
(** * The first attempt of [NotSliderService.search] *)
(* ================================================================== *)

Section FirstAttempt.
Context {runtime : JsRuntime} {cheerio : Cheerio}.
Variable config : WorkerConfig.
Variable net : Net.

(** X30: when [encodeURIComponent] accepts the query and the page of
    the first search request holds a candidate, [NotSliderService.search]
    returns a found result after exactly two requests, the search and the
    [HEAD] probe of the candidate, and without any timer; the download
    URL is the [url] of the answer to the probe, or the candidate itself
    when the probe fails. *)
Theorem search_finds_at_first_attempt w t encoded response html u :
  encodeURIComponent (artist t +:+ " - " +:+ title t) = Encoded_as encoded ->
  outcome (net (sent w)) = Returned response ->
  ok response = true ->
  text response = Returned html ->
  extractDownloadUrl config html (artist t +:+ " - " +:+ title t) = Some u ->
  truthy u = true ->
  run_alone net w (NotSliderService_search config t)
  = (answered net (answered net w (search_request config encoded))
       {| method := HEAD; href := u |},
     Returned (found_on_notslider t (redirected u (outcome (net (S (sent w))))))).
Proof.
  intros Hquery Hanswer Hok Htext Hlink Hu.
  unfold NotSliderService_search. change retryAttempts with 2%nat.
  rewrite (run_alone_search_from config net w t 1 0 encoded Hquery).
  unfold attempt_result. rewrite Hanswer, Hok, Htext, Hlink, Hu.
  reflexivity.
Qed.

End FirstAttempt.

Lemma search_finds_at_first_attempt_witness :
  snd (run_alone net_slow_first fresh_world
         (NotSliderService_search (runtime := plain_runtime) (cheerio := plain_cheerio)
            default_config track_glue))
  = Returned (found_on_notslider track_glue "https://notslider.nl/") /\
  sent (fst (run_alone net_slow_first fresh_world
               (NotSliderService_search (runtime := plain_runtime) (cheerio := plain_cheerio)
                  default_config track_glue))) = 2%nat.
Proof.
  rewrite (search_finds_at_first_attempt
             (runtime := plain_runtime) (cheerio := plain_cheerio)
             default_config net_slow_first fresh_world track_glue "Bicep - Glue"
             (page "https://cdn.example/glue.mp3") "https://cdn.example/glue.mp3"
             "https://cdn.example/glue.mp3" eq_refl eq_refl eq_refl eq_refl eq_refl
             eq_refl).
  split; reflexivity.
Defined.
